(** * node-lru-cache: a shallow embedding of [src/index.ts]

    The cache object of [index.ts] is embedded as a record [Cache] holding
    the fields the source keeps behind its symbols ([MAX], [LENGTH],
    [LRU_LIST], [CACHE], ...), and its functions and methods as functions of
    a state monad [M] under the names they have in the source.

    - The Yallist nodes the source shares between the recency list and the
      key index live in an arena ([nodes]) addressed by node identifiers: the
      list is a list of identifiers, the index maps keys to identifiers, and a
      write to an entry made through the index is seen through the list, as
      in the source.
    - [Date.now()] reads the clock of the world, which is the sequence of
      its readings: any sequence, so time may pass between two readings of
      one method as well as between two methods.
    - The dispose callback and the visitor of [forEach] belong to the caller.
      A call of the dispose callback is recorded in the log [disposed], the
      calls of the visitor are the result of [forEach]; neither calls back
      into the cache nor throws.
    - [throw] is a result of the monad, and what a method changed before it
      threw stays changed.
    - Numbers are integers, plus the [Infinity] the source itself uses as
      the default capacity. *)

From stdpp Require Import base list strings.
From Stdlib Require Import ZArith Lia.

Local Open Scope Z_scope.

(** ** JavaScript values that reach the cache *)

(** A JavaScript number: an integer or [Infinity] (the source itself
    produces [Infinity] as the default capacity).  [NaN], [-Infinity] and
    fractions are not represented. *)
Inductive number : Type :=
  | Fin (z : Z)
  | Infinity.

(** The values a caller can hand to the constructor, to a setter or as the
    optional third argument of [set]. *)
Inductive jsval : Type :=
  | JUndefined
  | JNull
  | JBool (b : bool)
  | JNumber (n : number)
  | JString (s : string)
  | JObject.

Module JS.

(** [typeof v === 'number'] *)
Definition is_number (v : jsval) : bool :=
  match v with JNumber _ => true | _ => false end.

(** Truthiness of a number: everything but [0]. *)
Definition truthy_num (n : number) : bool :=
  match n with Fin z => negb (z =? 0) | Infinity => true end.

(** Truthiness of a value, as [if (v)], [v && ...] and [v || ...] test it. *)
Definition truthy (v : jsval) : bool :=
  match v with
  | JUndefined | JNull => false
  | JBool b => b
  | JNumber n => truthy_num n
  | JString s => negb (String.eqb s EmptyString)
  | JObject => true
  end.

(** [a || b] on numbers. *)
Definition or_num (a b : number) : number :=
  if truthy_num a then a else b.

(** [a || b] on values. *)
Definition or (a b : jsval) : jsval :=
  if truthy a then a else b.

(** [z > n] for an integer [z] and a number [n]. *)
Definition gt (z : Z) (n : number) : bool :=
  match n with Fin m => m <? z | Infinity => false end.

(** [n < 0] *)
Definition negative (n : number) : bool :=
  match n with Fin z => z <? 0 | Infinity => false end.

(** [n > 0] *)
Definition positive (n : number) : bool :=
  match n with Fin z => 0 <? z | Infinity => true end.

(** [z + n] *)
Definition add (z : Z) (n : number) : number :=
  match n with Fin m => Fin (z + m) | Infinity => Infinity end.

(** [n - z] *)
Definition sub (n : number) (z : Z) : number :=
  match n with Fin m => Fin (m - z) | Infinity => Infinity end.

(** [n === 0] *)
Definition is_zero (n : number) : bool :=
  match n with Fin z => z =? 0 | Infinity => false end.

End JS.

(** ** The exceptions of the source *)

Inductive exn : Type :=
  | TypeError (msg : string)
      (** [throw new TypeError(msg)] of [index.ts] *)
  | YallistError
      (** Yallist's [removeNode] on a node that is not in the list *)
  | DanglingNode.
      (** a node identifier without a node: no source state has one *)

Inductive result (A : Type) : Type :=
  | Ok (a : A)
  | Throw (e : exn).
Arguments Ok {A} a.
Arguments Throw {A} e.

(** A Yallist node is identified by its slot in the arena. *)
Abbreviation Node := nat.

(** ** Yallist, by its contract

    The list primitive is an external package.  A list is the sequence of its
    nodes from head to tail. *)
Module Yallist.

Definition t : Type := list Node.

Definition head (l : t) : option Node := List.head l.
Definition tail (l : t) : option Node := last l.

(** [removeNode(node)] throws when the node does not belong to the list. *)
Definition removeNode (n : Node) (l : t) : result t :=
  if decide (n ∈ l) then Ok (filter (λ m, m ≠ n) l) else Throw YallistError.

(** [unshiftNode(node)] unlinks the node from the list it is in and links it
    in front. *)
Definition unshiftNode (n : Node) (l : t) : t :=
  n :: filter (λ m, m ≠ n) l.

End Yallist.

(** ** The built-in [Map], in insertion order *)
Module Map.
Section Map.
Context {K : Type} `{EqDecision K}.

Definition t : Type := list (K * Node).

Fixpoint get (k : K) (m : t) : option Node :=
  match m with
  | [] => None
  | (k', n) :: m' => if decide (k' = k) then Some n else get k m'
  end.

Definition has (k : K) (m : t) : bool :=
  match get k m with Some _ => true | None => false end.

(** An existing key keeps its place, a new key goes last. *)
Fixpoint set (k : K) (n : Node) (m : t) : t :=
  match m with
  | [] => [(k, n)]
  | (k', n') :: m' =>
      if decide (k' = k) then (k, n) :: m' else (k', n') :: set k n m'
  end.

Definition delete (k : K) (m : t) : t :=
  filter (λ p, p.1 ≠ k) m.

Definition keys (m : t) : list K := m.*1.
End Map.
End Map.

(** ** The records of the source *)

(** [class LEntry]: what a node of the recency list carries. *)
Module LEntry.
Record t (K V : Type) : Type := mk {
  key : K;
  value : V;
  length : Z;
  now : Z;
  maxAge : number
}.
Arguments mk {K V}.
Arguments key {K V}.
Arguments value {K V}.
Arguments length {K V}.
Arguments now {K V}.
Arguments maxAge {K V}.

(** The constructor stores [maxAge || 0]. *)
Definition new {K V} (key : K) (value : V) (length now : Z) (maxAge : number)
  : t K V :=
  mk key value length now (JS.or_num maxAge (Fin 0)).
End LEntry.

(** [interface Entry]: a record of [dump()], read back by [load()]. *)
Module Entry.
Record t (K V : Type) : Type := mk { k : K; v : V; e : number }.
Arguments mk {K V}.
Arguments k {K V}.
Arguments v {K V}.
Arguments e {K V}.
End Entry.

(** A length function is a function object: its identity (what [!==]
    compares) and what it computes. *)
Record LengthFn (K V : Type) : Type := {
  fn_id : nat;
  fn_apply :> V → K → Z
}.
Arguments fn_id {K V}.
Arguments fn_apply {K V}.

(** [const naiveLength = () => 1] *)
Definition naiveLength {K V} : LengthFn K V :=
  {| fn_id := 0%nat; fn_apply := λ _ _, 1 |}.

(** The fields of a cache object.  [DISPOSE] tells whether a dispose callback
    is configured; what the callback is called with goes to the log
    [disposed] of the world. *)
Record Cache (K V : Type) : Type := {
  MAX : number;
  LENGTH : Z;
  LENGTH_CALCULATOR : LengthFn K V;
  ALLOW_STALE : bool;
  MAX_AGE : number;
  DISPOSE : bool;
  NO_DISPOSE_ON_SET : bool;
  UPDATE_AGE_ON_GET : bool;
  LRU_LIST : Yallist.t;
  CACHE : @Map.t K
}.
Arguments MAX {K V}.
Arguments LENGTH {K V}.
Arguments LENGTH_CALCULATOR {K V}.
Arguments ALLOW_STALE {K V}.
Arguments MAX_AGE {K V}.
Arguments DISPOSE {K V}.
Arguments NO_DISPOSE_ON_SET {K V}.
Arguments UPDATE_AGE_ON_GET {K V}.
Arguments LRU_LIST {K V}.
Arguments CACHE {K V}.

(** The cache object together with what it shares with the rest of the
    program: the nodes, the calls the dispose callback has received (oldest
    first), and the clock: [clock i] is what the [i]-th call of [Date.now()]
    returns, [ticks] counts the calls made so far. *)
Record World (K V : Type) : Type := {
  self : Cache K V;
  nodes : list (LEntry.t K V);
  disposed : list (K * V);
  clock : nat → Z;
  ticks : nat
}.
Arguments self {K V}.
Arguments nodes {K V}.
Arguments disposed {K V}.
Arguments clock {K V}.
Arguments ticks {K V}.

(** The option object of the constructor; an absent option is [JUndefined],
    [None] or [false]. *)
Module Options.
Record t (K V : Type) : Type := mk {
  max : jsval;
  maxAge : jsval;
  length : option (LengthFn K V);
  dispose : bool;
  stale : jsval;
  noDisposeOnSet : jsval;
  updateAgeOnGet : jsval
}.
Arguments mk {K V}.
Arguments max {K V}.
Arguments maxAge {K V}.
Arguments length {K V}.
Arguments dispose {K V}.
Arguments stale {K V}.
Arguments noDisposeOnSet {K V}.
Arguments updateAgeOnGet {K V}.

(** [{}] *)
Definition empty {K V} : t K V :=
  mk JUndefined JUndefined None false JUndefined JUndefined JUndefined.
End Options.

Section Model.
Context {K V : Type} `{EqDecision K}.

#[local] Abbreviation LEntry := (LEntry.t K V).
#[local] Abbreviation Cache := (Cache K V).
#[local] Abbreviation World := (World K V).

(** *** Field updates *)

Definition with_MAX (x : number) (c : Cache) : Cache :=
  {| MAX := x; LENGTH := LENGTH c; LENGTH_CALCULATOR := LENGTH_CALCULATOR c;
     ALLOW_STALE := ALLOW_STALE c; MAX_AGE := MAX_AGE c; DISPOSE := DISPOSE c;
     NO_DISPOSE_ON_SET := NO_DISPOSE_ON_SET c;
     UPDATE_AGE_ON_GET := UPDATE_AGE_ON_GET c;
     LRU_LIST := LRU_LIST c; CACHE := CACHE c |}.

Definition with_LENGTH (x : Z) (c : Cache) : Cache :=
  {| MAX := MAX c; LENGTH := x; LENGTH_CALCULATOR := LENGTH_CALCULATOR c;
     ALLOW_STALE := ALLOW_STALE c; MAX_AGE := MAX_AGE c; DISPOSE := DISPOSE c;
     NO_DISPOSE_ON_SET := NO_DISPOSE_ON_SET c;
     UPDATE_AGE_ON_GET := UPDATE_AGE_ON_GET c;
     LRU_LIST := LRU_LIST c; CACHE := CACHE c |}.

Definition with_LENGTH_CALCULATOR (x : LengthFn K V) (c : Cache) : Cache :=
  {| MAX := MAX c; LENGTH := LENGTH c; LENGTH_CALCULATOR := x;
     ALLOW_STALE := ALLOW_STALE c; MAX_AGE := MAX_AGE c; DISPOSE := DISPOSE c;
     NO_DISPOSE_ON_SET := NO_DISPOSE_ON_SET c;
     UPDATE_AGE_ON_GET := UPDATE_AGE_ON_GET c;
     LRU_LIST := LRU_LIST c; CACHE := CACHE c |}.

Definition with_ALLOW_STALE (x : bool) (c : Cache) : Cache :=
  {| MAX := MAX c; LENGTH := LENGTH c;
     LENGTH_CALCULATOR := LENGTH_CALCULATOR c;
     ALLOW_STALE := x; MAX_AGE := MAX_AGE c; DISPOSE := DISPOSE c;
     NO_DISPOSE_ON_SET := NO_DISPOSE_ON_SET c;
     UPDATE_AGE_ON_GET := UPDATE_AGE_ON_GET c;
     LRU_LIST := LRU_LIST c; CACHE := CACHE c |}.

Definition with_MAX_AGE (x : number) (c : Cache) : Cache :=
  {| MAX := MAX c; LENGTH := LENGTH c;
     LENGTH_CALCULATOR := LENGTH_CALCULATOR c;
     ALLOW_STALE := ALLOW_STALE c; MAX_AGE := x; DISPOSE := DISPOSE c;
     NO_DISPOSE_ON_SET := NO_DISPOSE_ON_SET c;
     UPDATE_AGE_ON_GET := UPDATE_AGE_ON_GET c;
     LRU_LIST := LRU_LIST c; CACHE := CACHE c |}.

Definition with_LRU_LIST (x : Yallist.t) (c : Cache) : Cache :=
  {| MAX := MAX c; LENGTH := LENGTH c;
     LENGTH_CALCULATOR := LENGTH_CALCULATOR c;
     ALLOW_STALE := ALLOW_STALE c; MAX_AGE := MAX_AGE c; DISPOSE := DISPOSE c;
     NO_DISPOSE_ON_SET := NO_DISPOSE_ON_SET c;
     UPDATE_AGE_ON_GET := UPDATE_AGE_ON_GET c;
     LRU_LIST := x; CACHE := CACHE c |}.

Definition with_CACHE (x : @Map.t K) (c : Cache) : Cache :=
  {| MAX := MAX c; LENGTH := LENGTH c;
     LENGTH_CALCULATOR := LENGTH_CALCULATOR c;
     ALLOW_STALE := ALLOW_STALE c; MAX_AGE := MAX_AGE c; DISPOSE := DISPOSE c;
     NO_DISPOSE_ON_SET := NO_DISPOSE_ON_SET c;
     UPDATE_AGE_ON_GET := UPDATE_AGE_ON_GET c;
     LRU_LIST := LRU_LIST c; CACHE := x |}.

Definition with_self (c : Cache) (w : World) : World :=
  {| self := c; nodes := nodes w; disposed := disposed w;
     clock := clock w; ticks := ticks w |}.

Definition with_nodes (x : list LEntry) (w : World) : World :=
  {| self := self w; nodes := x; disposed := disposed w;
     clock := clock w; ticks := ticks w |}.

Definition with_disposed (x : list (K * V)) (w : World) : World :=
  {| self := self w; nodes := nodes w; disposed := x;
     clock := clock w; ticks := ticks w |}.

Definition with_ticks (x : nat) (w : World) : World :=
  {| self := self w; nodes := nodes w; disposed := disposed w;
     clock := clock w; ticks := x |}.

(** *** The monad of the methods: a state, and a result or an exception *)

Definition M (A : Type) : Type := World → result A * World.

Definition ret {A} (a : A) : M A := λ w, (Ok a, w).

Definition bind {A B} (m : M A) (f : A → M B) : M B :=
  λ w, match m w with
       | (Ok a, w') => f a w'
       | (Throw e, w') => (Throw e, w')
       end.

Definition throw {A} (e : exn) : M A := λ w, (Throw e, w).

(** [this] / [self] *)
Definition this : M Cache := λ w, (Ok (self w), w).

Definition modify (f : Cache → Cache) : M unit :=
  λ w, (Ok tt, with_self (f (self w)) w).

(** [Date.now()] *)
Definition Date_now : M Z :=
  λ w, (Ok (clock w (ticks w)), with_ticks (S (ticks w)) w).

(** [node.value] *)
Definition node_value (node : Node) : M LEntry :=
  λ w, match nodes w !! node with
       | Some hit => (Ok hit, w)
       | None => (Throw DanglingNode, w)
       end.

(** Assignments to the fields of [node.value]. *)
Definition node_assign (node : Node) (hit : LEntry) : M unit :=
  λ w, (Ok tt, with_nodes (<[node := hit]> (nodes w)) w).

(** [self[DISPOSE](key, value)] *)
Definition call_dispose (key : K) (value : V) : M unit :=
  λ w, (Ok tt, with_disposed (disposed w ++ [(key, value)]) w).

(** [self[LRU_LIST].removeNode(node)] *)
Definition LRU_LIST_removeNode (node : Node) : M unit :=
  λ w, match Yallist.removeNode node (LRU_LIST (self w)) with
       | Ok l => (Ok tt, with_self (with_LRU_LIST l (self w)) w)
       | Throw e => (Throw e, w)
       end.

(** [self[LRU_LIST].unshiftNode(node)] *)
Definition LRU_LIST_unshiftNode (node : Node) : M unit :=
  modify (λ c, with_LRU_LIST (Yallist.unshiftNode node (LRU_LIST c)) c).

(** [self[LRU_LIST].unshift(hit)]: a new node carrying [hit] becomes the
    head; the result is that node ([self[LRU_LIST].head]). *)
Definition LRU_LIST_unshift (hit : LEntry) : M Node :=
  λ w, let node := length (nodes w) in
       (Ok node,
        with_self (with_LRU_LIST (node :: LRU_LIST (self w)) (self w))
          (with_nodes (nodes w ++ [hit]) w)).

(** A loop over an array or a list, one call of [f] per element. *)
Fixpoint mapM {A B} (f : A → M B) (l : list A) : M (list B) :=
  match l with
  | [] => ret []
  | a :: l' =>
      bind (f a) (λ b, bind (mapM f l') (λ bs, ret (b :: bs)))
  end.

End Model.

Notation "x <- m ;; k" := (bind m (λ x, k))
  (at level 20, m at level 99, k at level 200, only parsing).

(** ** The functions of [index.ts] outside the class *)

Section Helpers.
Context {K V : Type} `{EqDecision K}.

#[local] Abbreviation LEntry := (LEntry.t K V).
#[local] Abbreviation Cache := (Cache K V).
#[local] Abbreviation World := (World K V).

(** [const del = (self, node) => ...]; [None] is an [undefined] node. *)
Definition del (node : option Node) : M (K := K) (V := V) unit :=
  match node with
  | None => ret tt
  | Some node =>
      hit <- node_value node ;;
      self <- this ;;
      _ <- (if DISPOSE self
            then call_dispose (LEntry.key hit) (LEntry.value hit)
            else ret tt) ;;
      _ <- modify (λ c, with_LENGTH (LENGTH c - LEntry.length hit) c) ;;
      _ <- modify (λ c, with_CACHE (Map.delete (LEntry.key hit) (CACHE c)) c) ;;
      LRU_LIST_removeNode node
  end.

(** [const isStale = (self, hit) => ...], on a [hit] that is defined.  The
    clock is read only when a TTL applies. *)
Definition isStale (hit : LEntry) : M (K := K) (V := V) bool :=
  self <- this ;;
  if negb (JS.truthy_num (LEntry.maxAge hit))
     && negb (JS.truthy_num (MAX_AGE self))
  then ret false
  else
    now <- Date_now ;;
    let diff := now - LEntry.now hit in
    ret (if JS.truthy_num (LEntry.maxAge hit)
         then JS.gt diff (LEntry.maxAge hit)
         else JS.truthy_num (MAX_AGE self) && JS.gt diff (MAX_AGE self)).

(** [const get = (self, key, doUse) => ...]; [None] is [undefined]. *)
Definition get (key : K) (doUse : bool) : M (K := K) (V := V) (option V) :=
  self <- this ;;
  match Map.get key (CACHE self) with
  | None => ret None
  | Some node =>
      hit <- node_value node ;;
      stale <- isStale hit ;;
      if stale then
        _ <- del (Some node) ;;
        if negb (ALLOW_STALE self) then ret None
        else ret (Some (LEntry.value hit))
      else
        _ <- (if doUse then
                _ <- (if UPDATE_AGE_ON_GET self then
                        now <- Date_now ;;
                        node_assign node
                          (LEntry.mk (LEntry.key hit) (LEntry.value hit)
                             (LEntry.length hit) now (LEntry.maxAge hit))
                      else ret tt) ;;
                LRU_LIST_unshiftNode node
              else ret tt) ;;
        ret (Some (LEntry.value hit))
  end.

(** The loop of [trim]: [walkers] is the chain [walker], [walker.prev], ...
    that starts at the tail.  [del] unlinks the walker only, so the chain
    read before the loop is the chain the loop follows. *)
Fixpoint trim_loop (walkers : list Node) : M (K := K) (V := V) unit :=
  match walkers with
  | [] => ret tt
  | walker :: prev =>
      self <- this ;;
      if JS.gt (LENGTH self) (MAX self)
      then _ <- del (Some walker) ;; trim_loop prev
      else ret tt
  end.

(** [const trim = (self) => ...] *)
Definition trim : M (K := K) (V := V) unit :=
  self <- this ;;
  if JS.gt (LENGTH self) (MAX self)
  then trim_loop (rev (LRU_LIST self))
  else ret tt.

(** [const forEachStep = (self, fn, node, thisp) => ...]: the result is the
    pair [fn] is called with, [None] when [fn] is not called. *)
Definition forEachStep (node : Node) : M (K := K) (V := V) (option (V * K)) :=
  hit <- node_value node ;;
  stale <- isStale hit ;;
  self <- this ;;
  if stale then
    _ <- del (Some node) ;;
    if negb (ALLOW_STALE self) then ret None
    else ret (Some (LEntry.value hit, LEntry.key hit))
  else ret (Some (LEntry.value hit, LEntry.key hit)).

End Helpers.

(** ** [class LRUCache]

    The methods come in an order that lets each one name what it calls:
    [peek] and [prune] call the function [get] above, [set] and [pop] the
    function [del] above, before the methods [get] and [del] take the
    names. *)
Module LRUCache.
Section Methods.
Context {K V : Type} `{EqDecision K}.

#[local] Abbreviation LEntry := (LEntry.t K V).
#[local] Abbreviation Entry := (Entry.t K V).
#[local] Abbreviation Cache := (Cache K V).
#[local] Abbreviation World := (World K V).
#[local] Abbreviation M := (M (K := K) (V := V)).

(** What [new LRUCache(...)] is called with. *)
Inductive ctor_arg : Type :=
  | ArgNone
  | ArgMax (max : number)
  | ArgOptions (options : Options.t K V).

(** [constructor(options)].  The [this.reset()] that ends it runs on an
    object that has no list yet: it calls no dispose and creates the empty
    index, the empty list and the zero total. *)
Definition constructor (options : ctor_arg) : result Cache :=
  let options :=
    match options with
    | ArgMax max =>
        Options.mk (JNumber max) JUndefined None false
          JUndefined JUndefined JUndefined
    | ArgNone => Options.empty
    | ArgOptions o => o
    end in
  if JS.truthy (Options.max options)
     && (negb (JS.is_number (Options.max options))
         || match Options.max options with
            | JNumber n => JS.negative n
            | _ => false
            end)
  then Throw (TypeError "max must be a non-negative number")
  else
    let max :=
      match JS.or (Options.max options) (JNumber Infinity) with
      | JNumber n => n
      | _ => Infinity
      end in
    let lc := default naiveLength (Options.length options) in
    if JS.truthy (Options.maxAge options)
       && negb (JS.is_number (Options.maxAge options))
    then Throw (TypeError "maxAge must be a number")
    else
      let maxAge :=
        match JS.or (Options.maxAge options) (JNumber (Fin 0)) with
        | JNumber n => n
        | _ => Fin 0
        end in
      Ok {| MAX := max;
            LENGTH := 0;
            LENGTH_CALCULATOR := lc;
            ALLOW_STALE := JS.truthy (Options.stale options);
            MAX_AGE := maxAge;
            DISPOSE := Options.dispose options;
            NO_DISPOSE_ON_SET := JS.truthy (Options.noDisposeOnSet options);
            UPDATE_AGE_ON_GET := JS.truthy (Options.updateAgeOnGet options);
            LRU_LIST := [];
            CACHE := [] |}.

(** The world in which a cache [c] has just been constructed: no node yet,
    nothing disposed of, the clock not read. *)
Definition boot (c : Cache) (clock : nat → Z) : World :=
  {| self := c; nodes := []; disposed := []; clock := clock; ticks := 0 |}.

(** [new LRUCache(options)] *)
Definition new (options : ctor_arg) (clock : nat → Z) : result World :=
  match constructor options with
  | Ok c => Ok (boot c clock)
  | Throw e => Throw e
  end.

(** [set max(mL)] *)
Definition set_max (mL : jsval) : M unit :=
  match mL with
  | JNumber n =>
      if JS.negative n
      then throw (TypeError "max must be a non-negative number")
      else
        _ <- modify (with_MAX (JS.or_num n Infinity)) ;;
        trim
  | _ => throw (TypeError "max must be a non-negative number")
  end.

(** [get max()] *)
Definition max : M number := self <- this ;; ret (MAX self).

(** [set allowStale(allowStale)] *)
Definition set_allowStale (allowStale : jsval) : M unit :=
  modify (with_ALLOW_STALE (JS.truthy allowStale)).

(** [get allowStale()] *)
Definition allowStale : M bool := self <- this ;; ret (ALLOW_STALE self).

(** [set maxAge(mA)] *)
Definition set_maxAge (mA : jsval) : M unit :=
  match mA with
  | JNumber n =>
      _ <- modify (with_MAX_AGE n) ;;
      trim
  | _ => throw (TypeError "maxAge must be a non-negative number")
  end.

(** [get maxAge()] *)
Definition maxAge : M number := self <- this ;; ret (MAX_AGE self).

(** [set lengthCalculator(lC)]; [None] is an [lC] that is not a
    function. *)
Definition set_lengthCalculator (lC : option (LengthFn K V)) : M unit :=
  let lC := default naiveLength lC in
  self <- this ;;
  _ <- (if decide (fn_id lC ≠ fn_id (LENGTH_CALCULATOR self)) then
          _ <- modify (with_LENGTH_CALCULATOR lC) ;;
          _ <- modify (with_LENGTH 0) ;;
          _ <- mapM (λ node,
                 hit <- node_value node ;;
                 let len := lC (LEntry.value hit) (LEntry.key hit) in
                 _ <- node_assign node
                        (LEntry.mk (LEntry.key hit) (LEntry.value hit) len
                           (LEntry.now hit) (LEntry.maxAge hit)) ;;
                 modify (λ c, with_LENGTH (LENGTH c + len) c))
                 (LRU_LIST self) ;;
          ret tt
        else ret tt) ;;
  trim.

(** [get lengthCalculator()] *)
Definition lengthCalculator : M (LengthFn K V) :=
  self <- this ;; ret (LENGTH_CALCULATOR self).

(** [get length()] *)
Definition length : M Z := self <- this ;; ret (LENGTH self).

(** [get itemCount()] *)
Definition itemCount : M nat :=
  self <- this ;; ret (List.length (LRU_LIST self)).

(** [rforEach(fn, thisp)]; the result lists the pairs [fn] was called
    with.  [forEachStep] unlinks the walker only, so the chain of [prev]
    links the loop follows is the list as it was at the start, reversed. *)
Definition rforEach : M (list (V * K)) :=
  self <- this ;;
  r <- mapM forEachStep (rev (LRU_LIST self)) ;;
  ret (omap id r).

(** [forEach(fn, thisp)]; the result lists the pairs [fn] was called
    with, and the chain of [next] links the loop follows is the list as it
    was at the start. *)
Definition forEach : M (list (V * K)) :=
  self <- this ;;
  r <- mapM forEachStep (LRU_LIST self) ;;
  ret (omap id r).

(** [keys()] *)
Definition keys : M (list K) :=
  self <- this ;;
  mapM (λ node, k <- node_value node ;; ret (LEntry.key k)) (LRU_LIST self).

(** [values()] *)
Definition values : M (list V) :=
  self <- this ;;
  mapM (λ node, k <- node_value node ;; ret (LEntry.value k))
    (LRU_LIST self).

(** [reset()] *)
Definition reset : M unit :=
  self <- this ;;
  _ <- (if DISPOSE self && negb (Nat.eqb (List.length (LRU_LIST self)) 0)
        then
          _ <- mapM (λ node,
                 hit <- node_value node ;;
                 call_dispose (LEntry.key hit) (LEntry.value hit))
                 (LRU_LIST self) ;;
          ret tt
        else ret tt) ;;
  _ <- modify (with_CACHE []) ;;
  _ <- modify (with_LRU_LIST []) ;;
  modify (with_LENGTH 0).

(** [dump()]: [map] gives [false] ([None]) or a record for each node,
    [filter] keeps the records. *)
Definition dump : M (list Entry) :=
  self <- this ;;
  r <- mapM (λ node,
         hit <- node_value node ;;
         stale <- isStale hit ;;
         ret (if stale then None
              else Some (Entry.mk (LEntry.key hit) (LEntry.value hit)
                           (JS.add (LEntry.now hit)
                              (JS.or_num (LEntry.maxAge hit) (Fin 0))))))
         (LRU_LIST self) ;;
  ret (omap id r).

(** [dumpLru()] *)
Definition dumpLru : M Yallist.t := self <- this ;; ret (LRU_LIST self).

(** [has(key)] *)
Definition has (key : K) : M bool :=
  self <- this ;;
  if negb (Map.has key (CACHE self)) then ret false
  else
    match Map.get key (CACHE self) with
    | Some node =>
        hit <- node_value node ;;
        stale <- isStale hit ;;
        ret (negb stale)
    | None => throw (TypeError "Cannot read properties of undefined")
    end.

(** [peek(key)] *)
Definition peek (key : K) : M (option V) := get key false.

(** [prune()]: [Map.prototype.forEach] visits the keys in insertion order,
    and the callback deletes no key but the one it is called on. *)
Definition prune : M unit :=
  self <- this ;;
  _ <- mapM (λ key, get key false) (Map.keys (CACHE self)) ;;
  ret tt.

(** [get(key)] *)
Definition get (key : K) : M (option V) := get key true.

(** [pop()]; the result is the popped [LEntry], [None] is [null]. *)
Definition pop : M (option LEntry) :=
  self <- this ;;
  match Yallist.tail (LRU_LIST self) with
  | None => ret None
  | Some node =>
      hit <- node_value node ;;
      _ <- del (Some node) ;;
      ret (Some hit)
  end.

(** [set(key, value, maxAge)]; without a third argument [maxAge] is
    [JUndefined]. *)
Definition set (key : K) (value : V) (maxAge : jsval) : M bool :=
  self <- this ;;
  let maxAge := JS.or maxAge (JNumber (MAX_AGE self)) in
  if JS.truthy maxAge && negb (JS.is_number maxAge)
  then throw (TypeError "maxAge must be a number")
  else
    let maxAge := match maxAge with JNumber n => n | _ => Fin 0 end in
    now <- (if JS.truthy_num maxAge then Date_now else ret 0) ;;
    let len := LENGTH_CALCULATOR self value key in
    if Map.has key (CACHE self) then
      if JS.gt len (MAX self) then
        _ <- del (Map.get key (CACHE self)) ;;
        ret false
      else
        match Map.get key (CACHE self) with
        | None => throw (TypeError "Cannot read properties of undefined")
        | Some node =>
            item <- node_value node ;;
            _ <- (if DISPOSE self then
                    if negb (NO_DISPOSE_ON_SET self)
                    then call_dispose key (LEntry.value item)
                    else ret tt
                  else ret tt) ;;
            _ <- node_assign node
                   (LEntry.mk (LEntry.key item) value len now maxAge) ;;
            _ <- modify (λ c,
                   with_LENGTH (LENGTH c + (len - LEntry.length item)) c) ;;
            _ <- get key ;;
            _ <- trim ;;
            ret true
        end
    else
      let hit := LEntry.new key value len now maxAge in
      if JS.gt (LEntry.length hit) (MAX self) then
        _ <- (if DISPOSE self then call_dispose key value else ret tt) ;;
        ret false
      else
        _ <- modify (λ c, with_LENGTH (LENGTH c + LEntry.length hit) c) ;;
        head <- LRU_LIST_unshift hit ;;
        _ <- modify (λ c, with_CACHE (Map.set key head (CACHE c)) c) ;;
        _ <- trim ;;
        ret true.

(** [del(key)] *)
Definition del (key : K) : M unit :=
  self <- this ;;
  del (Map.get key (CACHE self)).

(** [load(arr)] *)
Definition load (arr : list Entry) : M unit :=
  _ <- reset ;;
  now <- Date_now ;;
  _ <- mapM (λ hit,
         let expiresAt := JS.or_num (Entry.e hit) (Fin 0) in
         if JS.is_zero expiresAt then
           _ <- set (Entry.k hit) (Entry.v hit) JUndefined ;;
           ret tt
         else
           let maxAge := JS.sub expiresAt now in
           if JS.positive maxAge then
             _ <- set (Entry.k hit) (Entry.v hit) (JNumber maxAge) ;;
             ret tt
           else ret tt)
         (rev arr) ;;
  ret tt.

End Methods.
End LRUCache.

(** * The vocabulary of the statements

    The invariant of the cache, the worlds the functions lead to, and the
    public operations as a type of calls. *)

Section Vocabulary.
Context {K V : Type} `{EqDecision K}.
Implicit Types (w : World K V) (c : Cache K V) (n : Node) (hit : LEntry.t K V).
Implicit Types (key : K) (value : V).
Implicit Types (l : list Node) (m : @Map.t K) (ns : list (LEntry.t K V)).

(** The weight a node carries, and the weight of a list of nodes. *)
Definition weight ns n : Z := from_option LEntry.length 0 (ns !! n).

Definition total ns l : Z := foldr (λ n acc, weight ns n + acc) 0 l.

(** The key of a node. *)
Definition key_of ns n : option K := LEntry.key <$> ns !! n.

(** The index holds exactly the pairs (key of a node, node) for the nodes of
    the list, no key and no node twice, and [len] is the weight of the
    list. *)
Record Consistent l m (len : Z) ns : Prop := {
  inv_live : NoDup l;
  inv_keys : NoDup (Map.keys m);
  inv_alloc : ∀ n, n ∈ l → is_Some (ns !! n);
  inv_index : ∀ k n, (k, n) ∈ m ↔ n ∈ l ∧ key_of ns n = Some k;
  inv_total : len = total ns l
}.

Definition Inv w : Prop :=
  Consistent (LRU_LIST (self w)) (CACHE (self w)) (LENGTH (self w)) (nodes w).

(** The keys of the list, from head to tail. *)
Definition list_keys w : list K :=
  omap (key_of (nodes w)) (LRU_LIST (self w)).

(** The cache after [del] has unlinked the node [n] that carries [hit]. *)
Definition unlinked n hit c : Cache K V :=
  with_LRU_LIST (filter (λ x, x ≠ n) (LRU_LIST c))
    (with_CACHE (Map.delete (LEntry.key hit) (CACHE c))
       (with_LENGTH (LENGTH c - LEntry.length hit) c)).

(** The log after the dispose callback, if there is one, got [(k, v)]. *)
Definition dispose_log c (k : K) (v : V) (log : list (K * V)) : list (K * V) :=
  if DISPOSE c then log ++ [(k, v)] else log.

(** The world after [del(self, node)]. *)
Definition del_world n hit w : World K V :=
  with_self (unlinked n hit (self w))
    (with_disposed
       (dispose_log (self w) (LEntry.key hit) (LEntry.value hit) (disposed w))
       w).

(** What of a cache no operation but a setter changes. *)
Definition config c :=
  (MAX c, LENGTH_CALCULATOR c, ALLOW_STALE c, MAX_AGE c, DISPOSE c,
   NO_DISPOSE_ON_SET c, UPDATE_AGE_ON_GET c).

(** The TTL in effect for an entry: its own, or else the one of the
    cache. *)
Definition ttl c hit : number := JS.or_num (LEntry.maxAge hit) (MAX_AGE c).

(** An entry is stale at time [now] when a TTL is in effect for it and its
    age exceeds it. *)
Definition stale_at (now : Z) c hit : bool :=
  JS.truthy_num (ttl c hit) && JS.gt (now - LEntry.now hit) (ttl c hit).

(** [Date.now()] was called when [b] holds. *)
Definition tick_if (b : bool) w : World K V :=
  if b then with_ticks (S (ticks w)) w else w.

(** The world after a promoting [get] of a fresh entry. *)
Definition promoted n hit w : World K V :=
  let w1 :=
    if UPDATE_AGE_ON_GET (self w)
    then with_nodes
           (<[n := LEntry.mk (LEntry.key hit) (LEntry.value hit)
                     (LEntry.length hit) (clock w (ticks w))
                     (LEntry.maxAge hit)]> (nodes w))
           (with_ticks (S (ticks w)) w)
    else w in
  with_self
    (with_LRU_LIST (Yallist.unshiftNode n (LRU_LIST (self w))) (self w)) w1.

(** The pairs (key, value) carried by a list of nodes. *)
Definition pairs_of (ns : list (LEntry.t K V)) (l : list Node) : list (K * V) :=
  omap (λ n, (λ hit, (LEntry.key hit, LEntry.value hit)) <$> ns !! n) l.

(** What the dispose callback, if there is one, receives for the nodes
    [l]. *)
Definition disposals c ns (l : list Node) : list (K * V) :=
  if DISPOSE c then pairs_of ns l else [].

(** A trim step changes the list, the index, the total and the log only. *)
Definition same_frame w w' : Prop :=
  config (self w') = config (self w) ∧ nodes w' = nodes w ∧
  clock w' = clock w ∧ ticks w' = ticks w.

(** The third argument of [set] raises no [TypeError]: it is falsy or a
    number. *)
Definition valid_maxAge (maxAge : jsval) : bool :=
  negb (JS.truthy maxAge) || JS.is_number maxAge.

(** The [maxAge] that [set] works with. *)
Definition set_maxAge_of c (maxAge : jsval) : number :=
  match JS.or maxAge (JNumber (MAX_AGE c)) with
  | JNumber n => n
  | _ => Fin 0
  end.

(** The [now] that [set] works with, read in world [w]. *)
Definition set_now_of w (maxAge : jsval) : Z :=
  if JS.truthy_num (set_maxAge_of (self w) maxAge)
  then clock w (ticks w) else 0.

(** The world once [set] has read the clock. *)
Definition set_start w (maxAge : jsval) : World K V :=
  tick_if (JS.truthy_num (set_maxAge_of (self w) maxAge)) w.

(** The world after [set] has linked a new entry in, before the trim. *)
Definition inserted hit w : World K V :=
  let node := length (nodes w) in
  with_self
    (with_CACHE (Map.set (LEntry.key hit) node (CACHE (self w)))
       (with_LRU_LIST (node :: LRU_LIST (self w))
          (with_LENGTH (LENGTH (self w) + LEntry.length hit) (self w))))
    (with_nodes (nodes w ++ [hit]) w).

(** The entry [set] creates or writes. *)
Definition set_entry w key value maxAge : LEntry.t K V :=
  LEntry.mk key value (LENGTH_CALCULATOR (self w) value key)
    (set_now_of w maxAge) (set_maxAge_of (self w) maxAge).

(** The world after [set] has overwritten the entry [item] of node [n],
    before the [get] and the trim. *)
Definition overwritten (key : K) n (item new : LEntry.t K V) w : World K V :=
  with_self
    (with_LENGTH
       (LENGTH (self w) + (LEntry.length new - LEntry.length item)) (self w))
    (with_nodes (<[n := new]> (nodes w))
       (with_disposed
          (if DISPOSE (self w) && negb (NO_DISPOSE_ON_SET (self w))
           then disposed w ++ [(key, LEntry.value item)]
           else disposed w)
          w)).

(** On a consistent cache [m] returns, and leaves a consistent cache. *)
Definition safe {A} (m : M (K := K) (V := V) A) : Prop :=
  ∀ w, Inv w → ∃ a w', m w = (Ok a, w') ∧ Inv w'.

(** On a consistent cache [m] returns or throws, and leaves a consistent
    cache. *)
Definition keeps {A} (m : M (K := K) (V := V) A) : Prop :=
  ∀ w, Inv w → Inv (m w).2.

(** A step [f node] that, on a node of the list, returns and unlinks no
    other node. *)
Definition walk_step {B} (f : Node → M (K := K) (V := V) B) : Prop :=
  ∀ w n, Inv w → n ∈ LRU_LIST (self w) →
    ∃ b w', f n w = (Ok b, w') ∧ Inv w' ∧
      ∀ x, x ≠ n → x ∈ LRU_LIST (self w) → x ∈ LRU_LIST (self w').

(** A call of a public method, getter or setter. *)
Inductive call : Type :=
  | CallSet (key : K) (value : V) (maxAge : jsval)
  | CallGet (key : K)
  | CallPeek (key : K)
  | CallHas (key : K)
  | CallDel (key : K)
  | CallPop
  | CallReset
  | CallPrune
  | CallForEach
  | CallRforEach
  | CallKeys
  | CallValues
  | CallDump
  | CallDumpLru
  | CallLoad (arr : list (Entry.t K V))
  | CallSetMax (mL : jsval)
  | CallSetMaxAge (mA : jsval)
  | CallSetAllowStale (allowStale : jsval)
  | CallSetLengthCalculator (lC : option (LengthFn K V))
  | CallGetMax
  | CallGetMaxAge
  | CallGetAllowStale
  | CallGetLengthCalculator
  | CallGetLength
  | CallGetItemCount.

(** The world after a call, whether it returned or threw. *)
Definition perform (op : call) (w : World K V) : World K V :=
  match op with
  | CallSet key value maxAge => (LRUCache.set key value maxAge w).2
  | CallGet key => (LRUCache.get key w).2
  | CallPeek key => (LRUCache.peek key w).2
  | CallHas key => (LRUCache.has key w).2
  | CallDel key => (LRUCache.del key w).2
  | CallPop => (LRUCache.pop w).2
  | CallReset => (LRUCache.reset w).2
  | CallPrune => (LRUCache.prune w).2
  | CallForEach => (LRUCache.forEach w).2
  | CallRforEach => (LRUCache.rforEach w).2
  | CallKeys => (LRUCache.keys w).2
  | CallValues => (LRUCache.values w).2
  | CallDump => (LRUCache.dump w).2
  | CallDumpLru => (LRUCache.dumpLru w).2
  | CallLoad arr => (LRUCache.load arr w).2
  | CallSetMax mL => (LRUCache.set_max mL w).2
  | CallSetMaxAge mA => (LRUCache.set_maxAge mA w).2
  | CallSetAllowStale v => (LRUCache.set_allowStale v w).2
  | CallSetLengthCalculator lC => (LRUCache.set_lengthCalculator lC w).2
  | CallGetMax => (LRUCache.max w).2
  | CallGetMaxAge => (LRUCache.maxAge w).2
  | CallGetAllowStale => (LRUCache.allowStale w).2
  | CallGetLengthCalculator => (LRUCache.lengthCalculator w).2
  | CallGetLength => (LRUCache.length w).2
  | CallGetItemCount => (LRUCache.itemCount w).2
  end.

(** The world after a sequence of calls, the first call first. *)
Definition perform_all (ops : list call) (w : World K V) : World K V :=
  foldl (λ w op, perform op w) w ops.


(** The key is not in the index. *)
Definition absent key w : Prop := Map.get key (CACHE (self w)) = None.


(** *** [dump] and [load] *)

(** The entries of the list, from head to tail. *)
Definition entries w : list (LEntry.t K V) :=
  omap (λ n, nodes w !! n) (LRU_LIST (self w)).

(** The record [dump] makes of an entry at time [now]; [None] for a stale
    entry. *)
Definition record_at (now : Z) c hit : option (Entry.t K V) :=
  if stale_at now c hit then None
  else Some (Entry.mk (LEntry.key hit) (LEntry.value hit)
               (JS.add (LEntry.now hit) (JS.or_num (LEntry.maxAge hit) (Fin 0)))).

(** [hit.e || 0] *)
Definition expiry_of (r : Entry.t K V) : number := JS.or_num (Entry.e r) (Fin 0).

(** [load] at time [now] keeps the record: it has no expiry, or time left. *)
Definition survives (now : Z) (r : Entry.t K V) : bool :=
  JS.is_zero (expiry_of r) || JS.positive (JS.sub (expiry_of r) now).

(** The [maxAge] of the entry [load] makes of a record at time [now]. *)
Definition reload_maxAge c (now : Z) (r : Entry.t K V) : number :=
  if JS.is_zero (expiry_of r) then MAX_AGE c else JS.sub (expiry_of r) now.

(** The entry [load] makes of a record at time [now]. *)
Definition reloaded c (now : Z) (r : Entry.t K V) : LEntry.t K V :=
  LEntry.mk (Entry.k r) (Entry.v r)
    (LENGTH_CALCULATOR c (Entry.v r) (Entry.k r))
    (if JS.truthy_num (reload_maxAge c now r) then now else 0)
    (reload_maxAge c now r).

(** The weight of a list of records. *)
Definition records_weight c (rs : list (Entry.t K V)) : Z :=
  foldr (λ r acc, LENGTH_CALCULATOR c (Entry.v r) (Entry.k r) + acc) 0 rs.

(** From its reading number [ticks w] on, the clock of [w] shows [t]. *)
Definition clock_stands w (t : Z) : Prop :=
  ∀ i, (ticks w ≤ i)%nat → clock w i = t.

(** The third argument [load] gives [set] for a record at time [now]. *)
Definition reload_arg (now : Z) (r : Entry.t K V) : jsval :=
  if JS.is_zero (expiry_of r) then JUndefined
  else JNumber (JS.sub (expiry_of r) now).

(** The entry weighs what the length calculator of the cache says, and that
    is not negative. *)
Definition weighed c hit : Prop :=
  LEntry.length hit = LENGTH_CALCULATOR c (LEntry.value hit) (LEntry.key hit)
  ∧ 0 ≤ LEntry.length hit.

(** The entry carries the stamp of an entry that never expires. *)
Definition unstamped hit : Prop :=
  LEntry.now hit = 0 ∧ LEntry.maxAge hit = Fin 0.

End Vocabulary.

(** ** More vocabulary: what the methods do to the entries *)

Section VocabularyMore.
Context {K V : Type} `{EqDecision K}.
Implicit Types (w : World K V) (c : Cache K V) (n : Node) (hit : LEntry.t K V).
Implicit Types (key : K) (value : V).

(** The entry of a fresh [hit] once [get] has used it: with [updateAgeOnGet]
    it carries the time [get] reads after the staleness test. *)
Definition touched w hit : LEntry.t K V :=
  if UPDATE_AGE_ON_GET (self w)
  then LEntry.mk (LEntry.key hit) (LEntry.value hit) (LEntry.length hit)
         (clock w (ticks (tick_if (JS.truthy_num (ttl (self w) hit)) w)))
         (LEntry.maxAge hit)
  else hit.

End VocabularyMore.

Section VocabularySweep.
Context {K V : Type} `{EqDecision K}.
Implicit Types (w : World K V) (c : Cache K V) (n : Node) (hit : LEntry.t K V).
Implicit Types (key : K) (value : V).

(** The node carries an entry that is stale at time [t]. *)
Definition stale_node (t : Z) c (ns : list (LEntry.t K V)) (x : Node) : bool :=
  match ns !! x with
  | Some hit => stale_at t c hit
  | None => false
  end.

(** What the dispose callback is called with for an entry. *)
Definition pair_of hit : K * V := (LEntry.key hit, LEntry.value hit).

(** What the visitor of [forEach] is called with for an entry. *)
Definition visit hit : V * K := (LEntry.value hit, LEntry.key hit).

(** The calls of the dispose callback, if there is one, for the entries of
    [es] that are stale at time [t]. *)
Definition stale_disposals (t : Z) c (es : list (LEntry.t K V)) : list (K * V) :=
  if DISPOSE c
  then pair_of <$> filter (λ h, stale_at t c h = true) es
  else [].

(** [forEach] at time [t] calls the visitor for the entry: the entry is not
    stale, or stale entries are allowed. *)
Definition shown (t : Z) c hit : bool :=
  ALLOW_STALE c || negb (stale_at t c hit).

(** What [forEachStep] returns for an entry at time [t]. *)
Definition step_result (t : Z) c hit : option (V * K) :=
  if stale_at t c hit
  then (if ALLOW_STALE c then Some (visit hit) else None)
  else Some (visit hit).

(** What [get] returns for an entry at time [t]. *)
Definition get_result (t : Z) c hit : option V :=
  if stale_at t c hit
  then (if ALLOW_STALE c then Some (LEntry.value hit) else None)
  else Some (LEntry.value hit).

(** The entries of the index, in the order in which their keys were
    inserted. *)
Definition indexed_entries w : list (LEntry.t K V) :=
  omap (λ p : K * Node, nodes w !! p.2) (CACHE (self w)).

End VocabularySweep.

Section VocabularySet.
Context {K V : Type} `{EqDecision K}.
Implicit Types (w : World K V) (c : Cache K V) (n : Node) (hit : LEntry.t K V).
Implicit Types (key : K) (value : V).

(** The readings of the clock that a [set] with a TTL makes on a key that is
    in the cache: [set] reads it for the stamp of the entry, then its [get]
    reads it to test the entry it has just written.  The TTL of the call, if
    there is one, has not run out between these two readings.  A [set] on a
    new key calls no [get]: nothing is asked of the clock. *)
Definition outlives_set w key (maxAge : jsval) : Prop :=
  Map.has key (CACHE (self w)) = true →
  JS.truthy_num (set_maxAge_of (self w) maxAge) = true →
  JS.gt (clock w (S (ticks w)) - clock w (ticks w))
    (set_maxAge_of (self w) maxAge) = false.

(** What [set] on a key disposes of before it overwrites: the key and its
    old value, when the key is in the cache, a dispose callback is
    configured and [noDisposeOnSet] is off. *)
Definition overwrite_disposal w key : list (K * V) :=
  match Map.get key (CACHE (self w)) with
  | Some n =>
      match nodes w !! n with
      | Some item =>
          if DISPOSE (self w) && negb (NO_DISPOSE_ON_SET (self w))
          then [(key, LEntry.value item)] else []
      | None => []
      end
  | None => []
  end.

(** The calls of the dispose callback, if there is one, for the entries
    [es] that [trim] evicts: the last one first. *)
Definition evict_disposals c (es : list (LEntry.t K V)) : list (K * V) :=
  if DISPOSE c then pair_of <$> rev es else [].

End VocabularySet.

Section VocabularySetters.
Context {K V : Type} `{EqDecision K}.
Implicit Types (w : World K V) (c : Cache K V) (n : Node) (hit : LEntry.t K V).


End VocabularySetters.

Section VocabularyRoundTrip.
Context {K V : Type} `{EqDecision K}.
Implicit Types (w : World K V) (c : Cache K V) (n : Node) (hit : LEntry.t K V).




End VocabularyRoundTrip.

Section VocabularyFrame.
Context {K V : Type} `{EqDecision K}.

(** [m] leaves what [π] shows of the cache object as it is, whether it
    returns or throws. *)
Definition preserves {T A} (π : Cache K V → T) (m : M (K := K) (V := V) A) : Prop :=
  ∀ w, π (self (m w).2) = π (self w).

(** The calls of the four setters. *)
Definition is_setter (op : call (K := K) (V := V)) : bool :=
  match op with
  | CallSetMax _ | CallSetMaxAge _ | CallSetAllowStale _
  | CallSetLengthCalculator _ => true
  | _ => false
  end.

End VocabularyFrame.

Section VocabularyClock.
Context {K V : Type}.


End VocabularyClock.

Section VocabularyWeight.
Context {K V : Type}.

(** The weight of a list of entries. *)
Definition entries_weight (es : list (LEntry.t K V)) : Z :=
  foldr (λ h acc, LEntry.length h + acc) 0 es.

End VocabularyWeight.

Section VocabularyCapacity.
Context {K V : Type} `{EqDecision K}.
Implicit Types (w : World K V).





End VocabularyCapacity.

Section VocabularyEvicted.
Context {K V : Type} `{EqDecision K}.
Implicit Types (w : World K V) (key : K) (value : V).

(** The calls [log] of the dispose callback on the way from [w0] to [w]: a
    cache without callback makes none. *)
Definition logged w0 w (log : list (K * V)) : Prop :=
  disposed w = disposed w0 ++ log ∧ DISPOSE (self w) = DISPOSE (self w0) ∧
  (DISPOSE (self w0) = false → log = []).

(** On the way from [w] to [w'] the entry of [key], which carried [value],
    was evicted: the key is in neither the index nor the list of the
    consistent cache [w'], whose total therefore no longer counts it, and
    the dispose callback, if there is one, was called with the key and the
    value. *)
Definition evicted key value w w' : Prop :=
  Inv w' ∧ absent key w' ∧ (∀ h, h ∈ entries w' → LEntry.key h ≠ key) ∧
  ∃ log, logged w w' log ∧ (DISPOSE (self w) = true → (key, value) ∈ log).

End VocabularyEvicted.

(** ** Caches to run the statements on

    In the caches [demo_...] keys are strings, values are integers, the
    weight of an entry is its value, the capacity is 5, a dispose callback is
    configured, and the clock starts at 1000 and is 150 milliseconds further
    at each reading. *)

Definition by_value : LengthFn string Z :=
{| fn_id := 1%nat; fn_apply := λ v _, v |}.

Definition demo_clock : nat → Z := λ i, 1000 + 150 * Z.of_nat i.

Definition demo_options : Options.t string Z :=
Options.mk (JNumber (Fin 5)) JUndefined (Some by_value) true
  JUndefined JUndefined JUndefined.

Definition demo_cache : Cache string Z :=
{| MAX := Fin 5; LENGTH := 0; LENGTH_CALCULATOR := by_value;
   ALLOW_STALE := false; MAX_AGE := Fin 0; DISPOSE := true;
   NO_DISPOSE_ON_SET := false; UPDATE_AGE_ON_GET := false;
   LRU_LIST := []; CACHE := [] |}.

Definition demo_world : World string Z := LRUCache.boot demo_cache demo_clock.

(** The cache of the examples after [set("a", 1)]. *)
Definition demo_a : World string Z :=
perform_all [CallSet "a" 1 JUndefined] demo_world.

(** The cache of the examples after [set("a", 1, 100)] at time 1000: the
    next reading of the clock is 1150, when the entry of "a" is stale. *)
Definition demo_stale : World string Z :=
perform_all [CallSet "a" 1 (JNumber (Fin 100))] demo_world.

(** A cache of capacity 2 in which every entry weighs 1, with a dispose
    callback. *)
Definition lru_world : World string Z :=
LRUCache.boot
  {| MAX := Fin 2; LENGTH := 0; LENGTH_CALCULATOR := naiveLength;
     ALLOW_STALE := false; MAX_AGE := Fin 0; DISPOSE := true;
     NO_DISPOSE_ON_SET := false; UPDATE_AGE_ON_GET := false;
     LRU_LIST := []; CACHE := [] |}
  demo_clock.

(** [set(a,1); set(b,2); get(a); set(c,3)] *)
Definition lru_run : World string Z :=
perform_all
  [CallSet "a" 1 JUndefined; CallSet "b" 2 JUndefined; CallGet "a";
   CallSet "c" 3 JUndefined]
  lru_world.


(** The cache of [lru_run] after [max = 0]. *)
Definition lru_unbounded : World string Z :=
perform_all
  [CallSet "a" 1 JUndefined; CallSet "b" 2 JUndefined; CallGet "a";
   CallSet "c" 3 JUndefined; CallSetMax (JNumber (Fin 0))]
  lru_world.

(** A cache without capacity bound and without TTL that refreshes the age of
    an entry on [get], at a clock that starts at [start]. *)
Definition refresh_world (start : Z) : World string Z :=
LRUCache.boot
  {| MAX := Infinity; LENGTH := 0; LENGTH_CALCULATOR := naiveLength;
     ALLOW_STALE := false; MAX_AGE := Fin 0; DISPOSE := false;
     NO_DISPOSE_ON_SET := false; UPDATE_AGE_ON_GET := true;
     LRU_LIST := []; CACHE := [] |}
  (λ i, start + Z.of_nat i).

(** [set("a", 1); get("a")] in that cache, from time 1000 on. *)
Definition refreshed : World string Z :=
perform_all [CallSet "a" 1 JUndefined; CallGet "a"] (refresh_world 1000).

(** [set("a", 1); set("b", 2, 500)] in that cache, from time 1000 on: an
    entry that never expires and one that expires at 1500, neither read. *)
Definition mixed : World string Z :=
perform_all [CallSet "a" 1 JUndefined; CallSet "b" 2 (JNumber (Fin 500))]
  (refresh_world 1000).

(** A cache of capacity 5 without TTL whose clock stands at [t]. *)
Definition still_world (t : Z) : World string Z :=
LRUCache.boot
  {| MAX := Fin 5; LENGTH := 0; LENGTH_CALCULATOR := naiveLength;
     ALLOW_STALE := false; MAX_AGE := Fin 0; DISPOSE := false;
     NO_DISPOSE_ON_SET := false; UPDATE_AGE_ON_GET := false;
     LRU_LIST := []; CACHE := [] |}
  (λ _, t).

(** At time 1000: an entry that never expires, one that expires at 1500
    and one that expires at 1100. *)
Definition still_mixed : World string Z :=
perform_all [CallSet "a" 1 JUndefined; CallSet "b" 2 (JNumber (Fin 500));
             CallSet "c" 3 (JNumber (Fin 100))]
  (still_world 1000).

(** Two entries that never expire, ["b"] read before ["a"]. *)
Definition still_plain : World string Z :=
perform_all [CallSet "b" 2 JUndefined; CallSet "a" 1 JUndefined;
             CallGet "b"; CallGet "a"]
  (still_world 1000).

(** A clock that shows 1000 at its first two readings and 1200 from then
    on. *)
Definition late_clock : nat → Z := λ i, if (i <? 2)%nat then 1000 else 1200.

(** The cache of the examples with that clock after [set("a", 1)],
    [set("b", 2, 500)] and [set("c", 2, 100)] at time 1000: at time 1200 the
    entry of "c" is stale, the one of "b" is not, the one of "a" never
    expires. *)
Definition aged : World string Z :=
perform_all
  [CallSet "a" 1 JUndefined; CallSet "b" 2 (JNumber (Fin 500));
   CallSet "c" 2 (JNumber (Fin 100))]
  (LRUCache.boot demo_cache late_clock).


(** Records to load: one that expires at 1500, one without expiry, one that
    expired at 1100. *)
Definition some_records : list (Entry.t string Z) :=
[Entry.mk "x" 2 (Fin 1500); Entry.mk "y" 1 (Fin 0); Entry.mk "z" 1 (Fin 1100)].



(** * Lemmas and theorems *)

(** ** Facts about the containers *)

Section MapFacts.
Context {K : Type} `{EqDecision K}.
Implicit Types (m : @Map.t K) (k : K) (n : Node).

Lemma Map_get_Some_elem m k n : Map.get k m = Some n → (k, n) ∈ m.
Proof.
  induction m as [|[k' n'] m IH]; simpl; [done|].
  destruct (decide (k' = k)) as [->|Hne].
  - intros [= ->]. left.
  - intros Hg. right. by apply IH.
Qed.

Lemma Map_get_None_keys m k : Map.get k m = None ↔ k ∉ Map.keys m.
Proof.
  unfold Map.keys.
  induction m as [|[k' n'] m IH]; simpl.
  - split; [intros _; apply not_elem_of_nil | done].
  - destruct (decide (k' = k)) as [->|Hne].
    + split; [done|]. intros Hn. exfalso. apply Hn. left.
    + rewrite IH, not_elem_of_cons. intuition congruence.
Qed.

Lemma Map_elem_get m k n :
  NoDup (Map.keys m) → (k, n) ∈ m → Map.get k m = Some n.
Proof.
  unfold Map.keys.
  induction m as [|[k' n'] m IH]; simpl.
  - intros _ Hin. by apply elem_of_nil in Hin.
  - intros Hnd Hin. apply NoDup_cons in Hnd as [Hk Hnd].
    apply elem_of_cons in Hin as [[= -> ->]|Hin].
    + by rewrite decide_True.
    + rewrite decide_False; [by apply IH|].
      intros ->. apply Hk. apply list_elem_of_fmap. by exists (k, n).
Qed.

Lemma Map_has_get m k : Map.has k m = true ↔ is_Some (Map.get k m).
Proof.
  unfold Map.has. destruct (Map.get k m); split; try done; try by eauto.
Qed.

Lemma Map_has_false m k : Map.has k m = false ↔ Map.get k m = None.
Proof. unfold Map.has. by destruct (Map.get k m). Qed.

Lemma Map_elem_delete m k k' n :
  (k', n) ∈ Map.delete k m ↔ (k', n) ∈ m ∧ k' ≠ k.
Proof. unfold Map.delete. rewrite list_elem_of_filter. simpl. tauto. Qed.

Lemma Map_keys_delete m k :
  Map.keys (Map.delete k m) = filter (λ k', k' ≠ k) (Map.keys m).
Proof.
  unfold Map.keys, Map.delete.
  induction m as [|[k' n'] m IH]; [done|].
  rewrite fmap_cons. simpl.
  destruct (decide (k' ≠ k)) as [Hk|Hk].
  - rewrite filter_cons_True by done.
    rewrite (filter_cons_True (λ p : K * Node, p.1 ≠ k)) by exact Hk.
    rewrite fmap_cons. f_equal. exact IH.
  - rewrite filter_cons_False by done.
    rewrite (filter_cons_False (λ p : K * Node, p.1 ≠ k)) by exact Hk.
    exact IH.
Qed.

Lemma Map_NoDup_delete m k :
  NoDup (Map.keys m) → NoDup (Map.keys (Map.delete k m)).
Proof. rewrite Map_keys_delete. apply NoDup_filter. Qed.

Lemma Map_get_delete m k : Map.get k (Map.delete k m) = None.
Proof.
  apply Map_get_None_keys. rewrite Map_keys_delete.
  rewrite list_elem_of_filter. tauto.
Qed.

Lemma Map_get_delete_ne m k k' :
  k' ≠ k → Map.get k' (Map.delete k m) = Map.get k' m.
Proof.
  intros Hne. unfold Map.delete.
  induction m as [|[k1 n1] m IH]; [done|].
  destruct (decide (k1 ≠ k)) as [H1|H1].
  - rewrite (filter_cons_True (λ p : K * Node, p.1 ≠ k)) by exact H1.
    cbn [Map.get]. destruct (decide (k1 = k')); [done | exact IH].
  - rewrite (filter_cons_False (λ p : K * Node, p.1 ≠ k)) by exact H1.
    apply dec_stable in H1. subst k1.
    cbn [Map.get]. rewrite decide_False by done. exact IH.
Qed.

Lemma Map_set_fresh m k n : Map.get k m = None → Map.set k n m = m ++ [(k, n)].
Proof.
  induction m as [|[k' n'] m IH]; simpl; [done|].
  destruct (decide (k' = k)); [done|].
  intros Hg. by rewrite IH.
Qed.

Lemma Map_get_set m k n : Map.get k (Map.set k n m) = Some n.
Proof.
  induction m as [|[k' n'] m IH]; simpl.
  - by rewrite decide_True.
  - destruct (decide (k' = k)) as [->|Hne]; simpl.
    + by rewrite decide_True.
    + by rewrite decide_False.
Qed.

Lemma Map_get_set_ne m k k' n :
  k' ≠ k → Map.get k' (Map.set k n m) = Map.get k' m.
Proof.
  intros Hne.
  induction m as [|[k1 n1] m IH]; simpl.
  - by rewrite decide_False.
  - destruct (decide (k1 = k)) as [->|Hk]; simpl.
    + by rewrite !decide_False.
    + destruct (decide (k1 = k')); [done|]. apply IH.
Qed.

End MapFacts.

(** ** The invariant that ties the index, the list and the total *)

Section Invariant.
Context {K V : Type} `{EqDecision K}.
Implicit Types (w : World K V) (c : Cache K V) (l : list Node).
Implicit Types (m : @Map.t K) (ns : list (LEntry.t K V)) (n : Node).

(** *** Weights *)

Lemma total_app ns l1 l2 : total ns (l1 ++ l2) = total ns l1 + total ns l2.
Proof. induction l1 as [|n l1 IH]; simpl; lia. Qed.

Lemma total_rev ns l : total ns (rev l) = total ns l.
Proof.
  induction l as [|n l IH]; simpl; [done|].
  rewrite total_app, IH. simpl. lia.
Qed.

Lemma filter_ne_notin l n : n ∉ l → filter (λ x, x ≠ n) l = l.
Proof.
  induction l as [|a l IH]; [done|].
  rewrite not_elem_of_cons. intros [Hne Hn].
  rewrite filter_cons_True by done. by rewrite IH.
Qed.

Lemma total_filter ns l n :
  NoDup l → n ∈ l →
  total ns (filter (λ x, x ≠ n) l) = total ns l - weight ns n.
Proof.
  induction l as [|a l IH]; intros Hnd Hin.
  - by apply elem_of_nil in Hin.
  - apply NoDup_cons in Hnd as [Ha Hnd].
    destruct (decide (a = n)) as [->|Hne].
    + rewrite filter_cons_False by (intros ?; done).
      rewrite filter_ne_notin by done. simpl. lia.
    + rewrite filter_cons_True by done. simpl.
      apply elem_of_cons in Hin as [->|Hin]; [done|].
      rewrite IH by done. lia.
Qed.

Lemma total_ext ns ns' l :
  (∀ n, n ∈ l → ns' !! n = ns !! n) → total ns' l = total ns l.
Proof.
  induction l as [|a l IH]; simpl; [done|]. intros Hs.
  rewrite IH by (intros n Hn; apply Hs; by right).
  unfold weight. by rewrite Hs by left.
Qed.

Lemma total_assign ns l n old new :
  NoDup l → n ∈ l → ns !! n = Some old →
  total (<[n := new]> ns) l
  = total ns l + (LEntry.length new - LEntry.length old).
Proof.
  intros Hnd Hin Hold.
  induction l as [|a l IH].
  - by apply elem_of_nil in Hin.
  - apply NoDup_cons in Hnd as [Ha Hnd]. simpl.
    destruct (decide (a = n)) as [->|Hne].
    + rewrite (total_ext ns (<[n:=new]> ns) l).
      * unfold weight. rewrite list_lookup_insert_eq, Hold; [simpl; lia|].
        by eapply lookup_lt_Some.
      * intros n' Hn'. apply list_lookup_insert_ne. by intros ->.
    + apply elem_of_cons in Hin as [->|Hin]; [done|].
      rewrite IH by done. unfold weight.
      rewrite list_lookup_insert_ne by done. lia.
Qed.

(** *** How the invariant moves with the primitive updates *)

Lemma key_of_Some ns n k :
  key_of ns n = Some k ↔ ∃ hit, ns !! n = Some hit ∧ LEntry.key hit = k.
Proof.
  unfold key_of. destruct (ns !! n) as [hit|]; simpl; split.
  - intros [= <-]. by exists hit.
  - by intros (? & [= <-] & <-).
  - done.
  - by intros (? & ? & _).
Qed.

Lemma Consistent_get l m len ns k n :
  Consistent l m len ns → Map.get k m = Some n →
  n ∈ l ∧ ∃ hit, ns !! n = Some hit ∧ LEntry.key hit = k.
Proof.
  intros HC Hg. apply Map_get_Some_elem in Hg.
  apply (inv_index _ _ _ _ HC) in Hg as [Hin Hk].
  split; [done|]. by apply key_of_Some.
Qed.

Lemma Consistent_indexed l m len ns n hit :
  Consistent l m len ns → n ∈ l → ns !! n = Some hit →
  Map.get (LEntry.key hit) m = Some n.
Proof.
  intros HC Hin Hn. apply Map_elem_get; [apply HC|].
  apply (inv_index _ _ _ _ HC). split; [done|].
  apply key_of_Some. by exists hit.
Qed.

Lemma Consistent_nil ns : Consistent [] [] 0 ns.
Proof.
  split.
  - apply NoDup_nil_2.
  - apply NoDup_nil_2.
  - intros n Hn. by apply elem_of_nil in Hn.
  - intros k n. split.
    + intros Hn. by apply elem_of_nil in Hn.
    + intros [Hn _]. by apply elem_of_nil in Hn.
  - done.
Qed.

Lemma Consistent_delete l m len ns n hit :
  Consistent l m len ns → n ∈ l → ns !! n = Some hit →
  Consistent (filter (λ x, x ≠ n) l) (Map.delete (LEntry.key hit) m)
    (len - LEntry.length hit) ns.
Proof.
  intros HC Hin Hn. split.
  - apply NoDup_filter, HC.
  - apply Map_NoDup_delete, HC.
  - intros n' Hn'. apply list_elem_of_filter in Hn' as [_ Hn'].
    by apply (inv_alloc _ _ _ _ HC).
  - intros k n'. rewrite Map_elem_delete, list_elem_of_filter.
    rewrite (inv_index _ _ _ _ HC). split.
    + intros [[Hl Hk] Hne]. repeat split; try done.
      intros ->. apply Hne. apply key_of_Some in Hk as (h & Hh & <-).
      congruence.
    + intros [[Hne Hl] Hk]. repeat split; try done.
      intros ->. apply Hne.
      pose proof (Consistent_indexed _ _ _ _ _ _ HC Hin Hn) as H1.
      apply key_of_Some in Hk as (h & Hh & Hkh).
      pose proof (Consistent_indexed _ _ _ _ _ _ HC Hl Hh) as H2.
      rewrite Hkh in H2. congruence.
  - rewrite total_filter by (done || apply HC).
    rewrite (inv_total _ _ _ _ HC). unfold weight. by rewrite Hn.
Qed.

Lemma Consistent_unshiftNode l m len ns n :
  Consistent l m len ns → n ∈ l →
  Consistent (Yallist.unshiftNode n l) m len ns.
Proof.
  intros HC Hin. unfold Yallist.unshiftNode.
  assert (Hmem : ∀ x, x ∈ n :: filter (λ y, y ≠ n) l ↔ x ∈ l).
  { intros x. rewrite elem_of_cons, list_elem_of_filter.
    destruct (decide (x = n)) as [->|]; intuition. }
  split.
  - apply NoDup_cons. split; [|apply NoDup_filter, HC].
    rewrite list_elem_of_filter. intros [Hc _]. by apply Hc.
  - apply HC.
  - intros x Hx. apply Hmem in Hx. by apply (inv_alloc _ _ _ _ HC).
  - intros k x. rewrite Hmem. apply HC.
  - simpl. rewrite total_filter by (done || apply HC).
    rewrite (inv_total _ _ _ _ HC). lia.
Qed.

Lemma Consistent_unshift l m len ns hit :
  Consistent l m len ns → Map.get (LEntry.key hit) m = None →
  Consistent (length ns :: l) (Map.set (LEntry.key hit) (length ns) m)
    (len + LEntry.length hit) (ns ++ [hit]).
Proof.
  intros HC Hg.
  assert (Hlt : ∀ x, x ∈ l → (x < length ns)%nat).
  { intros x Hx. apply (inv_alloc _ _ _ _ HC) in Hx as [h Hh].
    by eapply lookup_lt_Some. }
  assert (Hfresh : length ns ∉ l).
  { intros Hx. apply Hlt in Hx. lia. }
  rewrite Map_set_fresh by done.
  split.
  - apply NoDup_cons. split; [done | apply HC].
  - unfold Map.keys. rewrite fmap_app. simpl.
    apply NoDup_app. split; [apply HC|]. split; [|apply NoDup_singleton].
    intros k Hk Hk'. apply list_elem_of_singleton in Hk'. subst k.
    by apply Map_get_None_keys in Hg.
  - intros x Hx. apply elem_of_cons in Hx as [->|Hx].
    + rewrite lookup_app_r by lia. rewrite Nat.sub_diag. by eexists.
    + rewrite lookup_app_l by (by apply Hlt).
      by apply (inv_alloc _ _ _ _ HC).
  - intros k x. rewrite elem_of_app, list_elem_of_singleton, elem_of_cons.
    rewrite (inv_index _ _ _ _ HC). unfold key_of. split.
    + intros [[Hx Hk]|[= -> ->]].
      * split; [by right|]. by rewrite lookup_app_l by (by apply Hlt).
      * split; [by left|]. by rewrite lookup_app_r, Nat.sub_diag by lia.
    + intros [[->|Hx] Hk].
      * right. rewrite lookup_app_r, Nat.sub_diag in Hk by lia.
        simpl in Hk. congruence.
      * left. split; [done|]. by rewrite lookup_app_l in Hk by (by apply Hlt).
  - simpl. unfold weight at 1.
    rewrite lookup_app_r, Nat.sub_diag by lia. simpl.
    rewrite (total_ext ns).
    + rewrite (inv_total _ _ _ _ HC). lia.
    + intros x Hx. apply lookup_app_l. by apply Hlt.
Qed.

Lemma Consistent_assign l m len ns n old new :
  Consistent l m len ns → n ∈ l → ns !! n = Some old →
  LEntry.key new = LEntry.key old →
  Consistent l m (len + (LEntry.length new - LEntry.length old))
    (<[n := new]> ns).
Proof.
  intros HC Hin Hn Hkey.
  assert (Hlt : (n < length ns)%nat) by (by eapply lookup_lt_Some).
  assert (Hk : ∀ x, key_of (<[n:=new]> ns) x = key_of ns x).
  { intros x. unfold key_of. destruct (decide (x = n)) as [->|Hne].
    - rewrite list_lookup_insert_eq, Hn by done. simpl. by rewrite Hkey.
    - by rewrite list_lookup_insert_ne. }
  split.
  - apply HC.
  - apply HC.
  - intros x Hx. destruct (decide (x = n)) as [->|Hne].
    + rewrite list_lookup_insert_eq by done. by eexists.
    + rewrite list_lookup_insert_ne by done. by apply (inv_alloc _ _ _ _ HC).
  - intros k x. rewrite Hk. apply HC.
  - rewrite (total_assign ns l n old new) by (done || apply HC).
    by rewrite (inv_total _ _ _ _ HC).
Qed.

End Invariant.

(** ** Running the functions on a consistent cache *)

Section Exec.
Context {K V : Type} `{EqDecision K}.
Implicit Types (w : World K V) (c : Cache K V) (n : Node) (hit : LEntry.t K V).
Implicit Types (key : K) (value : V).

Lemma del_None w : del None w = (Ok tt, w).
Proof. done. Qed.

Lemma del_Some w n hit :
  nodes w !! n = Some hit → n ∈ LRU_LIST (self w) →
  del (Some n) w = (Ok tt, del_world n hit w).
Proof.
  intros Hn Hin.
  unfold del, bind, node_value, this, modify, call_dispose, ret,
    LRU_LIST_removeNode, Yallist.removeNode, del_world, dispose_log.
  rewrite Hn.
  destruct w as [c ns log clk t]. simpl in *.
  destruct (DISPOSE c) eqn:HD; simpl; rewrite decide_True by done;
    destruct c; simpl in *; by rewrite ?HD.
Qed.

Lemma del_world_Inv w n hit :
  Inv w → nodes w !! n = Some hit → n ∈ LRU_LIST (self w) →
  Inv (del_world n hit w).
Proof. intros HI Hn Hin. by apply Consistent_delete. Qed.

Lemma del_world_config n hit w : config (self (del_world n hit w)) = config (self w).
Proof. done. Qed.

(** *** Staleness *)

Lemma isStale_eq w hit :
  isStale hit w
  = (Ok (stale_at (clock w (ticks w)) (self w) hit),
     tick_if (JS.truthy_num (ttl (self w) hit)) w).
Proof.
  unfold isStale, bind, this, ret, Date_now, stale_at, ttl, JS.or_num, tick_if.
  destruct (JS.truthy_num (LEntry.maxAge hit)) eqn:H1; simpl.
  - by rewrite H1.
  - destruct (JS.truthy_num (MAX_AGE (self w))) eqn:H2; simpl; by rewrite ?H2.
Qed.

Lemma tick_if_self b w : self (tick_if b w) = self w.
Proof. by destruct b. Qed.

Lemma tick_if_nodes b w : nodes (tick_if b w) = nodes w.
Proof. by destruct b. Qed.

Lemma tick_if_disposed b w : disposed (tick_if b w) = disposed w.
Proof. by destruct b. Qed.

Lemma tick_if_clock b w : clock (tick_if b w) = clock w.
Proof. by destruct b. Qed.

Lemma tick_if_Inv b w : Inv w → Inv (tick_if b w).
Proof. by destruct b. Qed.

(** *** [get] *)

Lemma get_absent w key doUse :
  Map.get key (CACHE (self w)) = None → get key doUse w = (Ok None, w).
Proof. intros Hg. unfold get, bind, this. by rewrite Hg. Qed.

Lemma get_present w key doUse n hit :
  Map.get key (CACHE (self w)) = Some n →
  nodes w !! n = Some hit → n ∈ LRU_LIST (self w) →
  let w1 := tick_if (JS.truthy_num (ttl (self w) hit)) w in
  get key doUse w
  = if stale_at (clock w (ticks w)) (self w) hit then
      (Ok (if ALLOW_STALE (self w) then Some (LEntry.value hit) else None),
       del_world n hit w1)
    else
      (Ok (Some (LEntry.value hit)), if doUse then promoted n hit w1 else w1).
Proof.
  intros Hg Hn Hin w1.
  unfold get, bind at 1, this. rewrite Hg.
  unfold bind at 1, node_value. rewrite Hn.
  unfold bind at 1. rewrite isStale_eq. fold w1.
  destruct (stale_at _ _ _).
  - unfold bind. rewrite (del_Some w1 n hit).
    + by destruct (ALLOW_STALE (self w)).
    + unfold w1. by rewrite tick_if_nodes.
    + unfold w1. by rewrite tick_if_self.
  - destruct doUse; [|done].
    unfold promoted, bind, ret, Date_now, node_assign, LRU_LIST_unshiftNode,
      modify.
    replace (UPDATE_AGE_ON_GET (self w1)) with (UPDATE_AGE_ON_GET (self w))
      by (unfold w1; by rewrite tick_if_self).
    by destruct (UPDATE_AGE_ON_GET (self w)).
Qed.

Lemma promoted_Inv w n hit :
  Inv w → nodes w !! n = Some hit → n ∈ LRU_LIST (self w) →
  Inv (promoted n hit w).
Proof.
  intros HI Hn Hin. unfold Inv, promoted.
  destruct (UPDATE_AGE_ON_GET (self w)); simpl.
  - apply Consistent_unshiftNode; [|done].
    replace (LENGTH (self w)) with
      (LENGTH (self w) + (LEntry.length
         (LEntry.mk (LEntry.key hit) (LEntry.value hit)
            (LEntry.length hit) (clock w (ticks w)) (LEntry.maxAge hit))
         - LEntry.length hit)) by (simpl; lia).
    by apply Consistent_assign.
  - by apply Consistent_unshiftNode.
Qed.

Lemma get_Inv w key doUse : Inv w → Inv (get key doUse w).2.
Proof.
  intros HI.
  destruct (Map.get key (CACHE (self w))) as [n|] eqn:Hg.
  - destruct (Consistent_get _ _ _ _ _ _ HI Hg) as (Hin & hit & Hn & Hk).
    rewrite (get_present w key doUse n hit) by done.
    set (w1 := tick_if _ w).
    assert (HI1 : Inv w1) by (by apply tick_if_Inv).
    assert (Hn1 : nodes w1 !! n = Some hit)
      by (unfold w1; by rewrite tick_if_nodes).
    assert (Hin1 : n ∈ LRU_LIST (self w1))
      by (unfold w1; by rewrite tick_if_self).
    destruct (stale_at _ _ _); simpl.
    + by apply del_world_Inv.
    + destruct doUse; [by apply promoted_Inv | done].
  - by rewrite get_absent.
Qed.

End Exec.

(** ** [trim] evicts from the tail *)

Section Trim.
Context {K V : Type} `{EqDecision K}.
Implicit Types (w : World K V) (c : Cache K V) (n : Node) (hit : LEntry.t K V).
Implicit Types (key : K) (value : V).

Lemma filter_ne_last (l : list Node) n :
  NoDup (l ++ [n]) → filter (λ x, x ≠ n) (l ++ [n]) = l.
Proof.
  intros Hnd. apply NoDup_app in Hnd as (_ & Hdis & _).
  rewrite filter_app, filter_cons_False, filter_nil, app_nil_r
    by (intros ?; done).
  apply filter_ne_notin. intros Hin. apply (Hdis n Hin). left.
Qed.

Lemma trim_loop_spec walkers : ∀ w,
  Inv w → LRU_LIST (self w) = rev walkers →
  ∃ gone kept w',
    walkers = gone ++ kept ∧
    trim_loop walkers w = (Ok tt, w') ∧
    Inv w' ∧ same_frame w w' ∧
    LRU_LIST (self w') = rev kept ∧
    disposed w' = disposed w ++ disposals (self w) (nodes w) gone ∧
    LENGTH (self w') = LENGTH (self w) - total (nodes w) gone ∧
    (JS.gt (LENGTH (self w')) (MAX (self w)) = false ∨ kept = []) ∧
    (∀ g1 x g2, gone = g1 ++ x :: g2 →
       JS.gt (LENGTH (self w) - total (nodes w) g1) (MAX (self w)) = true).
Proof.
  induction walkers as [|n prev IH]; intros w HI Hl.
  - exists [], [], w. simpl. unfold disposals, pairs_of. simpl.
    split_and!; try done.
    + by destruct (DISPOSE (self w)); rewrite app_nil_r.
    + lia.
    + by right.
    + intros g1 x g2 Hg. by destruct g1.
  - simpl in Hl.
    assert (Heq : trim_loop (n :: prev) w
                  = if JS.gt (LENGTH (self w)) (MAX (self w))
                    then bind (del (Some n)) (λ _, trim_loop prev) w
                    else (Ok tt, w)).
    { cbn [trim_loop]. unfold bind at 1, this.
      by destruct (JS.gt (LENGTH (self w)) (MAX (self w))). }
    rewrite Heq. clear Heq.
    destruct (JS.gt (LENGTH (self w)) (MAX (self w))) eqn:Hgt.
    + assert (Hin : n ∈ LRU_LIST (self w)).
      { rewrite Hl. apply elem_of_app. right. left. }
      destruct (inv_alloc _ _ _ _ HI n Hin) as [hit Hn].
      unfold bind. rewrite (del_Some w n hit) by done.
      destruct (IH (del_world n hit w)) as
        (gone & kept & w' & Hw & Hrun & HI' & Hfr & Hl' & Hd & Hlen & Hfin & Hmin).
      { by apply del_world_Inv. }
      { simpl. rewrite Hl. apply filter_ne_last. rewrite <- Hl. apply HI. }
      exists (n :: gone), kept, w'.
      destruct Hfr as (Hc & Hns & Hclk & Ht).
      simpl in Hns, Hclk, Ht, Hd, Hlen, Hfin, Hmin.
      split_and!; try done.
      * by rewrite Hw.
      * rewrite Hd. unfold disposals, dispose_log, pairs_of. simpl.
        rewrite Hn. simpl.
        destruct (DISPOSE (self w)); [by rewrite <- app_assoc | done].
      * rewrite Hlen. simpl. unfold weight at 1. rewrite Hn. simpl. lia.
      * intros g1 x g2 Hg. destruct g1 as [|y g1]; simpl in Hg.
        -- simpl. by rewrite Z.sub_0_r.
        -- injection Hg as -> Hg. specialize (Hmin _ _ _ Hg).
           simpl. unfold weight at 1. rewrite Hn. simpl.
           by replace (LENGTH (self w) - (LEntry.length hit + total (nodes w) g1))
             with (LENGTH (self w) - LEntry.length hit - total (nodes w) g1)
             by lia.
    + exists [], (n :: prev), w. unfold disposals, pairs_of. simpl.
      split_and!; try done.
      * by destruct (DISPOSE (self w)); rewrite app_nil_r.
      * lia.
      * by left.
      * intros g1 x g2 Hg. by destruct g1.
Qed.

Lemma trim_noop w :
  JS.gt (LENGTH (self w)) (MAX (self w)) = false → trim w = (Ok tt, w).
Proof. intros Hgt. unfold trim, bind, this. by rewrite Hgt. Qed.

Lemma same_frame_refl w : same_frame w w.
Proof. done. Qed.

Lemma same_frame_trans w1 w2 w3 :
  same_frame w1 w2 → same_frame w2 w3 → same_frame w1 w3.
Proof.
  intros (? & ? & ? & ?) (? & ? & ? & ?). unfold same_frame.
  split_and!; congruence.
Qed.

(** [trim] keeps a prefix [kept] of the list and evicts the rest, from the
    tail on, as long as the total exceeds the capacity. *)
Lemma trim_spec w :
  Inv w →
  ∃ kept evicted w',
    LRU_LIST (self w) = kept ++ evicted ∧
    trim w = (Ok tt, w') ∧
    Inv w' ∧ same_frame w w' ∧
    LRU_LIST (self w') = kept ∧
    disposed w' = disposed w ++ disposals (self w) (nodes w) (rev evicted) ∧
    LENGTH (self w') = LENGTH (self w) - total (nodes w) evicted ∧
    (JS.gt (LENGTH (self w')) (MAX (self w)) = false ∨ kept = []) ∧
    (∀ e1 x e2, evicted = e1 ++ x :: e2 →
       JS.gt (LENGTH (self w) - total (nodes w) e2) (MAX (self w)) = true).
Proof.
  intros HI.
  destruct (JS.gt (LENGTH (self w)) (MAX (self w))) eqn:Hgt.
  - destruct (trim_loop_spec (rev (LRU_LIST (self w))) w HI)
      as (gone & kept & w' & Hw & Hrun & HI' & Hfr & Hl' & Hd & Hlen & Hfin & Hmin).
    { by rewrite rev_involutive. }
    exists (rev kept), (rev gone), w'.
    split_and!; try done.
    + rewrite <- rev_app_distr, <- Hw. by rewrite rev_involutive.
    + unfold trim, bind, this. by rewrite Hgt.
    + by rewrite rev_involutive.
    + by rewrite total_rev.
    + destruct Hfin as [?|Hk]; [by left | right; by rewrite Hk].
    + intros e1 x e2 He.
      assert (Hg : gone = rev e2 ++ x :: rev e1).
      { rewrite <- (rev_involutive gone), He, rev_app_distr. simpl.
        by rewrite <- app_assoc. }
      rewrite <- (total_rev _ e2). by eapply Hmin.
  - exists (LRU_LIST (self w)), [], w.
    split_and!; try done.
    + by rewrite app_nil_r.
    + by apply trim_noop.
    + unfold disposals, pairs_of. simpl.
      by destruct (DISPOSE (self w)); rewrite app_nil_r.
    + simpl. lia.
    + by left.
    + intros e1 x e2 He. by destruct e1.
Qed.

Lemma trim_Inv w : Inv w → Inv (trim w).2.
Proof.
  intros HI. destruct (trim_spec w HI) as (? & ? & w' & _ & -> & ? & _). done.
Qed.

End Trim.

(** ** [set] *)

Section SetExec.
Context {K V : Type} `{EqDecision K}.
Implicit Types (w : World K V) (c : Cache K V) (n : Node) (hit : LEntry.t K V).
Implicit Types (key : K) (value : V).

Lemma bind_Ok {A B} (m : M (K := K) (V := V) A) (f : A → M B) w a w' :
  m w = (Ok a, w') → bind m f w = f a w'.
Proof. intros Hm. unfold bind. by rewrite Hm. Qed.

Lemma bind_Throw {A B} (m : M (K := K) (V := V) A) (f : A → M B) w e w' :
  m w = (Throw e, w') → bind m f w = (Throw e, w').
Proof. intros Hm. unfold bind. by rewrite Hm. Qed.

Lemma set_invalid w key value maxAge :
  valid_maxAge maxAge = false →
  LRUCache.set key value maxAge w
  = (Throw (TypeError "maxAge must be a number"), w).
Proof.
  unfold valid_maxAge, LRUCache.set, bind, this, JS.or. intros Hv.
  destruct (JS.truthy maxAge) eqn:Ht; [|done].
  simpl in Hv. cbn iota. by rewrite Ht, Hv.
Qed.

Lemma set_check c maxAge :
  valid_maxAge maxAge = true →
  JS.truthy (JS.or maxAge (JNumber (MAX_AGE c)))
  && negb (JS.is_number (JS.or maxAge (JNumber (MAX_AGE c)))) = false.
Proof.
  unfold valid_maxAge, JS.or. intros Hv.
  destruct (JS.truthy maxAge) eqn:Ht; simpl in *.
  - by rewrite Ht, Hv.
  - by rewrite andb_false_r.
Qed.

Lemma set_now_eq w maxAge :
  (if JS.truthy_num (set_maxAge_of (self w) maxAge) then Date_now else ret 0) w
  = (Ok (set_now_of w maxAge), set_start w maxAge).
Proof.
  unfold set_now_of, set_start, tick_if.
  by destruct (JS.truthy_num (set_maxAge_of (self w) maxAge)).
Qed.

Lemma set_start_self w maxAge : self (set_start w maxAge) = self w.
Proof. apply tick_if_self. Qed.

Lemma set_start_nodes w maxAge : nodes (set_start w maxAge) = nodes w.
Proof. apply tick_if_nodes. Qed.

Lemma set_start_disposed w maxAge : disposed (set_start w maxAge) = disposed w.
Proof. apply tick_if_disposed. Qed.

Lemma set_start_Inv w maxAge : Inv w → Inv (set_start w maxAge).
Proof. apply tick_if_Inv. Qed.

(** The opening of [set] for an argument that raises no [TypeError]. *)
Ltac set_prelude w maxAge Hv :=
  unfold LRUCache.set; unfold bind at 1, this;
  rewrite (set_check (self w) maxAge Hv);
  fold (set_maxAge_of (self w) maxAge);
  rewrite (bind_Ok _ _ _ _ _ (set_now_eq w maxAge)).

(** [set] on a key of the index with a value larger than the capacity. *)
Lemma set_present_oversized w key value maxAge n hit :
  valid_maxAge maxAge = true →
  Map.get key (CACHE (self w)) = Some n →
  nodes w !! n = Some hit → n ∈ LRU_LIST (self w) →
  JS.gt (LENGTH_CALCULATOR (self w) value key) (MAX (self w)) = true →
  LRUCache.set key value maxAge w
  = (Ok false, del_world n hit (set_start w maxAge)).
Proof.
  intros Hv Hg Hn Hin Hgt.
  set_prelude w maxAge Hv.
  unfold Map.has. rewrite Hg, Hgt.
  erewrite bind_Ok; [reflexivity|].
  apply del_Some; unfold set_start.
  - by rewrite tick_if_nodes.
  - by rewrite tick_if_self.
Qed.

(** [set] on a key that is not in the index with a value larger than the
    capacity. *)
Lemma set_absent_oversized w key value maxAge :
  valid_maxAge maxAge = true →
  Map.get key (CACHE (self w)) = None →
  JS.gt (LENGTH_CALCULATOR (self w) value key) (MAX (self w)) = true →
  LRUCache.set key value maxAge w
  = (Ok false,
     with_disposed (dispose_log (self w) key value (disposed w))
       (set_start w maxAge)).
Proof.
  intros Hv Hg Hgt.
  set_prelude w maxAge Hv.
  unfold Map.has. rewrite Hg. unfold LEntry.new. cbn [LEntry.length].
  rewrite Hgt.
  unfold bind, ret, call_dispose, dispose_log, set_start.
  destruct (DISPOSE (self w)); simpl.
  - by rewrite tick_if_disposed.
  - by destruct (JS.truthy_num _), w.
Qed.

Lemma LEntry_new_eq (key : K) (value : V) len now ma :
  LEntry.new key value len now ma = LEntry.mk key value len now ma.
Proof.
  unfold LEntry.new, JS.or_num, JS.truthy_num.
  destruct ma as [z|]; [|done].
  destruct (z =? 0) eqn:Hz; [|done]. apply Z.eqb_eq in Hz. by subst z.
Qed.

(** [set] of a new key that fits. *)
Lemma set_absent_fits w key value maxAge :
  valid_maxAge maxAge = true →
  Map.get key (CACHE (self w)) = None →
  JS.gt (LENGTH_CALCULATOR (self w) value key) (MAX (self w)) = false →
  LRUCache.set key value maxAge w
  = bind trim (λ _, ret true)
      (inserted (set_entry w key value maxAge) (set_start w maxAge)).
Proof.
  intros Hv Hg Hgt.
  set_prelude w maxAge Hv.
  unfold Map.has. rewrite Hg. rewrite LEntry_new_eq. cbn [LEntry.length].
  rewrite Hgt.
  unfold bind at 1, modify. unfold bind at 1, LRU_LIST_unshift.
  unfold bind at 1. unfold inserted, set_entry. simpl.
  by rewrite set_start_self, set_start_nodes.
Qed.

Lemma inserted_Inv w hit :
  Inv w → Map.get (LEntry.key hit) (CACHE (self w)) = None →
  Inv (inserted hit w).
Proof. intros HI Hg. by apply Consistent_unshift. Qed.

(** [set] of a key of the index with a value that fits. *)
Lemma set_present_fits w key value maxAge n item :
  valid_maxAge maxAge = true →
  Map.get key (CACHE (self w)) = Some n →
  nodes w !! n = Some item →
  JS.gt (LENGTH_CALCULATOR (self w) value key) (MAX (self w)) = false →
  LRUCache.set key value maxAge w
  = bind (LRUCache.get key) (λ _, bind trim (λ _, ret true))
      (overwritten key n item
         (LEntry.mk (LEntry.key item) value
            (LENGTH_CALCULATOR (self w) value key)
            (set_now_of w maxAge) (set_maxAge_of (self w) maxAge))
         (set_start w maxAge)).
Proof.
  intros Hv Hg Hn Hgt.
  set_prelude w maxAge Hv.
  unfold Map.has. rewrite Hg, Hgt.
  unfold bind at 1, node_value. rewrite set_start_nodes, Hn.
  unfold bind at 1.
  destruct (DISPOSE (self w)) eqn:HD, (NO_DISPOSE_ON_SET (self w)) eqn:HN;
    simpl; unfold bind at 1; simpl; unfold bind at 1; simpl;
    unfold overwritten; simpl;
    rewrite ?set_start_self, ?set_start_nodes, ?set_start_disposed,
      ?HD, ?HN; simpl; try done.
  all: unfold set_start, tick_if;
    by destruct (JS.truthy_num (set_maxAge_of (self w) maxAge)), w.
Qed.

End SetExec.

(** ** Every method keeps the invariant *)

Section Safe.
Context {K V : Type} `{EqDecision K}.
Implicit Types (w : World K V) (c : Cache K V) (n : Node) (hit : LEntry.t K V).
Implicit Types (key : K) (value : V).
#[local] Abbreviation safe := (safe (K := K) (V := V)).
#[local] Abbreviation keeps := (keeps (K := K) (V := V)).
#[local] Abbreviation walk_step := (walk_step (K := K) (V := V)).

Lemma safe_keeps {A} (m : M (K := K) (V := V) A) : safe m → keeps m.
Proof. intros Hs w HI. destruct (Hs w HI) as (a & w' & -> & HI'). done. Qed.

Lemma safe_ret {A} (a : A) : safe (ret (K := K) (V := V) a).
Proof. intros w HI. by exists a, w. Qed.

Lemma safe_bind {A B} (m : M (K := K) (V := V) A) (f : A → M B) :
  safe m → (∀ a, safe (f a)) → safe (bind m f).
Proof.
  intros Hm Hf w HI. destruct (Hm w HI) as (a & w1 & Hr & HI1).
  destruct (Hf a w1 HI1) as (b & w2 & Hr2 & HI2).
  exists b, w2. split; [|done]. by rewrite (bind_Ok _ _ _ _ _ Hr).
Qed.

Lemma keeps_bind {A B} (m : M (K := K) (V := V) A) (f : A → M B) :
  keeps m → (∀ a, keeps (f a)) → keeps (bind m f).
Proof.
  intros Hm Hf w HI. specialize (Hm w HI). unfold bind.
  destruct (m w) as [[a|e] w1]; simpl in *; [by apply Hf | done].
Qed.

Lemma keeps_throw {A} e : keeps (throw (K := K) (V := V) (A := A) e).
Proof. by intros w HI. Qed.

Lemma safe_this : safe (this (K := K) (V := V)).
Proof. intros w HI. by exists (self w), w. Qed.

Lemma safe_Date_now : safe (Date_now (K := K) (V := V)).
Proof. intros w HI. by eexists _, _. Qed.

Lemma safe_call_dispose (k : K) (v : V) : safe (call_dispose k v).
Proof. intros w HI. by eexists _, _. Qed.

(** A loop that keeps a loop invariant [P] (of what is left to visit and
    the world) returns, with [P] at the end. *)
Lemma mapM_loop {A B} (f : A → M B) (P : list A → World K V → Prop) :
  (∀ a l w, P (a :: l) w → ∃ b w', f a w = (Ok b, w') ∧ P l w') →
  ∀ l w, P l w → ∃ bs w', mapM f l w = (Ok bs, w') ∧ P [] w'.
Proof.
  intros Hstep l. induction l as [|a l IH]; intros w HP.
  - by exists [], w.
  - destruct (Hstep a l w HP) as (b & w1 & Hr & HP1).
    destruct (IH w1 HP1) as (bs & w2 & Hr2 & HP2).
    exists (b :: bs), w2. split; [|done].
    cbn [mapM]. rewrite (bind_Ok _ _ _ _ _ Hr), (bind_Ok _ _ _ _ _ Hr2). done.
Qed.

Lemma safe_mapM {A B} (f : A → M (K := K) (V := V) B) l :
  (∀ a, safe (f a)) → safe (mapM f l).
Proof.
  intros Hf w HI.
  destruct (mapM_loop f (λ _ w, Inv w)) with (l := l) (w := w)
    as (bs & w' & Hr & HI'); [|done|by exists bs, w'].
  intros a l' w1 HI1. apply (Hf a w1 HI1).
Qed.

(** *** The functions outside the class *)

Lemma safe_get key doUse : safe (get key doUse).
Proof.
  intros w HI. pose proof (get_Inv w key doUse HI) as HI'.
  destruct (Map.get key (CACHE (self w))) as [n|] eqn:Hg.
  - destruct (Consistent_get _ _ _ _ _ _ HI Hg) as (Hin & hit & Hn & Hk).
    rewrite (get_present w key doUse n hit) in * by done.
    destruct (stale_at _ _ _); by eexists _, _.
  - rewrite get_absent in * by done. by eexists _, _.
Qed.

Lemma safe_trim : safe (trim (K := K) (V := V)).
Proof.
  intros w HI. destruct (trim_spec w HI) as (? & ? & w' & _ & Hr & ? & _).
  by exists tt, w'.
Qed.

Lemma safe_del_node w n :
  Inv w → n ∈ LRU_LIST (self w) →
  ∃ hit, nodes w !! n = Some hit
         ∧ del (Some n) w = (Ok tt, del_world n hit w)
         ∧ Inv (del_world n hit w).
Proof.
  intros HI Hin. destruct (inv_alloc _ _ _ _ HI n Hin) as [hit Hn].
  exists hit. split; [done|]. split; [by apply del_Some|].
  by apply del_world_Inv.
Qed.

Lemma safe_del_lookup key :
  safe (self <- this ;; del (Map.get key (CACHE self))).
Proof.
  intros w HI. unfold bind, this.
  destruct (Map.get key (CACHE (self w))) as [n|] eqn:Hg.
  - destruct (Consistent_get _ _ _ _ _ _ HI Hg) as (Hin & _).
    destruct (safe_del_node w n HI Hin) as (hit & Hn & -> & HI').
    by eexists _, _.
  - by exists tt, w.
Qed.

(** *** [set] *)

Lemma overwritten_Inv w key n item new :
  Inv w → n ∈ LRU_LIST (self w) → nodes w !! n = Some item →
  LEntry.key new = LEntry.key item →
  Inv (overwritten key n item new w).
Proof. intros HI Hin Hn Hk. by apply Consistent_assign. Qed.

Lemma safe_set key value maxAge :
  valid_maxAge maxAge = true → safe (LRUCache.set key value maxAge).
Proof.
  intros Hv w HI.
  pose proof (set_start_Inv w maxAge HI) as HI1.
  destruct (JS.gt (LENGTH_CALCULATOR (self w) value key) (MAX (self w))) eqn:Hgt;
    destruct (Map.get key (CACHE (self w))) as [n|] eqn:Hg.
  - destruct (Consistent_get _ _ _ _ _ _ HI Hg) as (Hin & hit & Hn & Hk).
    rewrite (set_present_oversized w key value maxAge n hit) by done.
    eexists _, _. split; [done|].
    apply del_world_Inv; [done| |].
    + by rewrite set_start_nodes.
    + by rewrite set_start_self.
  - rewrite set_absent_oversized by done. eexists _, _. split; [done|].
    unfold Inv in *. simpl. done.
  - destruct (Consistent_get _ _ _ _ _ _ HI Hg) as (Hin & item & Hn & Hk).
    rewrite (set_present_fits w key value maxAge n item) by done.
    apply safe_bind; [apply safe_get | intros _ | ].
    + apply safe_bind; [apply safe_trim | intros _; apply safe_ret].
    + apply overwritten_Inv; try done.
      * by rewrite set_start_self.
      * by rewrite set_start_nodes.
  - rewrite set_absent_fits by done.
    apply safe_bind; [apply safe_trim | intros _; apply safe_ret |].
    apply inserted_Inv; [done|]. simpl. by rewrite set_start_self.
Qed.

Lemma keeps_set key value maxAge : keeps (LRUCache.set key value maxAge).
Proof.
  destruct (valid_maxAge maxAge) eqn:Hv.
  - by apply safe_keeps, safe_set.
  - intros w HI. by rewrite set_invalid.
Qed.

End Safe.

Section SafeMethods.
Context {K V : Type} `{EqDecision K}.
Implicit Types (w : World K V) (c : Cache K V) (n : Node) (hit : LEntry.t K V).
Implicit Types (key : K).
#[local] Abbreviation safe := (safe (K := K) (V := V)).
#[local] Abbreviation keeps := (keeps (K := K) (V := V)).
#[local] Abbreviation walk_step := (walk_step (K := K) (V := V)).

Lemma NoDup_rev_2 (l : list Node) : NoDup l → NoDup (rev l).
Proof. rewrite !NoDup_ListNoDup. apply List.NoDup_rev. Qed.

Lemma elem_of_rev_1 (l : list Node) x : x ∈ rev l → x ∈ l.
Proof. rewrite !list_elem_of_In. apply in_rev. Qed.

(** *** Walks over the list *)

Lemma walk_loop {B} (f : Node → M B) l w :
  walk_step f → Inv w → NoDup l → (∀ n, n ∈ l → n ∈ LRU_LIST (self w)) →
  ∃ bs w', mapM f l w = (Ok bs, w') ∧ Inv w'.
Proof.
  intros Hf HI Hnd Hsub.
  destruct (mapM_loop f
    (λ l w, Inv w ∧ NoDup l ∧ ∀ n, n ∈ l → n ∈ LRU_LIST (self w)))
    with (l := l) (w := w) as (bs & w' & Hr & HI' & _).
  - intros a l' w1 (HI1 & Hnd1 & Hsub1).
    apply NoDup_cons in Hnd1 as [Ha Hnd1].
    destruct (Hf w1 a HI1) as (b & w2 & Hr & HI2 & Hkeep).
    { apply Hsub1. left. }
    exists b, w2. split_and!; try done.
    intros x Hx. apply Hkeep.
    + by intros ->.
    + apply Hsub1. by right.
  - done.
  - by exists bs, w'.
Qed.

Lemma safe_walk {B} (f : Node → M B) (g : Cache K V → list Node) :
  walk_step f →
  (∀ c, NoDup (LRU_LIST c) → NoDup (g c)) →
  (∀ c n, n ∈ g c → n ∈ LRU_LIST c) →
  safe (self <- this ;; mapM f (g self)).
Proof.
  intros Hf Hnd Hsub w HI. unfold bind at 1, this.
  apply walk_loop; try done.
  - apply Hnd, HI.
  - apply Hsub.
Qed.

Lemma forEachStep_eq w n hit :
  nodes w !! n = Some hit → n ∈ LRU_LIST (self w) →
  let w1 := tick_if (JS.truthy_num (ttl (self w) hit)) w in
  forEachStep n w
  = if stale_at (clock w (ticks w)) (self w) hit then
      (Ok (if ALLOW_STALE (self w)
           then Some (LEntry.value hit, LEntry.key hit) else None),
       del_world n hit w1)
    else (Ok (Some (LEntry.value hit, LEntry.key hit)), w1).
Proof.
  intros Hn Hin w1. unfold forEachStep.
  unfold bind at 1, node_value. rewrite Hn.
  unfold bind at 1. rewrite isStale_eq. fold w1.
  unfold bind at 1, this.
  destruct (stale_at _ _ _); [|done].
  unfold bind. rewrite (del_Some w1 n hit).
  - unfold w1. rewrite tick_if_self. by destruct (ALLOW_STALE (self w)).
  - unfold w1. by rewrite tick_if_nodes.
  - unfold w1. by rewrite tick_if_self.
Qed.

Lemma walk_forEachStep : walk_step (forEachStep (K := K) (V := V)).
Proof.
  intros w n HI Hin. destruct (inv_alloc _ _ _ _ HI n Hin) as [hit Hn].
  rewrite (forEachStep_eq w n hit) by done.
  set (w1 := tick_if _ w).
  assert (HI1 : Inv w1) by (by apply tick_if_Inv).
  assert (Hl1 : LRU_LIST (self w1) = LRU_LIST (self w))
    by (unfold w1; by rewrite tick_if_self).
  destruct (stale_at _ _ _).
  - eexists _, _. split; [done|]. split.
    + apply del_world_Inv; [done| |by rewrite Hl1].
      unfold w1. by rewrite tick_if_nodes.
    + intros x Hx Hxl. simpl. rewrite Hl1. by apply list_elem_of_filter.
  - eexists _, _. split; [done|]. split; [done|]. intros x _ Hx.
    by rewrite Hl1.
Qed.

(** A step that reads the node and changes nothing but the clock and the
    log. *)
Lemma walk_read {B} (f : LEntry.t K V → M B) :
  (∀ hit w, ∃ b w', f hit w = (Ok b, w') ∧ self w' = self w
                    ∧ nodes w' = nodes w) →
  walk_step (λ node, hit <- node_value node ;; f hit).
Proof.
  intros Hf w n HI Hin. destruct (inv_alloc _ _ _ _ HI n Hin) as [hit Hn].
  unfold bind, node_value. rewrite Hn.
  destruct (Hf hit w) as (b & w' & -> & Hs & Hns).
  exists b, w'. split; [done|]. unfold Inv. rewrite Hs, Hns.
  split; [done|]. by intros.
Qed.

Lemma safe_walk_then {B C} (f : Node → M B) (g : Cache K V → list Node)
    (k : list B → M C) :
  walk_step f →
  (∀ c, NoDup (LRU_LIST c) → NoDup (g c)) →
  (∀ c n, n ∈ g c → n ∈ LRU_LIST c) →
  (∀ bs, safe (k bs)) →
  safe (self <- this ;; r <- mapM f (g self) ;; k r).
Proof.
  intros Hf Hnd Hsub Hk w HI. unfold bind at 1, this.
  destruct (walk_loop f (g (self w)) w) as (bs & w1 & Hr & HI1); try done.
  - apply Hnd, HI.
  - apply Hsub.
  - rewrite (bind_Ok _ _ _ _ _ Hr). by apply Hk.
Qed.

Lemma safe_forEach : safe (LRUCache.forEach (K := K) (V := V)).
Proof.
  apply (safe_walk_then _ LRU_LIST); try done.
  - apply walk_forEachStep.
  - intros bs. apply safe_ret.
Qed.

Lemma safe_rforEach : safe (LRUCache.rforEach (K := K) (V := V)).
Proof.
  apply (safe_walk_then _ (λ c, rev (LRU_LIST c))).
  - apply walk_forEachStep.
  - intros c Hnd. by apply NoDup_rev_2.
  - intros c n Hn. by apply elem_of_rev_1.
  - intros bs. apply safe_ret.
Qed.

Lemma safe_keys : safe (LRUCache.keys (K := K) (V := V)).
Proof.
  apply (safe_walk _ LRU_LIST); try done.
  apply (walk_read (λ k, ret (LEntry.key k))).
  intros hit w. by eexists _, _.
Qed.

Lemma safe_values : safe (LRUCache.values (K := K) (V := V)).
Proof.
  apply (safe_walk _ LRU_LIST); try done.
  apply (walk_read (λ k, ret (LEntry.value k))).
  intros hit w. by eexists _, _.
Qed.

Lemma safe_dump : safe (LRUCache.dump (K := K) (V := V)).
Proof.
  apply (safe_walk_then _ LRU_LIST); try done.
  - apply (walk_read (λ hit, stale <- isStale hit ;; ret _)).
    intros hit w0. unfold bind. rewrite isStale_eq.
    eexists _, _. split; [done|].
    by rewrite tick_if_self, tick_if_nodes.
  - intros bs. apply safe_ret.
Qed.

(** *** The other methods *)

Lemma safe_reset : safe (LRUCache.reset (K := K) (V := V)).
Proof.
  intros w HI. unfold LRUCache.reset. unfold bind at 1, this.
  assert (Hloop : ∃ u w1,
    (if DISPOSE (self w) && negb (Nat.eqb (length (LRU_LIST (self w))) 0)
     then
       _ <- mapM (λ node, hit <- node_value node ;;
                  call_dispose (LEntry.key hit) (LEntry.value hit))
              (LRU_LIST (self w)) ;;
       ret tt
     else ret tt) w = (Ok u, w1)).
  { destruct (_ && _); [|by eexists _, _].
    destruct (walk_loop
      (λ node, hit <- node_value node ;;
               call_dispose (LEntry.key hit) (LEntry.value hit))
      (LRU_LIST (self w)) w) as (bs & w1 & Hr & _); try done.
    - apply (walk_read (λ hit, call_dispose _ _)).
      intros hit w0. by eexists _, _.
    - apply HI.
    - exists tt, w1. by rewrite (bind_Ok _ _ _ _ _ Hr). }
  destruct Hloop as (u & w1 & Hr).
  rewrite (bind_Ok _ _ _ _ _ Hr).
  eexists _, _. split; [done|]. apply Consistent_nil.
Qed.

Lemma has_absent w key :
  Map.get key (CACHE (self w)) = None → LRUCache.has key w = (Ok false, w).
Proof.
  intros Hg. unfold LRUCache.has, bind, this, Map.has. by rewrite Hg.
Qed.

Lemma has_present w key n hit :
  Map.get key (CACHE (self w)) = Some n → nodes w !! n = Some hit →
  LRUCache.has key w
  = (Ok (negb (stale_at (clock w (ticks w)) (self w) hit)),
     tick_if (JS.truthy_num (ttl (self w) hit)) w).
Proof.
  intros Hg Hn. unfold LRUCache.has. unfold bind at 1, this.
  unfold Map.has. rewrite Hg. simpl.
  unfold bind at 1, node_value. rewrite Hn.
  unfold bind. by rewrite isStale_eq.
Qed.

Lemma safe_has key : safe (LRUCache.has (V := V) key).
Proof.
  intros w HI.
  destruct (Map.get key (CACHE (self w))) as [n|] eqn:Hg.
  - destruct (Consistent_get _ _ _ _ _ _ HI Hg) as (Hin & hit & Hn & Hk).
    rewrite (has_present w key n hit) by done.
    eexists _, _. split; [done|]. by apply tick_if_Inv.
  - rewrite has_absent by done. by eexists _, _.
Qed.

Lemma safe_pop : safe (LRUCache.pop (K := K) (V := V)).
Proof.
  intros w HI. unfold LRUCache.pop. unfold bind at 1, this.
  destruct (Yallist.tail (LRU_LIST (self w))) as [n|] eqn:Ht;
    [|by eexists _, _].
  assert (Hin : n ∈ LRU_LIST (self w)).
  { unfold Yallist.tail in Ht. apply last_Some in Ht as [l' ->].
    apply elem_of_app. right. left. }
  destruct (safe_del_node w n HI Hin) as (hit & Hn & Hr & HI').
  unfold bind at 1, node_value. rewrite Hn.
  rewrite (bind_Ok _ _ _ _ _ Hr). by eexists _, _.
Qed.

Lemma safe_prune : safe (LRUCache.prune (K := K) (V := V)).
Proof.
  unfold LRUCache.prune.
  apply safe_bind; [apply safe_this | intros c].
  apply safe_bind; [|intros _; apply safe_ret].
  apply safe_mapM. intros key. apply safe_get.
Qed.

Lemma valid_maxAge_number x : valid_maxAge (JNumber x) = true.
Proof. unfold valid_maxAge. simpl. apply orb_true_r. Qed.

Lemma safe_load arr : safe (LRUCache.load (K := K) (V := V) arr).
Proof.
  unfold LRUCache.load.
  apply safe_bind; [apply safe_reset | intros _].
  apply safe_bind; [apply safe_Date_now | intros now].
  apply safe_bind; [|intros _; apply safe_ret].
  apply safe_mapM. intros hit.
  destruct (JS.is_zero _).
  - apply safe_bind; [by apply safe_set | intros _; apply safe_ret].
  - destruct (JS.positive _); [|apply safe_ret].
    apply safe_bind; [|intros _; apply safe_ret].
    apply safe_set, valid_maxAge_number.
Qed.

End SafeMethods.

Section SafeSetters.
Context {K V : Type} `{EqDecision K}.
Implicit Types (w : World K V) (c : Cache K V) (n : Node) (hit : LEntry.t K V).
Implicit Types (key : K).
#[local] Abbreviation safe := (safe (K := K) (V := V)).
#[local] Abbreviation keeps := (keeps (K := K) (V := V)).
#[local] Abbreviation walk_step := (walk_step (K := K) (V := V)).

Lemma safe_modify_config (f : Cache K V → Cache K V) :
  (∀ c, LRU_LIST (f c) = LRU_LIST c ∧ CACHE (f c) = CACHE c
        ∧ LENGTH (f c) = LENGTH c) →
  safe (modify f).
Proof.
  intros Hf w HI. eexists _, _. split; [done|].
  destruct (Hf (self w)) as (Hl & Hm & Hlen).
  unfold Inv. simpl. by rewrite Hl, Hm, Hlen.
Qed.

Lemma keeps_set_max mL : keeps (LRUCache.set_max (K := K) (V := V) mL).
Proof.
  unfold LRUCache.set_max.
  destruct mL as [| |b|x|s|]; try apply keeps_throw.
  destruct (JS.negative x); [apply keeps_throw|].
  apply safe_keeps, safe_bind; [by apply safe_modify_config|].
  intros _. apply safe_trim.
Qed.

Lemma keeps_set_maxAge mA : keeps (LRUCache.set_maxAge (K := K) (V := V) mA).
Proof.
  unfold LRUCache.set_maxAge.
  destruct mA as [| |b|x|s|]; try apply keeps_throw.
  apply safe_keeps, safe_bind; [by apply safe_modify_config|].
  intros _. apply safe_trim.
Qed.

Lemma safe_set_allowStale v :
  safe (LRUCache.set_allowStale (K := K) (V := V) v).
Proof. by apply safe_modify_config. Qed.

(** The loop of the [lengthCalculator] setter: the total is rebuilt node by
    node. *)
Lemma safe_set_lengthCalculator lC :
  safe (LRUCache.set_lengthCalculator (K := K) (V := V) lC).
Proof.
  unfold LRUCache.set_lengthCalculator.
  intros w HI. unfold bind at 1, this.
  set (f := default naiveLength lC).
  match goal with
  | |- ∃ a w', bind ?m _ _ = _ ∧ _ =>
      assert (Hm : ∃ u w1, m w = (Ok u, w1) ∧ Inv w1)
  end.
  2:{ destruct Hm as (u & w1 & Hr & HI1). rewrite (bind_Ok _ _ _ _ _ Hr).
      by apply safe_trim. }
  destruct (decide _) as [Hne|Heq]; [|by eexists _, _].
  unfold bind at 1, modify. unfold bind at 1, modify.
  set (w0 := with_self _ _).
  destruct (mapM_loop
    (λ node, hit <- node_value node ;;
             _ <- node_assign node
                    (LEntry.mk (LEntry.key hit) (LEntry.value hit)
                       (f (LEntry.value hit) (LEntry.key hit))
                       (LEntry.now hit) (LEntry.maxAge hit)) ;;
             modify (λ c, with_LENGTH
                            (LENGTH c + f (LEntry.value hit) (LEntry.key hit)) c))
    (λ rem w, ∃ done,
       LRU_LIST (self w) = done ++ rem ∧
       Consistent (LRU_LIST (self w)) (CACHE (self w))
         (total (nodes w) (LRU_LIST (self w))) (nodes w) ∧
       LENGTH (self w) = total (nodes w) done))
    with (l := LRU_LIST (self w)) (w := w0)
    as (bs & w1 & Hr & done & Hl & HC & Hlen).
  - intros a rem w1 (done & Hl & HC & Hlen).
    assert (Hin : a ∈ LRU_LIST (self w1)).
    { rewrite Hl. apply elem_of_app. right. left. }
    destruct (inv_alloc _ _ _ _ HC a Hin) as [hit Hn].
    unfold bind at 1, node_value. rewrite Hn.
    eexists _, _. split; [done|]. simpl.
    set (new := LEntry.mk _ _ _ _ _).
    pose proof (Consistent_assign _ _ _ _ a hit new HC Hin Hn eq_refl) as HC'.
    exists (done ++ [a]). split_and!.
    + by rewrite <- app_assoc.
    + by rewrite <- (inv_total _ _ _ _ HC').
    + rewrite total_app. simpl. unfold weight at 1.
      rewrite list_lookup_insert_eq by (by eapply lookup_lt_Some). simpl.
      rewrite (total_ext (nodes w1)); [lia|].
      intros x Hx. apply list_lookup_insert_ne. intros ->.
      pose proof (inv_live _ _ _ _ HC) as Hnd. rewrite Hl in Hnd.
      apply NoDup_app in Hnd as (_ & Hdis & _). apply (Hdis x Hx). left.
  - exists []. split_and!; try done.
    subst w0. simpl. destruct HI as [? ? ? ? Ht]. by split.
  - rewrite (bind_Ok _ _ _ _ _ Hr). eexists _, _. split; [done|].
    rewrite app_nil_r in Hl. unfold Inv. rewrite Hlen, <- Hl. done.
Qed.

(** *** A cache that was just constructed *)

Lemma new_Inv options clk w :
  LRUCache.new (K := K) (V := V) options clk = Ok w → Inv w.
Proof.
  unfold LRUCache.new. destruct (LRUCache.constructor options) as [c|e] eqn:Hc;
    [|done].
  intros [= <-]. unfold LRUCache.constructor in Hc.
  repeat match type of Hc with
         | (if ?b then _ else _) = _ => destruct b; [done|]
         end.
  injection Hc as <-. apply Consistent_nil.
Qed.

End SafeSetters.

(** ** The public operations, and what they keep *)

Section Api.
Context {K V : Type} `{EqDecision K}.
Implicit Types (w : World K V) (c : Cache K V) (n : Node) (hit : LEntry.t K V).
Implicit Types (key : K).
#[local] Abbreviation safe := (safe (K := K) (V := V)).
#[local] Abbreviation keeps := (keeps (K := K) (V := V)).
#[local] Abbreviation walk_step := (walk_step (K := K) (V := V)).

Lemma perform_Inv (op : call) w : Inv w → Inv (perform op w).
Proof.
  intros HI. destruct op; cbn [perform].
  - by apply keeps_set.
  - by apply get_Inv.
  - by apply get_Inv.
  - by apply safe_keeps; [apply safe_has|].
  - by apply safe_keeps; [apply safe_del_lookup|].
  - by apply safe_keeps; [apply safe_pop|].
  - by apply safe_keeps; [apply safe_reset|].
  - by apply safe_keeps; [apply safe_prune|].
  - by apply safe_keeps; [apply safe_forEach|].
  - by apply safe_keeps; [apply safe_rforEach|].
  - by apply safe_keeps; [apply safe_keys|].
  - by apply safe_keeps; [apply safe_values|].
  - by apply safe_keeps; [apply safe_dump|].
  - done.
  - by apply safe_keeps; [apply safe_load|].
  - by apply keeps_set_max.
  - by apply keeps_set_maxAge.
  - by apply safe_keeps; [apply safe_set_allowStale|].
  - by apply safe_keeps; [apply safe_set_lengthCalculator|].
  - done.
  - done.
  - done.
  - done.
  - done.
  - done.
Qed.

Lemma perform_all_Inv (ops : list call) w : Inv w → Inv (perform_all ops w).
Proof.
  revert w. induction ops as [|op ops IH]; intros w HI; [done|].
  simpl. apply IH. by apply perform_Inv.
Qed.

(** *** What the invariant says about keys and sizes *)

Lemma key_of_alloc w n :
  Inv w → n ∈ LRU_LIST (self w) → is_Some (key_of (nodes w) n).
Proof.
  intros HI Hin. destruct (inv_alloc _ _ _ _ HI n Hin) as [hit Hn].
  unfold key_of. rewrite Hn. by eexists.
Qed.

Lemma key_of_inj w n n' k :
  Inv w → n ∈ LRU_LIST (self w) → n' ∈ LRU_LIST (self w) →
  key_of (nodes w) n = Some k → key_of (nodes w) n' = Some k → n = n'.
Proof.
  intros HI Hn Hn' Hk Hk'.
  assert (H1 : Map.get k (CACHE (self w)) = Some n).
  { apply Map_elem_get; [apply HI|]. by apply (inv_index _ _ _ _ HI). }
  assert (H2 : Map.get k (CACHE (self w)) = Some n').
  { apply Map_elem_get; [apply HI|]. by apply (inv_index _ _ _ _ HI). }
  congruence.
Qed.

Lemma list_keys_elem w k :
  Inv w → k ∈ list_keys w ↔ k ∈ Map.keys (CACHE (self w)).
Proof.
  intros HI. unfold list_keys, Map.keys.
  rewrite list_elem_of_omap, list_elem_of_fmap. split.
  - intros (n & Hn & Hk). exists (k, n). split; [done|].
    by apply (inv_index _ _ _ _ HI).
  - intros ([k' n] & -> & Hin). apply (inv_index _ _ _ _ HI) in Hin as [? ?].
    by exists n.
Qed.

Lemma list_keys_NoDup w : Inv w → NoDup (list_keys w).
Proof.
  intros HI. unfold list_keys.
  assert (Hsub : ∀ n, n ∈ LRU_LIST (self w) → n ∈ LRU_LIST (self w)) by done.
  pose proof (inv_live _ _ _ _ HI) as Hnd.
  revert Hsub Hnd. generalize (LRU_LIST (self w)) at 1 3 4. intros l.
  induction l as [|a l IH]; intros Hsub Hnd; [apply NoDup_nil_2|].
  apply NoDup_cons in Hnd as [Ha Hnd]. simpl.
  destruct (key_of (nodes w) a) as [k|] eqn:Hk.
  - apply NoDup_cons. split.
    + rewrite list_elem_of_omap. intros (n & Hn & Hkn).
      assert (a = n); [|by subst].
      eapply (key_of_inj w); try done; apply Hsub; [left | by right].
    + apply IH; [|done]. intros n Hn. apply Hsub. by right.
  - apply IH; [|done]. intros n Hn. apply Hsub. by right.
Qed.

Lemma list_keys_length w :
  Inv w → length (list_keys w) = length (LRU_LIST (self w)).
Proof.
  intros HI. unfold list_keys.
  assert (Hsub : ∀ n, n ∈ LRU_LIST (self w) → is_Some (key_of (nodes w) n))
    by (intros n; by apply key_of_alloc).
  revert Hsub. generalize (LRU_LIST (self w)). intros l.
  induction l as [|a l IH]; intros Hsub; [done|]. simpl.
  destruct (Hsub a) as [k ->]; [left|]. simpl. f_equal.
  apply IH. intros n Hn. apply Hsub. by right.
Qed.



End Api.

(** ** The caches of the examples are reachable and consistent *)

Lemma demo_world_new :
  LRUCache.new (LRUCache.ArgOptions demo_options) demo_clock = Ok demo_world.
Proof. reflexivity. Qed.

Lemma demo_world_Inv (ops : list call) : Inv (perform_all ops demo_world).
Proof. apply perform_all_Inv, (new_Inv _ _ _ demo_world_new). Qed.

(** ** The claims *)

Section Claims.
Context {K V : Type} `{EqDecision K}.
Implicit Types (w : World K V) (c : Cache K V) (n : Node) (hit : LEntry.t K V).
Implicit Types (key : K) (value : V).

Lemma del_world_list w n hit :
  LRU_LIST (self (del_world n hit w)) = filter (λ x, x ≠ n) (LRU_LIST (self w)).
Proof. done. Qed.

Lemma del_world_index w n hit :
  CACHE (self (del_world n hit w)) = Map.delete (LEntry.key hit) (CACHE (self w)).
Proof. done. Qed.

Lemma length_filter_ne (l : list Node) n :
  NoDup l → n ∈ l → length (filter (λ x, x ≠ n) l) = pred (length l).
Proof.
  intros Hnd Hin.
  apply list_elem_of_split in Hin as (l1 & l2 & ->).
  apply NoDup_app in Hnd as (_ & Hd1 & Hnd2).
  apply NoDup_cons in Hnd2 as [Hn2 _].
  rewrite filter_app, filter_cons_False by (intros ?; done).
  rewrite !filter_ne_notin; [|done|].
  - rewrite !length_app. simpl. lia.
  - intros Hx. apply (Hd1 n Hx). left.
Qed.

Lemma del_world_absent w n hit :
  Inv w → nodes w !! n = Some hit → n ∈ LRU_LIST (self w) →
  Map.has (LEntry.key hit) (CACHE (self (del_world n hit w))) = false
  ∧ LEntry.key hit ∉ list_keys (del_world n hit w).
Proof.
  intros HI Hn Hin.
  assert (Hg : Map.get (LEntry.key hit) (CACHE (self (del_world n hit w))) = None)
    by apply Map_get_delete.
  split; [by apply Map_has_false|].
  rewrite list_keys_elem by (by apply del_world_Inv).
  by apply Map_get_None_keys.
Qed.

(** C1. On a key that is in the cache, [set] with a value whose weight exceeds
    the capacity returns [false] without throwing; afterwards the key is in
    neither the index nor the list (the old entry is gone, one node less),
    no node was created for the new value, the other keys are where they
    were, and the cache is consistent. *)
Theorem set_oversized_removes_old_entry w key value maxAge :
  Inv w →
  valid_maxAge maxAge = true →
  Map.has key (CACHE (self w)) = true →
  JS.gt (LENGTH_CALCULATOR (self w) value key) (MAX (self w)) = true →
  ∃ w',
    LRUCache.set key value maxAge w = (Ok false, w') ∧
    Map.has key (CACHE (self w')) = false ∧
    (key ∉ list_keys w') ∧
    (∀ k, k ≠ key →
       Map.get k (CACHE (self w')) = Map.get k (CACHE (self w))) ∧
    length (LRU_LIST (self w')) = pred (length (LRU_LIST (self w))) ∧
    nodes w' = nodes w ∧
    Inv w'.
Proof.
  intros HI Hv Hhas Hgt.
  apply Map_has_get in Hhas as [n Hg].
  destruct (Consistent_get _ _ _ _ _ _ HI Hg) as (Hin & hit & Hn & Hk).
  rewrite (set_present_oversized w key value maxAge n hit) by done.
  set (w1 := set_start w maxAge).
  assert (HI1 : Inv w1) by (by apply set_start_Inv).
  assert (Hn1 : nodes w1 !! n = Some hit)
    by (unfold w1; by rewrite set_start_nodes).
  assert (Hs1 : self w1 = self w) by apply set_start_self.
  assert (Hin1 : n ∈ LRU_LIST (self w1)) by (by rewrite Hs1).
  destruct (del_world_absent w1 n hit HI1 Hn1 Hin1) as [Hh Hl].
  rewrite Hk in Hh, Hl.
  eexists. split_and!; try done.
  - intros k Hne. rewrite del_world_index, Hs1, Hk. by apply Map_get_delete_ne.
  - rewrite del_world_list, Hs1. apply length_filter_ne; [apply HI | done].
  - apply set_start_nodes.
  - by apply del_world_Inv.
Qed.

(** C2, as amended.  With a dispose callback configured, a [set] whose value
    exceeds the capacity calls it exactly once before returning [false]: with
    the rejected pair (key, new value) when the key is not in the cache, and
    with the key and the old stored value, not the new one, when it is. *)
Theorem set_oversized_dispose w key value maxAge :
  Inv w →
  valid_maxAge maxAge = true →
  DISPOSE (self w) = true →
  JS.gt (LENGTH_CALCULATOR (self w) value key) (MAX (self w)) = true →
  ∃ w',
    LRUCache.set key value maxAge w = (Ok false, w') ∧
    (Map.get key (CACHE (self w)) = None →
       disposed w' = disposed w ++ [(key, value)]) ∧
    (∀ n old, Map.get key (CACHE (self w)) = Some n →
       nodes w !! n = Some old →
       disposed w' = disposed w ++ [(key, LEntry.value old)]).
Proof.
  intros HI Hv HD Hgt.
  destruct (Map.get key (CACHE (self w))) as [n|] eqn:Hg.
  - destruct (Consistent_get _ _ _ _ _ _ HI Hg) as (Hin & hit & Hn & Hk).
    rewrite (set_present_oversized w key value maxAge n hit) by done.
    eexists. split_and!; try done.
    intros n' old [= <-] Hold. simpl.
    rewrite set_start_self, set_start_disposed. unfold dispose_log.
    rewrite HD. congruence.
  - rewrite set_absent_oversized by done.
    eexists. split_and!; try done.
    intros _. simpl. unfold dispose_log. by rewrite HD.
Qed.

End Claims.

Lemma set_oversized_removes_old_entry_witness :
  ∃ w',
    LRUCache.set "a" 10 JUndefined demo_a = (Ok false, w') ∧
    Map.has "a" (CACHE (self w')) = false ∧
    ("a" ∉ list_keys w') ∧
    (∀ k, k ≠ "a" →
       Map.get k (CACHE (self w')) = Map.get k (CACHE (self demo_a))) ∧
    length (LRU_LIST (self w')) = pred (length (LRU_LIST (self demo_a))) ∧
    nodes w' = nodes demo_a ∧
    Inv w'.
Proof.
  apply (set_oversized_removes_old_entry demo_a "a" 10 JUndefined).
  - apply demo_world_Inv.
  - reflexivity.
  - reflexivity.
  - reflexivity.
Defined.

Lemma set_oversized_dispose_witness :
  ∃ w',
    LRUCache.set "a" 10 JUndefined demo_a = (Ok false, w') ∧
    (Map.get "a" (CACHE (self demo_a)) = None →
       disposed w' = disposed demo_a ++ [("a", 10)]) ∧
    (∀ n old, Map.get "a" (CACHE (self demo_a)) = Some n →
       nodes demo_a !! n = Some old →
       disposed w' = disposed demo_a ++ [("a", LEntry.value old)]).
Proof.
  apply (set_oversized_dispose demo_a "a" 10 JUndefined).
  - apply demo_world_Inv.
  - reflexivity.
  - reflexivity.
  - reflexivity.
Defined.

(** C2, as stated, fails on a key that is in the cache: [set("a", 10)] on the
    cache that holds ("a", 1) calls dispose with ("a", 1) and never with the
    rejected ("a", 10). *)
Lemma set_oversized_dispose_counterexample :
  DISPOSE (self demo_a) = true
  ∧ Map.has "a" (CACHE (self demo_a)) = true
  ∧ JS.gt (LENGTH_CALCULATOR (self demo_a) 10 "a") (MAX (self demo_a)) = true
  ∧ (LRUCache.set "a" 10 JUndefined demo_a).1 = Ok false
  ∧ disposed demo_a = []
  ∧ disposed (LRUCache.set "a" 10 JUndefined demo_a).2 = [("a", 1)]
  ∧ ("a", 10) ∉ disposed (LRUCache.set "a" 10 JUndefined demo_a).2.
Proof.
  split_and!; try reflexivity.
  intros Hin. vm_compute in Hin.
  apply list_elem_of_singleton in Hin. discriminate Hin.
Qed.

Section ClaimsRead.
Context {K V : Type} `{EqDecision K}.
Implicit Types (w : World K V) (c : Cache K V) (n : Node) (hit : LEntry.t K V).
Implicit Types (key : K) (value : V).

(** C5. When the entry of a key is stale at the time [get] (or [peek]) reads
    the clock, the entry is evicted, with a call of the dispose callback if
    there is one, whatever [allowStale] says; the call returns the stale
    value when [allowStale] is set and [undefined] when it is not; and a
    [has] of the key that follows returns [false]. *)
Theorem get_stale_evicts w key n hit :
  Inv w →
  Map.get key (CACHE (self w)) = Some n →
  nodes w !! n = Some hit →
  stale_at (clock w (ticks w)) (self w) hit = true →
  ∃ w',
    LRUCache.get key w
    = (Ok (if ALLOW_STALE (self w) then Some (LEntry.value hit) else None), w') ∧
    LRUCache.peek key w
    = (Ok (if ALLOW_STALE (self w) then Some (LEntry.value hit) else None), w') ∧
    disposed w'
    = (if DISPOSE (self w) then disposed w ++ [(key, LEntry.value hit)]
       else disposed w) ∧
    Map.has key (CACHE (self w')) = false ∧
    (key ∉ list_keys w') ∧
    LRUCache.has key w' = (Ok false, w') ∧
    Inv w'.
Proof.
  intros HI Hg Hn Hst.
  destruct (Consistent_get _ _ _ _ _ _ HI Hg) as (Hin & hit' & Hn' & Hk).
  assert (hit' = hit) by congruence. subst hit'.
  unfold LRUCache.get, LRUCache.peek.
  rewrite !(get_present w key _ n hit) by done. rewrite Hst.
  set (w1 := tick_if _ w).
  assert (HI1 : Inv w1) by (by apply tick_if_Inv).
  assert (Hn1 : nodes w1 !! n = Some hit)
    by (unfold w1; by rewrite tick_if_nodes).
  assert (Hin1 : n ∈ LRU_LIST (self w1))
    by (unfold w1; by rewrite tick_if_self).
  destruct (del_world_absent w1 n hit HI1 Hn1 Hin1) as [Hh Hl].
  rewrite Hk in Hh, Hl.
  eexists. split_and!; try done.
  - simpl. unfold dispose_log, w1.
    rewrite tick_if_self, tick_if_disposed, Hk. done.
  - apply has_absent. by apply Map_has_false.
  - by apply del_world_Inv.
Qed.

(** C8. [has] returns [true] exactly when the key is in the index and its
    entry is not stale at the time [has] reads the clock, and it changes
    nothing: the cache object (list, index, total and configuration), the
    entries and the dispose log are as before, stale entry or not.  (Only the
    count of clock readings moves.) *)
Theorem has_is_pure w key :
  Inv w →
  ∃ b w',
    LRUCache.has key w = (Ok b, w') ∧
    self w' = self w ∧ nodes w' = nodes w ∧ disposed w' = disposed w ∧
    clock w' = clock w ∧
    (b = true ↔
       ∃ n hit, Map.get key (CACHE (self w)) = Some n ∧
                nodes w !! n = Some hit ∧
                stale_at (clock w (ticks w)) (self w) hit = false).
Proof.
  intros HI.
  destruct (Map.get key (CACHE (self w))) as [n|] eqn:Hg.
  - destruct (Consistent_get _ _ _ _ _ _ HI Hg) as (Hin & hit & Hn & Hk).
    rewrite (has_present w key n hit) by done.
    eexists _, _. split_and!; try done.
    + apply tick_if_self.
    + apply tick_if_nodes.
    + apply tick_if_disposed.
    + apply tick_if_clock.
    + split.
      * intros Hb. exists n, hit. split_and!; try done.
        by apply negb_true_iff.
      * intros (n' & hit' & [= <-] & Hn' & Hst).
        assert (hit' = hit) by congruence. subst hit'. by rewrite Hst.
  - rewrite has_absent by done. exists false, w. split_and!; try done.
    split; [done|]. by intros (? & ? & ? & _).
Qed.

End ClaimsRead.

Lemma demo_stale_Inv : Inv demo_stale.
Proof. apply demo_world_Inv. Qed.

Lemma get_stale_evicts_witness :
  ∃ w',
    LRUCache.get "a" demo_stale = (Ok None, w') ∧
    LRUCache.peek "a" demo_stale = (Ok None, w') ∧
    disposed w' = [("a", 1)] ∧
    Map.has "a" (CACHE (self w')) = false ∧
    ("a" ∉ list_keys w') ∧
    LRUCache.has "a" w' = (Ok false, w') ∧
    Inv w'.
Proof.
  apply (get_stale_evicts demo_stale "a" 0%nat
           (LEntry.mk "a" 1 1 1000 (Fin 100))).
  - apply demo_stale_Inv.
  - reflexivity.
  - reflexivity.
  - reflexivity.
Defined.

Lemma has_is_pure_witness :
  ∃ b w',
    LRUCache.has "a" demo_stale = (Ok b, w') ∧
    self w' = self demo_stale ∧ nodes w' = nodes demo_stale ∧
    disposed w' = disposed demo_stale ∧ clock w' = clock demo_stale ∧
    (b = true ↔
       ∃ n hit, Map.get "a" (CACHE (self demo_stale)) = Some n ∧
                nodes demo_stale !! n = Some hit ∧
                stale_at (clock demo_stale (ticks demo_stale))
                  (self demo_stale) hit = false).
Proof. apply (has_is_pure demo_stale "a"), demo_stale_Inv. Defined.

Lemma lru_world_new :
  LRUCache.new
    (LRUCache.ArgOptions
       (Options.mk (JNumber (Fin 2)) JUndefined None true
          JUndefined JUndefined JUndefined))
    demo_clock
  = Ok lru_world.
Proof. reflexivity. Qed.

Lemma lru_world_Inv (ops : list call) : Inv (perform_all ops lru_world).
Proof. apply perform_all_Inv, (new_Inv _ _ _ lru_world_new). Qed.






Section ClaimsCapacity.
Context {K V : Type} `{EqDecision K}.
Implicit Types (w : World K V) (c : Cache K V) (n : Node) (hit : LEntry.t K V).
Implicit Types (key : K) (value : V).

Lemma promoted_config n hit w : config (self (promoted n hit w)) = config (self w).
Proof. unfold promoted. by destruct (UPDATE_AGE_ON_GET (self w)). Qed.

Lemma tick_if_config b w : config (self (tick_if b w)) = config (self w).
Proof. by destruct b. Qed.

(** [get] returns, changes no configuration and unlinks no node of another
    key. *)
Lemma get_frame w key doUse :
  Inv w →
  ∃ r w',
    get key doUse w = (Ok r, w') ∧ Inv w' ∧
    config (self w') = config (self w) ∧
    ∀ x, x ∈ LRU_LIST (self w) → key_of (nodes w) x ≠ Some key →
         x ∈ LRU_LIST (self w').
Proof.
  intros HI.
  destruct (Map.get key (CACHE (self w))) as [n|] eqn:Hg.
  - destruct (Consistent_get _ _ _ _ _ _ HI Hg) as (Hin & hit & Hn & Hk).
    pose proof (get_Inv w key doUse HI) as HI'.
    rewrite (get_present w key doUse n hit) in * by done.
    set (w1 := tick_if _ w) in *.
    assert (Hl1 : LRU_LIST (self w1) = LRU_LIST (self w))
      by (unfold w1; by rewrite tick_if_self).
    assert (Hne : ∀ x, key_of (nodes w) x ≠ Some key → x ≠ n).
    { intros x Hx ->. apply Hx. unfold key_of. rewrite Hn. simpl. by rewrite Hk. }
    destruct (stale_at _ _ _).
    + eexists _, _. split_and!; try done.
      * rewrite del_world_config. apply tick_if_config.
      * intros x Hx Hkx. rewrite del_world_list, Hl1.
        apply list_elem_of_filter. split; [by apply Hne | done].
    + destruct doUse.
      * eexists _, _. split_and!; try done.
        -- rewrite promoted_config. apply tick_if_config.
        -- intros x Hx Hkx. unfold promoted. simpl. rewrite Hl1.
           unfold Yallist.unshiftNode. right.
           apply list_elem_of_filter. split; [by apply Hne | done].
      * eexists _, _. split_and!; try done.
        -- apply tick_if_config.
        -- intros x Hx _. by rewrite Hl1.
  - rewrite get_absent by done. by eexists _, _.
Qed.

Lemma overwritten_list key n item new w :
  LRU_LIST (self (overwritten key n item new w)) = LRU_LIST (self w).
Proof. done. Qed.

Lemma overwritten_index key n item new w :
  CACHE (self (overwritten key n item new w)) = CACHE (self w).
Proof. done. Qed.

Lemma overwritten_nodes key n item new w :
  nodes (overwritten key n item new w) = <[n := new]> (nodes w).
Proof. done. Qed.

Lemma overwritten_config key n item new w :
  config (self (overwritten key n item new w)) = config (self w).
Proof. done. Qed.

Lemma inserted_list hit w :
  LRU_LIST (self (inserted hit w)) = length (nodes w) :: LRU_LIST (self w).
Proof. done. Qed.

Lemma inserted_index hit w :
  CACHE (self (inserted hit w))
  = Map.set (LEntry.key hit) (length (nodes w)) (CACHE (self w)).
Proof. done. Qed.

Lemma inserted_nodes hit w : nodes (inserted hit w) = nodes w ++ [hit].
Proof. done. Qed.

Lemma inserted_config hit w : config (self (inserted hit w)) = config (self w).
Proof. done. Qed.

Lemma set_start_config w maxAge :
  config (self (set_start w maxAge)) = config (self w).
Proof. by rewrite set_start_self. Qed.

Lemma config_MAX c c' : config c' = config c → MAX c' = MAX c.
Proof. unfold config. by intros [= -> _ _ _ _ _ _]. Qed.

Lemma config_MAX_AGE c c' : config c' = config c → MAX_AGE c' = MAX_AGE c.
Proof. unfold config. by intros [= _ _ _ -> _ _ _]. Qed.

Lemma trim_unbounded w : MAX (self w) = Infinity → trim w = (Ok tt, w).
Proof. intros HM. apply trim_noop. by rewrite HM. Qed.

End ClaimsCapacity.

(** C7. The validation of the [maxAge] setter checks the type only: a negative
    [maxAge] is stored and nothing is thrown, in the setter (whose own
    [TypeError] says "maxAge must be a non-negative number") and in the
    constructor, while a negative [max] is refused by both. *)
Theorem maxAge_accepts_negative :
  (LRUCache.set_maxAge (JNumber (Fin (-1))) demo_world).1 = Ok tt
  ∧ MAX_AGE (self (LRUCache.set_maxAge (JNumber (Fin (-1))) demo_world).2)
    = Fin (-1)
  ∧ LRUCache.set_maxAge (JString "1") demo_world
    = (Throw (TypeError "maxAge must be a non-negative number"), demo_world)
  ∧ (MAX_AGE <$> match LRUCache.constructor (K := string) (V := Z)
                         (LRUCache.ArgOptions
                            (Options.mk JUndefined (JNumber (Fin (-1))) None
                               false JUndefined JUndefined JUndefined))
                 with Ok c => Some c | Throw _ => None end)
    = Some (Fin (-1))
  ∧ LRUCache.set_max (JNumber (Fin (-1))) demo_world
    = (Throw (TypeError "max must be a non-negative number"), demo_world)
  ∧ LRUCache.constructor (K := string) (V := Z) (LRUCache.ArgMax (Fin (-1)))
    = Throw (TypeError "max must be a non-negative number").
Proof. by split_and!. Qed.

Section Validation.
Context {K V : Type} `{EqDecision K}.
Implicit Types (w : World K V) (c : Cache K V).

(** What the validation does refuse, leaving the cache as it was: in the
    setters a [max] that is not a number or is negative and a [maxAge] that is
    not a number; in the constructor a truthy [max] that is not a number or is
    negative and a truthy [maxAge] that is not a number. *)
Lemma validation_refuses :
  (∀ w v, JS.is_number v = false →
          LRUCache.set_max v w
          = (Throw (TypeError "max must be a non-negative number"), w))
  ∧ (∀ w x, JS.negative x = true →
          LRUCache.set_max (JNumber x) w
          = (Throw (TypeError "max must be a non-negative number"), w))
  ∧ (∀ w v, JS.is_number v = false →
          LRUCache.set_maxAge v w
          = (Throw (TypeError "maxAge must be a non-negative number"), w))
  ∧ (∀ o, JS.truthy (Options.max o) = true →
          JS.is_number (Options.max o) = false →
          LRUCache.constructor (K := K) (V := V) (LRUCache.ArgOptions o)
          = Throw (TypeError "max must be a non-negative number"))
  ∧ (∀ o x, Options.max o = JNumber x → JS.negative x = true →
          LRUCache.constructor (K := K) (V := V) (LRUCache.ArgOptions o)
          = Throw (TypeError "max must be a non-negative number"))
  ∧ (∀ o c, JS.truthy (Options.maxAge o) = true →
          JS.is_number (Options.maxAge o) = false →
          LRUCache.constructor (K := K) (V := V) (LRUCache.ArgOptions o)
          ≠ Ok c).
Proof.
  split_and!.
  - intros w v Hv. by destruct v.
  - intros w x Hx. unfold LRUCache.set_max. by rewrite Hx.
  - intros w v Hv. by destruct v.
  - intros o Ht Hn. unfold LRUCache.constructor. by rewrite Ht, Hn.
  - intros o x Ho Hx. unfold LRUCache.constructor. rewrite Ho. simpl.
    rewrite Hx. destruct x as [z|]; [|done].
    simpl in *. destruct (z =? 0) eqn:Hz; [|done].
    apply Z.eqb_eq in Hz. subst z. done.
  - intros o c Ht Hn. unfold LRUCache.constructor.
    destruct (_ && _); [done|]. by rewrite Ht, Hn.
Qed.

End Validation.

Section SetNewKey.
Context {K V : Type} `{EqDecision K}.
Implicit Types (w : World K V) (c : Cache K V) (n : Node) (hit : LEntry.t K V).
Implicit Types (key : K) (value : V).


End SetNewKey.

(** ** [dump] and [load] *)

Section Serialization.
Context {K V : Type} `{EqDecision K}.
Implicit Types (w : World K V) (c : Cache K V) (n : Node) (hit : LEntry.t K V).
Implicit Types (key : K) (value : V) (r : Entry.t K V).

(** A loop whose steps return what a function [g] says and keep [P]. *)
Lemma mapM_pure {A B} (f : A → M (K := K) (V := V) B) (g : A → B)
    (P : World K V → Prop) (Q : A → Prop) :
  (∀ a w, Q a → P w → ∃ w', f a w = (Ok (g a), w') ∧ P w') →
  ∀ l w, Forall Q l → P w → ∃ w', mapM f l w = (Ok (g <$> l), w') ∧ P w'.
Proof.
  intros Hstep l. induction l as [|a l IH]; intros w HQ HP.
  - by exists w.
  - apply Forall_cons in HQ as [Ha HQ].
    destruct (Hstep a w Ha HP) as (w1 & Hr & HP1).
    destruct (IH w1 HQ HP1) as (w2 & Hr2 & HP2).
    exists w2. split; [|done].
    cbn [mapM]. by rewrite (bind_Ok _ _ _ _ _ Hr), (bind_Ok _ _ _ _ _ Hr2).
Qed.

Lemma clock_stands_tick w t b : clock_stands w t → clock_stands (tick_if b w) t.
Proof.
  intros Hc i Hi. rewrite tick_if_clock. apply Hc.
  destruct b; simpl in Hi; lia.
Qed.

Lemma clock_stands_now w t : clock_stands w t → clock w (ticks w) = t.
Proof. intros Hc. by apply Hc. Qed.

(** [dump] at a time [t]: the records of the entries that are not stale, from
    head to tail. *)
Lemma dump_spec w t :
  Inv w → clock_stands w t →
  ∃ w',
    LRUCache.dump w = (Ok (omap (record_at t (self w)) (entries w)), w') ∧
    self w' = self w ∧ nodes w' = nodes w ∧ disposed w' = disposed w.
Proof.
  intros HI Hc. unfold LRUCache.dump. unfold bind at 1, this.
  destruct (mapM_pure
    (λ node, hit <- node_value node ;;
             stale <- isStale hit ;;
             ret (if stale then None
                  else Some (Entry.mk (LEntry.key hit) (LEntry.value hit)
                               (JS.add (LEntry.now hit)
                                  (JS.or_num (LEntry.maxAge hit) (Fin 0))))))
    (λ n, nodes w !! n ≫= record_at t (self w))
    (λ w', self w' = self w ∧ nodes w' = nodes w ∧ disposed w' = disposed w
           ∧ clock_stands w' t)
    (λ n, is_Some (nodes w !! n)))
    with (l := LRU_LIST (self w)) (w := w) as (w' & Hr & Hs & Hn & Hd & _).
  - intros n w1 [hit Hn] (Hs & Hns & Hd & Hc1).
    unfold bind at 1, node_value. rewrite Hns, Hn.
    unfold bind. rewrite isStale_eq. eexists. split.
    + rewrite (clock_stands_now _ _ Hc1), Hs. simpl. unfold record_at. done.
    + rewrite tick_if_self, tick_if_nodes, tick_if_disposed.
      split_and!; try done. by apply clock_stands_tick.
  - apply Forall_forall. intros n Hn. by apply (inv_alloc _ _ _ _ HI).
  - done.
  - rewrite (bind_Ok _ _ _ _ _ Hr). exists w'. split_and!; try done.
    unfold ret. do 2 f_equal. unfold entries.
    generalize (LRU_LIST (self w)). intros l.
    induction l as [|a l IH]; [done|]. rewrite fmap_cons. cbn [omap list_omap].
    destruct (nodes w !! a) as [hit|]; cbn; [|exact IH].
    destruct (record_at t (self w) hit); cbn; by rewrite IH.
Qed.


(** [reset] empties the cache and keeps its configuration, its nodes and its
    clock. *)
Lemma reset_spec w :
  Inv w →
  ∃ w',
    LRUCache.reset w = (Ok tt, w') ∧ Inv w' ∧
    LRU_LIST (self w') = [] ∧ CACHE (self w') = [] ∧ LENGTH (self w') = 0 ∧
    config (self w') = config (self w) ∧ nodes w' = nodes w ∧
    clock w' = clock w ∧ ticks w' = ticks w.
Proof.
  intros HI. unfold LRUCache.reset. unfold bind at 1, this.
  assert (Hloop : ∃ u w1,
    (if DISPOSE (self w) && negb (Nat.eqb (length (LRU_LIST (self w))) 0)
     then
       _ <- mapM (λ node, hit <- node_value node ;;
                          call_dispose (LEntry.key hit) (LEntry.value hit))
              (LRU_LIST (self w)) ;;
       ret tt
     else ret tt) w = (Ok u, w1) ∧
    self w1 = self w ∧ nodes w1 = nodes w ∧ clock w1 = clock w ∧
    ticks w1 = ticks w).
  { destruct (DISPOSE (self w) && _); [|by exists tt, w].
    destruct (mapM_loop
      (λ node, hit <- node_value node ;;
               call_dispose (LEntry.key hit) (LEntry.value hit))
      (λ l w1, (∀ n, n ∈ l → is_Some (nodes w !! n)) ∧
               self w1 = self w ∧ nodes w1 = nodes w ∧ clock w1 = clock w ∧
               ticks w1 = ticks w))
      with (l := LRU_LIST (self w)) (w := w) as (bs & w1 & Hr & _ & Hf).
    - intros n l w1 (Hal & Hs & Hn & Hc & Ht).
      destruct (Hal n) as [hit Hhit]; [by left|].
      unfold bind at 1, node_value. rewrite Hn, Hhit.
      unfold call_dispose. eexists _, _. split; [reflexivity|].
      split; [intros x Hx; apply Hal; by right|done].
    - split; [|done]. intros n Hn. by apply (inv_alloc _ _ _ _ HI).
    - exists tt, w1. by rewrite (bind_Ok _ _ _ _ _ Hr). }
  destruct Hloop as (u & w1 & Hr & Hs & Hn & Hc & Ht).
  rewrite (bind_Ok _ _ _ _ _ Hr).
  unfold bind, modify. eexists. split; [reflexivity|].
  simpl. rewrite Hs. split_and!; try done. apply Consistent_nil.
Qed.

Lemma records_weight_app c rs1 rs2 :
  records_weight c (rs1 ++ rs2) = records_weight c rs1 + records_weight c rs2.
Proof. induction rs1 as [|r rs1 IH]; simpl; [done|]. rewrite IH. lia. Qed.

Lemma records_weight_rev c rs : records_weight c (rev rs) = records_weight c rs.
Proof.
  induction rs as [|r rs IH]; simpl; [done|].
  rewrite records_weight_app, IH. simpl. lia.
Qed.

Lemma gt_le_false z z' m : z' ≤ z → JS.gt z m = false → JS.gt z' m = false.
Proof.
  destruct m as [x|]; simpl; [|done].
  rewrite !Z.ltb_ge. lia.
Qed.

Lemma entries_inserted hit w :
  Inv w → entries (inserted hit w) = hit :: entries w.
Proof.
  intros HI. unfold entries. rewrite inserted_list, inserted_nodes.
  cbn [omap list_omap]. rewrite lookup_app_r by lia.
  rewrite Nat.sub_diag. cbn. f_equal.
  pose proof (inv_alloc _ _ _ _ HI) as Hal.
  revert Hal. generalize (LRU_LIST (self w)). intros l Hal.
  induction l as [|n l IH]; [done|]. cbn [omap list_omap].
  destruct (Hal n) as [x Hx]; [by left|].
  rewrite lookup_app_l by (by eapply lookup_lt_Some).
  rewrite Hx. cbn. f_equal. apply IH. intros y Hy. apply Hal. by right.
Qed.

Lemma entries_set_start w maxAge : entries (set_start w maxAge) = entries w.
Proof. unfold entries. by rewrite set_start_self, set_start_nodes. Qed.


Lemma config_LENGTH_CALCULATOR c c' :
  config c' = config c → LENGTH_CALCULATOR c' = LENGTH_CALCULATOR c.
Proof. unfold config. by intros [= _ -> _ _ _ _ _]. Qed.

Lemma reload_arg_valid t r : valid_maxAge (reload_arg t r) = true.
Proof.
  unfold reload_arg. destruct (JS.is_zero _); [done|].
  unfold valid_maxAge. simpl. apply orb_true_r.
Qed.

Lemma positive_truthy x : JS.positive x = true → JS.truthy_num x = true.
Proof.
  destruct x as [z|]; simpl; [|done].
  rewrite Z.ltb_lt. intros Hz. apply negb_true_iff, Z.eqb_neq. lia.
Qed.

Lemma reload_arg_maxAge c t r :
  survives t r = true → set_maxAge_of c (reload_arg t r) = reload_maxAge c t r.
Proof.
  unfold survives, reload_arg, reload_maxAge, set_maxAge_of.
  destruct (JS.is_zero (expiry_of r)); simpl; [done|].
  intros Hp. unfold JS.or. simpl. by rewrite (positive_truthy _ Hp).
Qed.

(** The entry [set] makes of a surviving record is the reloaded one. *)
Lemma set_entry_reloaded w c t r :
  config (self w) = config c → clock w (ticks w) = t → survives t r = true →
  set_entry w (Entry.k r) (Entry.v r) (reload_arg t r) = reloaded c t r.
Proof.
  intros Hcfg Hck Hs. unfold set_entry, reloaded, set_now_of.
  rewrite (reload_arg_maxAge _ _ _ Hs), Hck.
  rewrite (config_LENGTH_CALCULATOR _ _ Hcfg).
  unfold reload_maxAge. by rewrite (config_MAX_AGE _ _ Hcfg).
Qed.

(** What [load] does with one record. *)
Lemma load_step_eq (t : Z) r w :
  (let expiresAt := JS.or_num (Entry.e r) (Fin 0) in
   if JS.is_zero expiresAt then
     _ <- LRUCache.set (Entry.k r) (Entry.v r) JUndefined ;;
     ret tt
   else
     let maxAge := JS.sub expiresAt t in
     if JS.positive maxAge then
       _ <- LRUCache.set (Entry.k r) (Entry.v r) (JNumber maxAge) ;;
       ret tt
     else ret tt) w
  = if survives t r
    then (_ <- LRUCache.set (Entry.k r) (Entry.v r) (reload_arg t r) ;; ret tt) w
    else (Ok tt, w).
Proof.
  unfold survives, reload_arg, expiry_of. cbv zeta.
  destruct (JS.is_zero _); simpl; [done|].
  by destruct (JS.positive _).
Qed.


Lemma clock_stands_set_start w t maxAge :
  clock_stands w t → clock_stands (set_start w maxAge) t.
Proof. apply clock_stands_tick. Qed.

(** The loop of [load] over records with distinct keys that are not in the
    cache and fit together into what is left of the capacity: each surviving
    record becomes the head of the list. *)
Lemma load_loop c (t : Z) rs : ∀ w,
  Inv w → config (self w) = config c → clock_stands w t →
  (∀ r, r ∈ rs → absent (Entry.k r) w) →
  NoDup (Entry.k <$> rs) →
  (∀ r, r ∈ rs → 0 ≤ LENGTH_CALCULATOR c (Entry.v r) (Entry.k r)) →
  0 ≤ LENGTH (self w) →
  JS.gt (LENGTH (self w) + records_weight c rs) (MAX c) = false →
  ∃ u w',
    mapM (λ r,
      let expiresAt := JS.or_num (Entry.e r) (Fin 0) in
      if JS.is_zero expiresAt then
        _ <- LRUCache.set (Entry.k r) (Entry.v r) JUndefined ;;
        ret tt
      else
        let maxAge := JS.sub expiresAt t in
        if JS.positive maxAge then
          _ <- LRUCache.set (Entry.k r) (Entry.v r) (JNumber maxAge) ;;
          ret tt
        else ret tt) rs w = (Ok u, w') ∧
    Inv w' ∧ config (self w') = config c ∧
    entries w'
    = rev (reloaded c t <$> filter (λ r, survives t r = true) rs) ++ entries w.
Proof.
  induction rs as [|r rs IH]; intros w HI Hcfg Hck Habs Hnd Hpos Hlen Hcap.
  - by exists [], w.
  - apply NoDup_cons in Hnd as [Hr Hnd]. cbn [mapM].
    unfold bind at 1. rewrite load_step_eq.
    assert (Hpos' : ∀ r', r' ∈ rs →
              0 ≤ LENGTH_CALCULATOR c (Entry.v r') (Entry.k r')).
    { intros r' Hr'. apply Hpos. by right. }
    assert (Hw : 0 ≤ records_weight c rs).
    { clear -Hpos'. induction rs as [|x rs IH]; simpl; [done|].
      assert (0 ≤ LENGTH_CALCULATOR c (Entry.v x) (Entry.k x))
        by (apply Hpos'; by left).
      assert (0 ≤ records_weight c rs)
        by (apply IH; intros y Hy; apply Hpos'; by right).
      lia. }
    assert (Hr0 : 0 ≤ LENGTH_CALCULATOR c (Entry.v r) (Entry.k r))
      by (apply Hpos; by left).
    cbn [records_weight foldr] in Hcap. fold (records_weight c rs) in Hcap.
    destruct (survives t r) eqn:Hs.
    + set (arg := reload_arg t r).
      set (w1 := inserted (set_entry w (Entry.k r) (Entry.v r) arg)
                   (set_start w arg)).
      assert (Hset : LRUCache.set (Entry.k r) (Entry.v r) arg w = (Ok true, w1)).
      { rewrite set_absent_fits.
        - rewrite (bind_Ok _ _ _ tt w1); [done|]. apply trim_noop.
          unfold w1. simpl. rewrite set_start_self.
          rewrite (config_LENGTH_CALCULATOR _ _ Hcfg), (config_MAX _ _ Hcfg).
          eapply gt_le_false; [|exact Hcap]. lia.
        - apply reload_arg_valid.
        - apply Habs. by left.
        - rewrite (config_LENGTH_CALCULATOR _ _ Hcfg), (config_MAX _ _ Hcfg).
          eapply gt_le_false; [|exact Hcap]. lia. }
      rewrite (bind_Ok _ _ _ _ _ Hset). unfold ret at 1.
      assert (HI1 : Inv w1).
      { apply inserted_Inv; [by apply set_start_Inv|].
        cbn [set_entry LEntry.key]. rewrite set_start_self. apply Habs. by left. }
      destruct (IH w1) as (u & w' & Hrun & HI' & Hcfg' & Hent); try done.
      * unfold w1. by rewrite inserted_config, set_start_config.
      * unfold w1. intros i Hi. simpl in *.
        apply (clock_stands_set_start w t arg Hck). exact Hi.
      * intros r' Hr'. unfold absent, w1. rewrite inserted_index.
        cbn [set_entry LEntry.key]. rewrite set_start_self.
        rewrite Map_get_set_ne.
        -- apply Habs. by right.
        -- intros Heq. apply Hr. rewrite <- Heq. apply list_elem_of_fmap.
           by exists r'.
      * unfold w1. simpl. rewrite set_start_self.
        rewrite (config_LENGTH_CALCULATOR _ _ Hcfg). lia.
      * unfold w1. simpl. rewrite set_start_self.
        rewrite (config_LENGTH_CALCULATOR _ _ Hcfg).
        eapply gt_le_false; [|exact Hcap]. lia.
      * rewrite (bind_Ok _ _ _ _ _ Hrun). eexists _, w'. split; [done|].
        split_and!; try done. rewrite Hent.
        rewrite (filter_cons_True (λ r, survives t r = true)) by exact Hs.
        rewrite fmap_cons. cbn [rev]. rewrite <- app_assoc. f_equal.
        unfold w1. rewrite entries_inserted by (by apply set_start_Inv).
        rewrite entries_set_start. cbn [app]. f_equal.
        apply set_entry_reloaded; [done| |done]. by apply clock_stands_now.
    + destruct (IH w) as (u & w' & Hrun & HI' & Hcfg' & Hent); try done.
      * intros r' Hr'. apply Habs. by right.
      * eapply gt_le_false; [|exact Hcap]. lia.
      * rewrite (bind_Ok _ _ _ _ _ Hrun). eexists _, w'. split; [done|].
        split_and!; try done. rewrite Hent.
        rewrite (filter_cons_False (λ r, survives t r = true)); [done|].
        by rewrite Hs.
Qed.


Lemma rev_is_reverse {A} (l : list A) : rev l = reverse l.
Proof. apply rev_alt. Qed.

Lemma rev_fmap_filter_rev {A B} (f : A → B) (P : A → Prop)
    `{∀ x, Decision (P x)} (l : list A) :
  rev (f <$> filter P (rev l)) = f <$> filter P l.
Proof.
  rewrite !rev_is_reverse.
  by rewrite filter_reverse, fmap_reverse, reverse_involutive.
Qed.

(** [load] of records with distinct keys that fit together into the
    capacity, at a time [t]: the cache holds the entries of the records that
    have no expiry or time left, in the order of the records. *)
Lemma load_spec w arr (t : Z) :
  Inv w → clock_stands w t →
  NoDup (Entry.k <$> arr) →
  (∀ r, r ∈ arr → 0 ≤ LENGTH_CALCULATOR (self w) (Entry.v r) (Entry.k r)) →
  JS.gt (records_weight (self w) arr) (MAX (self w)) = false →
  ∃ w',
    LRUCache.load arr w = (Ok tt, w') ∧ Inv w' ∧
    config (self w') = config (self w) ∧
    entries w' = reloaded (self w) t <$> filter (λ r, survives t r = true) arr.
Proof.
  intros HI Hck Hnd Hpos Hcap. unfold LRUCache.load.
  destruct (reset_spec w HI)
    as (w0 & Hr & HI0 & Hl0 & Hm0 & Hlen0 & Hcfg0 & Hn0 & Hc0 & Ht0).
  rewrite (bind_Ok _ _ _ _ _ Hr).
  unfold bind at 1, Date_now.
  assert (Hnow : clock w0 (ticks w0) = t).
  { rewrite Hc0, Ht0. by apply clock_stands_now. }
  rewrite Hnow.
  set (w1 := with_ticks (S (ticks w0)) w0).
  destruct (load_loop (self w) t (rev arr) w1)
    as (u & w' & Hrun & HI' & Hcfg' & Hent); try done.
  - intros i Hi. unfold w1 in *. simpl in *. rewrite Hc0. apply Hck. lia.
  - intros r _. unfold absent, w1. simpl. by rewrite Hm0.
  - rewrite rev_is_reverse, fmap_reverse. by rewrite reverse_Permutation.
  - intros r Hr'. apply Hpos. rewrite rev_is_reverse in Hr'.
    by rewrite elem_of_reverse in Hr'.
  - unfold w1. simpl. by rewrite Hlen0.
  - unfold w1. simpl. rewrite Hlen0, records_weight_rev. exact Hcap.
  - rewrite (bind_Ok _ _ _ _ _ Hrun). exists w'. split; [done|].
    split_and!; try done. rewrite Hent.
    replace (entries w1) with (@nil (LEntry.t K V))
      by (unfold entries, w1; simpl; by rewrite Hl0).
    rewrite app_nil_r. apply rev_fmap_filter_rev.
Qed.


Lemma list_keys_entries w : list_keys w = LEntry.key <$> entries w.
Proof.
  unfold list_keys, entries, key_of.
  induction (LRU_LIST (self w)) as [|n l IH]; [done|]. cbn [omap list_omap].
  destruct (nodes w !! n); cbn; by rewrite IH.
Qed.

Lemma total_entries w :
  total (nodes w) (LRU_LIST (self w))
  = foldr (λ hit acc, LEntry.length hit + acc) 0 (entries w).
Proof.
  unfold total, entries, weight.
  induction (LRU_LIST (self w)) as [|n l IH]; [done|]. cbn [omap list_omap foldr].
  destruct (nodes w !! n); cbn; rewrite IH; lia.
Qed.

Lemma record_at_key t c hit r :
  record_at t c hit = Some r →
  Entry.k r = LEntry.key hit ∧ Entry.v r = LEntry.value hit.
Proof. unfold record_at. destruct (stale_at t c hit); [done|]. by intros [= <-]. Qed.

Lemma dumped_keys_sublist t c (es : list (LEntry.t K V)) :
  sublist (Entry.k <$> omap (record_at t c) es) (LEntry.key <$> es).
Proof.
  induction es as [|hit es IH]; [done|]. cbn [omap list_omap].
  destruct (record_at t c hit) as [r|] eqn:Hr; cbn.
  - apply record_at_key in Hr as [-> _]. by apply sublist_skip.
  - by apply sublist_cons.
Qed.

Lemma dumped_weight t c (es : list (LEntry.t K V)) :
  (∀ hit, hit ∈ es → weighed c hit) →
  (∀ r, r ∈ omap (record_at t c) es →
        0 ≤ LENGTH_CALCULATOR c (Entry.v r) (Entry.k r)) ∧
  0 ≤ records_weight c (omap (record_at t c) es) ∧
  records_weight c (omap (record_at t c) es)
  ≤ foldr (λ hit acc, LEntry.length hit + acc) 0 es.
Proof.
  induction es as [|hit es IH]; intros Hw.
  - split_and!; [|done..]. intros r Hr. by apply elem_of_nil in Hr.
  - destruct IH as (IH1 & IH2 & IH3); [intros x Hx; apply Hw; by right|].
    destruct (Hw hit) as [Hlen Hpos]; [by left|].
    cbn [omap list_omap foldr].
    destruct (record_at t c hit) as [r|] eqn:Hr; cbn.
    + apply record_at_key in Hr as [Hk Hv]. rewrite Hk, Hv, <- Hlen.
      fold (records_weight c (omap (record_at t c) es)).
      split_and!; [|lia..].
      intros r' [->|Hr']%elem_of_cons; [|by apply IH1].
      by rewrite Hk, Hv, <- Hlen.
    + split_and!; [done|done|lia].
Qed.

(** The round trip.  A cache within its capacity is dumped at a time
    [t_dump] and the dump loaded at a time [t_load] into a cache of the same
    configuration.  The copy holds, in the order of the source, an entry for
    each entry of the source that was not stale at [t_dump] and whose record
    has no expiry or time left at [t_load]. *)
Theorem dump_load_round_trip (src dst : World K V) (t_dump t_load : Z) :
  Inv src → Inv dst → config (self dst) = config (self src) →
  clock_stands src t_dump → clock_stands dst t_load →
  (∀ hit, hit ∈ entries src → weighed (self src) hit) →
  JS.gt (LENGTH (self src)) (MAX (self src)) = false →
  ∃ arr src' dst',
    LRUCache.dump src = (Ok arr, src') ∧
    LRUCache.load arr dst = (Ok tt, dst') ∧ Inv dst' ∧
    arr = omap (record_at t_dump (self src)) (entries src) ∧
    entries dst'
    = reloaded (self src) t_load <$> filter (λ r, survives t_load r = true) arr.
Proof.
  intros HIs HId Hcfg Hcs Hcd Hw Hcap.
  destruct (dump_spec src t_dump HIs Hcs) as (src' & Hdump & _).
  destruct (dumped_weight t_dump (self src) (entries src) Hw) as (Hpos & _ & Hle).
  destruct (load_spec dst (omap (record_at t_dump (self src)) (entries src)) t_load)
    as (dst' & Hload & HI' & Hcfg' & Hent); try done.
  - eapply sublist_NoDup; [|apply dumped_keys_sublist].
    rewrite <- list_keys_entries. by apply list_keys_NoDup.
  - intros r Hr. rewrite (config_LENGTH_CALCULATOR _ _ Hcfg). by apply Hpos.
  - rewrite (config_MAX _ _ Hcfg).
    eapply gt_le_false; [|exact Hcap].
    rewrite (inv_total _ _ _ _ HIs), total_entries.
    etrans; [|exact Hle].
    clear -Hcfg. induction (omap _ _) as [|r rs IH]; simpl; [done|].
    rewrite (config_LENGTH_CALCULATOR _ _ Hcfg). lia.
  - eexists _, src', dst'. split_and!; try done.
    rewrite Hent. apply list_fmap_ext. intros _ r _.
    unfold reloaded, reload_maxAge.
    by rewrite (config_LENGTH_CALCULATOR _ _ Hcfg), (config_MAX_AGE _ _ Hcfg).
Qed.

(** A record with an expiry is reloaded with the expiry it has. *)
Lemma reloaded_expiry c (t : Z) r :
  survives t r = true → JS.is_zero (expiry_of r) = false →
  JS.add (LEntry.now (reloaded c t r)) (LEntry.maxAge (reloaded c t r))
  = expiry_of r.
Proof.
  unfold survives, reloaded, reload_maxAge. intros Hs Hz.
  rewrite Hz in *. simpl in Hs. cbn [LEntry.now LEntry.maxAge].
  rewrite (positive_truthy _ Hs).
  destruct (expiry_of r) as [e|]; simpl; [|done]. f_equal. lia.
Qed.

(** Without a TTL anywhere, the copy holds the entries of the source: if the
    cache has no TTL and every entry carries the stamp of an entry that never
    expires, the round trip gives the same entries in the same order. *)
Theorem dump_load_round_trip_unstamped (src dst : World K V) (t_dump t_load : Z) :
  Inv src → Inv dst → config (self dst) = config (self src) →
  clock_stands src t_dump → clock_stands dst t_load →
  (∀ hit, hit ∈ entries src → weighed (self src) hit ∧ unstamped hit) →
  JS.gt (LENGTH (self src)) (MAX (self src)) = false →
  MAX_AGE (self src) = Fin 0 →
  ∃ arr src' dst',
    LRUCache.dump src = (Ok arr, src') ∧
    LRUCache.load arr dst = (Ok tt, dst') ∧ Inv dst' ∧
    entries dst' = entries src.
Proof.
  intros HIs HId Hcfg Hcs Hcd Hw Hcap Hage.
  destruct (dump_load_round_trip src dst t_dump t_load)
    as (arr & src' & dst' & Hdump & Hload & HI' & -> & Hent); try done.
  { intros hit Hhit. by apply Hw. }
  eexists _, src', dst'. split_and!; try done. rewrite Hent. clear -Hw Hage.
  induction (entries src) as [|hit es IH]; [done|].
  destruct (Hw hit) as [[Hlen _] [Hnow Hma]]; [by left|].
  assert (Hrec : record_at t_dump (self src) hit
                 = Some (Entry.mk (LEntry.key hit) (LEntry.value hit) (Fin 0))).
  { unfold record_at, stale_at, ttl. by rewrite Hma, Hage, Hnow. }
  change (omap (record_at t_dump (self src)) (hit :: es))
    with (match record_at t_dump (self src) hit with
          | Some r => r :: omap (record_at t_dump (self src)) es
          | None => omap (record_at t_dump (self src)) es
          end).
  rewrite Hrec.
  rewrite (filter_cons_True (λ r, survives t_load r = true)) by done.
  rewrite fmap_cons. f_equal.
  - unfold reloaded, reload_maxAge, expiry_of. cbn. rewrite Hage. cbn.
    destruct hit as [k v len now ma]. cbn in *. by subst.
  - apply IH. intros x Hx. apply Hw. by right.
Qed.

End Serialization.

Lemma still_world_new t :
  LRUCache.new
    (LRUCache.ArgOptions
       (Options.mk (JNumber (Fin 5)) JUndefined None false
          JUndefined JUndefined JUndefined))
    (λ _, t)
  = Ok (still_world t).
Proof. reflexivity. Qed.

Lemma still_world_Inv t (ops : list call) : Inv (perform_all ops (still_world t)).
Proof. apply perform_all_Inv, (new_Inv _ _ _ (still_world_new t)). Qed.

(** The round trip of a cache with an entry that never expires, one that
    expires at 1500 and one that expires at 1100, dumped at time 1000 and
    loaded at time 1200: the first two come back, in their order, the second
    with the 300 milliseconds it has left. *)
Lemma dump_load_round_trip_mixed :
  ∃ arr src' dst',
    LRUCache.dump still_mixed = (Ok arr, src') ∧
    LRUCache.load arr (still_world 1200) = (Ok tt, dst') ∧
    entries still_mixed
    = [LEntry.mk "c" 3 1 1000 (Fin 100); LEntry.mk "b" 2 1 1000 (Fin 500);
       LEntry.mk "a" 1 1 0 (Fin 0)] ∧
    entries dst'
    = [LEntry.mk "b" 2 1 1200 (Fin 300); LEntry.mk "a" 1 1 0 (Fin 0)].
Proof.
  destruct (dump_load_round_trip still_mixed (still_world 1200) 1000 1200)
    as (arr & src' & dst' & Hdump & Hload & _ & -> & Hent).
  - apply still_world_Inv.
  - apply (still_world_Inv 1200 []).
  - reflexivity.
  - intros i _. reflexivity.
  - intros i _. reflexivity.
  - intros hit Hhit. vm_compute in Hhit.
    repeat (apply elem_of_cons in Hhit as [->|Hhit]; [by split|]).
    by apply elem_of_nil in Hhit.
  - reflexivity.
  - eexists _, src', dst'. split_and!; [exact Hdump|exact Hload|reflexivity|].
    rewrite Hent. reflexivity.
Qed.

(** The round trip of a cache without TTL: the copy holds the entries of the
    source, the one last read first. *)
Lemma dump_load_round_trip_plain :
  ∃ arr src' dst',
    LRUCache.dump still_plain = (Ok arr, src') ∧
    LRUCache.load arr (still_world 1200) = (Ok tt, dst') ∧ Inv dst' ∧
    entries dst' = entries still_plain ∧
    list_keys dst' = ["a"; "b"].
Proof.
  destruct (dump_load_round_trip_unstamped still_plain (still_world 1200)
              1000 1200)
    as (arr & src' & dst' & Hdump & Hload & HI & Hent).
  - apply still_world_Inv.
  - apply (still_world_Inv 1200 []).
  - reflexivity.
  - intros i _. reflexivity.
  - intros i _. reflexivity.
  - intros hit Hhit. vm_compute in Hhit.
    repeat (apply elem_of_cons in Hhit as [->|Hhit]; [by split|]).
    by apply elem_of_nil in Hhit.
  - reflexivity.
  - reflexivity.
  - exists arr, src', dst'. split_and!; try done.
    by rewrite list_keys_entries, Hent.
Qed.

Lemma refresh_world_new start :
  LRUCache.new
    (LRUCache.ArgOptions
       (Options.mk JUndefined JUndefined None false
          JUndefined JUndefined (JBool true)))
    (λ i, start + Z.of_nat i)
  = Ok (refresh_world start).
Proof. reflexivity. Qed.

(** C6, where the code departs from it.  With [updateAgeOnGet], an entry that
    never expires and was read once is dumped with the time of that read as
    its expiry instead of 0, and [load]ing the dump into a fresh cache of the
    same configuration, at that time or later, drops it: the key "a" of the
    source is not in the copy.  (Entries that were not read make the round
    trip, as [dump_load_round_trip] and [dump_load_round_trip_unstamped] say
    in general: [mixed] comes back at time 1200 with the same keys in the
    same order, "a" never expiring and "b" expiring at 1501, its 1500 plus
    the millisecond between the two readings of the clock that [load] and
    [set] make.) *)
Theorem dump_load_drops_refreshed_entry :
  (LRUCache.keys refreshed).1 = Ok ["a"]
  ∧ (LRUCache.has "a" refreshed).1 = Ok true
  ∧ nodes refreshed = [LEntry.mk "a" 1 1 1000 (Fin 0)]
  ∧ (LRUCache.dump refreshed).1 = Ok [Entry.mk "a" 1 (Fin 1000)]
  ∧ (LRUCache.load [Entry.mk "a" 1 (Fin 1000)] (refresh_world 1000)).1 = Ok tt
  ∧ (LRUCache.keys
       (LRUCache.load [Entry.mk "a" 1 (Fin 1000)] (refresh_world 1000)).2).1
    = Ok []
  ∧ (LRUCache.keys
       (LRUCache.load [Entry.mk "a" 1 (Fin 1000)] (refresh_world 2000)).2).1
    = Ok []
  ∧ (LRUCache.keys mixed).1 = Ok ["b"; "a"]
  ∧ (LRUCache.dump mixed).1
    = Ok [Entry.mk "b" 2 (Fin 1500); Entry.mk "a" 1 (Fin 0)]
  ∧ (LRUCache.keys
       (LRUCache.load [Entry.mk "b" 2 (Fin 1500); Entry.mk "a" 1 (Fin 0)]
          (refresh_world 1200)).2).1
    = Ok ["b"; "a"]
  ∧ nodes (LRUCache.load [Entry.mk "b" 2 (Fin 1500); Entry.mk "a" 1 (Fin 0)]
             (refresh_world 1200)).2
    = [LEntry.mk "a" 1 1 0 (Fin 0); LEntry.mk "b" 2 1 1201 (Fin 300)].
Proof. by split_and!. Qed.

(** * Further properties of the methods *)

Section Entries.
Context {K V : Type} `{EqDecision K}.
Implicit Types (w : World K V) (c : Cache K V) (n : Node) (hit : LEntry.t K V).
Implicit Types (key : K) (value : V).

Lemma omap_filter_ne (ns ns' : list (LEntry.t K V)) (l : list Node) n (k : K) :
  (∀ x, x ∈ l → x ≠ n → ns' !! x = ns !! x) →
  (∀ x, x ∈ l → ∃ h, ns !! x = Some h ∧ (x = n ↔ LEntry.key h = k)) →
  omap (λ x, ns' !! x) (filter (λ x, x ≠ n) l)
  = filter (λ h, LEntry.key h ≠ k) (omap (λ x, ns !! x) l).
Proof.
  induction l as [|a l IH]; intros Hagree Hkey; [done|].
  assert (IH' : omap (λ x, ns' !! x) (filter (λ x, x ≠ n) l)
                = filter (λ h, LEntry.key h ≠ k) (omap (λ x, ns !! x) l)).
  { apply IH; intros x Hx; [intros Hne; apply Hagree; [by right|done]
                           | apply Hkey; by right]. }
  destruct (Hkey a) as (h & Hh & Hiff); [by left|].
  cbn [omap list_omap]. rewrite Hh.
  destruct (decide (a = n)) as [->|Hne].
  - rewrite filter_cons_False by (intros ?; done).
    rewrite (filter_cons_False (λ h, LEntry.key h ≠ k)); [done|].
    intros Hk. apply Hk. by apply Hiff.
  - rewrite filter_cons_True by done.
    rewrite (filter_cons_True (λ h, LEntry.key h ≠ k)).
    + cbn [omap list_omap]. rewrite (Hagree a) by (done || by left).
      rewrite Hh. by rewrite IH'.
    + intros Hk. apply Hne. by apply Hiff.
Qed.

(** In a consistent cache the node of a key is the only node of the list
    that carries the key. *)
Lemma Inv_node_key w key n :
  Inv w → Map.get key (CACHE (self w)) = Some n →
  ∀ x, x ∈ LRU_LIST (self w) →
    ∃ h, nodes w !! x = Some h ∧ (x = n ↔ LEntry.key h = key).
Proof.
  intros HI Hg x Hx.
  destruct (inv_alloc _ _ _ _ HI x Hx) as [h Hh]. exists h. split; [done|].
  destruct (Consistent_get _ _ _ _ _ _ HI Hg) as (Hin & hit & Hn & Hk).
  split.
  - intros ->. congruence.
  - intros Hkh. pose proof (Consistent_indexed _ _ _ _ _ _ HI Hx Hh) as Hgx.
    rewrite Hkh in Hgx. congruence.
Qed.

Lemma entries_del_world w key n hit :
  Inv w → Map.get key (CACHE (self w)) = Some n → nodes w !! n = Some hit →
  entries (del_world n hit w)
  = filter (λ h, LEntry.key h ≠ key) (entries w).
Proof.
  intros HI Hg Hn. unfold entries. rewrite del_world_list.
  apply omap_filter_ne; [done|]. by apply Inv_node_key.
Qed.

Lemma entries_tick_if b w : entries (tick_if b w) = entries w.
Proof. by destruct b. Qed.

Lemma entries_promoted w key n hit :
  Inv w → Map.get key (CACHE (self w)) = Some n → nodes w !! n = Some hit →
  entries (promoted n hit (tick_if (JS.truthy_num (ttl (self w) hit)) w))
  = touched w hit :: filter (λ h, LEntry.key h ≠ key) (entries w).
Proof.
  intros HI Hg Hn.
  destruct (Consistent_get _ _ _ _ _ _ HI Hg) as (Hin & _).
  set (w1 := tick_if _ w).
  assert (Hl : LRU_LIST (self (promoted n hit w1))
               = n :: filter (λ x, x ≠ n) (LRU_LIST (self w))).
  { unfold promoted, w1. simpl. by rewrite tick_if_self. }
  unfold entries. rewrite Hl. cbn [omap list_omap].
  assert (Hhead : nodes (promoted n hit w1) !! n = Some (touched w hit)).
  { unfold promoted, touched, w1. rewrite tick_if_self.
    destruct (UPDATE_AGE_ON_GET (self w)); simpl.
    - rewrite tick_if_nodes, tick_if_clock.
      apply list_lookup_insert_eq. by eapply lookup_lt_Some.
    - by rewrite tick_if_nodes. }
  rewrite Hhead. cbn. f_equal.
  apply omap_filter_ne; [|by apply Inv_node_key].
  intros x _ Hne. unfold promoted, w1. rewrite tick_if_self.
  destruct (UPDATE_AGE_ON_GET (self w)); simpl; rewrite tick_if_nodes; [|done].
  by apply list_lookup_insert_ne.
Qed.

End Entries.
Section Access.
Context {K V : Type} `{EqDecision K}.
Implicit Types (w : World K V) (c : Cache K V) (n : Node) (hit : LEntry.t K V).
Implicit Types (key : K) (value : V).

(** X1. On a key that is not in the cache, [get] and [peek] return
    [undefined], [has] returns [false] and [del] returns, and none of them
    changes anything: no clock reading, no call of the dispose callback. *)
Theorem missing_key_changes_nothing w key :
  absent key w →
  LRUCache.get key w = (Ok None, w) ∧
  LRUCache.peek key w = (Ok None, w) ∧
  LRUCache.has key w = (Ok false, w) ∧
  LRUCache.del key w = (Ok tt, w).
Proof.
  intros Ha. unfold absent in Ha. split_and!.
  - by apply get_absent.
  - by apply get_absent.
  - by apply has_absent.
  - unfold LRUCache.del, bind, this. by rewrite Ha.
Qed.



(** X4. [get(key)] on an entry that is not stale returns its value and makes
    it the most recently used: its entry moves to the head of the list, the
    other entries keep their order, nothing is evicted or disposed of, and
    the index and the total are as before.  With [updateAgeOnGet] the entry
    is stamped with the time of the call. *)
Theorem get_promotes_to_head w key n hit :
  Inv w → Map.get key (CACHE (self w)) = Some n → nodes w !! n = Some hit →
  stale_at (clock w (ticks w)) (self w) hit = false →
  ∃ w',
    LRUCache.get key w = (Ok (Some (LEntry.value hit)), w') ∧ Inv w' ∧
    entries w'
    = touched w hit :: filter (λ h, LEntry.key h ≠ key) (entries w) ∧
    CACHE (self w') = CACHE (self w) ∧
    LENGTH (self w') = LENGTH (self w) ∧
    disposed w' = disposed w ∧ config (self w') = config (self w).
Proof.
  intros HI Hg Hn Hfresh.
  destruct (Consistent_get _ _ _ _ _ _ HI Hg) as (Hin & _).
  unfold LRUCache.get. rewrite (get_present w key true n hit) by done.
  cbv zeta. rewrite Hfresh.
  set (w1 := tick_if _ w).
  exists (promoted n hit w1). split_and!.
  - done.
  - apply promoted_Inv; unfold w1.
    + by apply tick_if_Inv.
    + by rewrite tick_if_nodes.
    + by rewrite tick_if_self.
  - by apply entries_promoted.
  - unfold promoted, w1. simpl. by rewrite tick_if_self.
  - unfold promoted, w1. simpl. by rewrite tick_if_self.
  - unfold promoted, w1. rewrite tick_if_self.
    destruct (UPDATE_AGE_ON_GET (self w)); simpl; by rewrite tick_if_disposed.
  - rewrite promoted_config. apply tick_if_config.
Qed.

(** X5. [peek(key)] on an entry that is not stale returns its value and
    leaves the cache as it is: the recency order, the entries (no new stamp,
    [updateAgeOnGet] or not), the index and the dispose log. *)
Theorem peek_leaves_order w key n hit :
  Inv w → Map.get key (CACHE (self w)) = Some n → nodes w !! n = Some hit →
  stale_at (clock w (ticks w)) (self w) hit = false →
  ∃ w',
    LRUCache.peek key w = (Ok (Some (LEntry.value hit)), w') ∧
    self w' = self w ∧ nodes w' = nodes w ∧ disposed w' = disposed w ∧
    clock w' = clock w.
Proof.
  intros HI Hg Hn Hfresh.
  destruct (Consistent_get _ _ _ _ _ _ HI Hg) as (Hin & _).
  unfold LRUCache.peek. rewrite (get_present w key false n hit) by done.
  cbv zeta. rewrite Hfresh. eexists. split; [done|].
  by rewrite tick_if_self, tick_if_nodes, tick_if_disposed, tick_if_clock.
Qed.

End Access.

Lemma missing_key_changes_nothing_witness :
  LRUCache.get "b" lru_run = (Ok None, lru_run) ∧
  LRUCache.peek "b" lru_run = (Ok None, lru_run) ∧
  LRUCache.has "b" lru_run = (Ok false, lru_run) ∧
  LRUCache.del "b" lru_run = (Ok tt, lru_run).
Proof. apply (missing_key_changes_nothing lru_run "b"). reflexivity. Defined.



Lemma get_promotes_to_head_witness :
  ∃ w',
    LRUCache.get "a" lru_run = (Ok (Some 1), w') ∧ Inv w' ∧
    entries w'
    = touched lru_run (LEntry.mk "a" 1 1 0 (Fin 0))
      :: filter (λ h, LEntry.key h ≠ "a") (entries lru_run) ∧
    CACHE (self w') = CACHE (self lru_run) ∧
    LENGTH (self w') = LENGTH (self lru_run) ∧
    disposed w' = disposed lru_run ∧ config (self w') = config (self lru_run).
Proof.
  apply (get_promotes_to_head lru_run "a" 0%nat (LEntry.mk "a" 1 1 0 (Fin 0))).
  - apply lru_world_Inv.
  - reflexivity.
  - reflexivity.
  - reflexivity.
Defined.

Lemma peek_leaves_order_witness :
  ∃ w',
    LRUCache.peek "a" lru_run = (Ok (Some 1), w') ∧
    self w' = self lru_run ∧ nodes w' = nodes lru_run ∧
    disposed w' = disposed lru_run ∧ clock w' = clock lru_run.
Proof.
  apply (peek_leaves_order lru_run "a" 0%nat (LEntry.mk "a" 1 1 0 (Fin 0))).
  - apply lru_world_Inv.
  - reflexivity.
  - reflexivity.
  - reflexivity.
Defined.
Section Listing.
Context {K V : Type} `{EqDecision K}.
Implicit Types (w : World K V) (c : Cache K V) (n : Node) (hit : LEntry.t K V).
Implicit Types (key : K) (value : V).

(** A loop that reads each node and computes [h] of its entry. *)
Lemma read_loop {B} (h : LEntry.t K V → B) (l : list Node) w :
  (∀ n, n ∈ l → is_Some (nodes w !! n)) →
  mapM (λ node, k <- node_value node ;; ret (h k)) l w
  = (Ok (h <$> omap (λ n, nodes w !! n) l), w).
Proof.
  induction l as [|a l IH]; intros Hal; [done|].
  destruct (Hal a) as [hit Hhit]; [by left|].
  cbn [mapM omap list_omap]. unfold bind at 1. unfold bind at 1, node_value.
  rewrite Hhit. cbn. unfold ret at 1.
  rewrite (bind_Ok _ _ _ _ _ (IH (λ n Hn, Hal n (list_elem_of_further _ _ _ Hn)))).
  done.
Qed.

(** X6. [keys()] and [values()] return the keys and the values of the entries
    from the most to the least recently used, stale entries included, and
    change nothing.  Each key comes once, the keys are those of the index,
    and [itemCount] is their number. *)
Theorem keys_and_values_in_recency_order w :
  Inv w →
  LRUCache.keys w = (Ok (LEntry.key <$> entries w), w) ∧
  LRUCache.values w = (Ok (LEntry.value <$> entries w), w) ∧
  LRUCache.itemCount w = (Ok (length (entries w)), w) ∧
  NoDup (LEntry.key <$> entries w) ∧
  (∀ k, k ∈ LEntry.key <$> entries w ↔ Map.has k (CACHE (self w)) = true).
Proof.
  intros HI. pose proof (inv_alloc _ _ _ _ HI) as Hal. split_and!.
  - unfold LRUCache.keys, bind at 1, this. by apply read_loop.
  - unfold LRUCache.values, bind at 1, this. by apply read_loop.
  - unfold LRUCache.itemCount, bind, this, ret. do 2 f_equal.
    rewrite <- (list_keys_length w HI), list_keys_entries.
    by rewrite length_fmap.
  - rewrite <- list_keys_entries. by apply list_keys_NoDup.
  - intros k. rewrite <- list_keys_entries, (list_keys_elem w k HI).
    rewrite Map_has_get, <- not_eq_None_Some, Map_get_None_keys.
    split; [tauto|]. apply dec_stable.
Qed.

(** The loop of [reset]: one call of the dispose callback per node, from the
    head to the tail. *)
Lemma dispose_loop (l : list Node) : ∀ w,
  (∀ n, n ∈ l → is_Some (nodes w !! n)) →
  ∃ bs w',
    mapM (λ node, hit <- node_value node ;;
                  call_dispose (LEntry.key hit) (LEntry.value hit)) l w
    = (Ok bs, w') ∧
    self w' = self w ∧ nodes w' = nodes w ∧ clock w' = clock w ∧
    ticks w' = ticks w ∧
    disposed w' = disposed w ++ pairs_of (nodes w) l.
Proof.
  induction l as [|a l IH]; intros w Hal.
  - exists [], w. split_and!; try done. unfold pairs_of. simpl.
    by rewrite app_nil_r.
  - destruct (Hal a) as [hit Hhit]; [by left|].
    set (w1 := with_disposed
                 (disposed w ++ [(LEntry.key hit, LEntry.value hit)]) w).
    destruct (IH w1) as (bs & w' & Hr & Hs & Hn & Hc & Ht & Hd).
    { intros n Hn. apply Hal. by right. }
    eexists _, w'. split_and!; try done.
    + cbn [mapM]. unfold bind at 1. unfold bind at 1, node_value.
      rewrite Hhit. unfold call_dispose. fold w1.
      by rewrite (bind_Ok _ _ _ _ _ Hr).
    + rewrite Hd. unfold w1, pairs_of. cbn [omap list_omap nodes disposed].
      rewrite Hhit. cbn. by rewrite <- app_assoc.
Qed.

(** X7. [reset()] empties the cache: no entry, an empty index and a total
    of 0 are left, the configuration stays, and the dispose callback, if
    there is one, is called once for every entry that was in the cache, from
    the most to the least recently used. *)
Theorem reset_disposes_every_entry w :
  Inv w →
  ∃ w',
    LRUCache.reset w = (Ok tt, w') ∧ Inv w' ∧
    entries w' = [] ∧ CACHE (self w') = [] ∧ LENGTH (self w') = 0 ∧
    config (self w') = config (self w) ∧
    disposed w'
    = disposed w ++ disposals (self w) (nodes w) (LRU_LIST (self w)).
Proof.
  intros HI. unfold LRUCache.reset. unfold bind at 1, this.
  assert (Hloop : ∃ u w1,
    (if DISPOSE (self w) && negb (Nat.eqb (length (LRU_LIST (self w))) 0)
     then
       _ <- mapM (λ node, hit <- node_value node ;;
                          call_dispose (LEntry.key hit) (LEntry.value hit))
              (LRU_LIST (self w)) ;;
       ret tt
     else ret tt) w = (Ok u, w1) ∧
    self w1 = self w ∧
    disposed w1
    = disposed w ++ disposals (self w) (nodes w) (LRU_LIST (self w))).
  { unfold disposals. destruct (DISPOSE (self w)); simpl.
    - destruct (Nat.eqb _ 0) eqn:Hz; simpl.
      + apply Nat.eqb_eq, nil_length_inv in Hz. rewrite Hz.
        exists tt, w. unfold pairs_of. simpl. by rewrite app_nil_r.
      + destruct (dispose_loop (LRU_LIST (self w)) w (inv_alloc _ _ _ _ HI))
          as (bs & w1 & Hr & Hs & _ & _ & _ & Hd).
        exists tt, w1. by rewrite (bind_Ok _ _ _ _ _ Hr).
    - exists tt, w. by rewrite app_nil_r. }
  destruct Hloop as (u & w1 & Hr & Hs & Hd).
  rewrite (bind_Ok _ _ _ _ _ Hr).
  unfold bind, modify. eexists. split; [reflexivity|].
  simpl. rewrite Hs. split_and!; try done. apply Consistent_nil.
Qed.

End Listing.

Lemma keys_and_values_in_recency_order_witness :
  LRUCache.keys lru_run = (Ok (LEntry.key <$> entries lru_run), lru_run) ∧
  LRUCache.values lru_run = (Ok (LEntry.value <$> entries lru_run), lru_run) ∧
  LRUCache.itemCount lru_run = (Ok (length (entries lru_run)), lru_run) ∧
  NoDup (LEntry.key <$> entries lru_run) ∧
  (∀ k, k ∈ LEntry.key <$> entries lru_run
        ↔ Map.has k (CACHE (self lru_run)) = true).
Proof. apply (keys_and_values_in_recency_order lru_run), lru_world_Inv. Defined.

Lemma reset_disposes_every_entry_witness :
  ∃ w',
    LRUCache.reset lru_run = (Ok tt, w') ∧ Inv w' ∧
    entries w' = [] ∧ CACHE (self w') = [] ∧ LENGTH (self w') = 0 ∧
    config (self w') = config (self lru_run) ∧
    disposed w'
    = disposed lru_run
      ++ disposals (self lru_run) (nodes lru_run) (LRU_LIST (self lru_run)).
Proof. apply (reset_disposes_every_entry lru_run), lru_world_Inv. Defined.
Section Sweep.
Context {K V : Type} `{EqDecision K}.
Implicit Types (w : World K V) (c : Cache K V) (n : Node) (hit : LEntry.t K V).
Implicit Types (key : K) (value : V).

Lemma stale_at_config t c c' hit :
  config c' = config c → stale_at t c' hit = stale_at t c hit.
Proof.
  intros Hcfg. unfold stale_at, ttl. by rewrite (config_MAX_AGE _ _ Hcfg).
Qed.

Lemma config_ALLOW_STALE c c' :
  config c' = config c → ALLOW_STALE c' = ALLOW_STALE c.
Proof. unfold config. by intros [= _ _ -> _ _ _ _]. Qed.

Lemma config_UPDATE_AGE_ON_GET c c' :
  config c' = config c → UPDATE_AGE_ON_GET c' = UPDATE_AGE_ON_GET c.
Proof. unfold config. by intros [= _ _ _ _ _ _ ->]. Qed.

Lemma config_DISPOSE c c' : config c' = config c → DISPOSE c' = DISPOSE c.
Proof. unfold config. by intros [= _ _ _ _ -> _ _]. Qed.

Lemma stale_node_config t c c' ns x :
  config c' = config c → stale_node t c' ns x = stale_node t c ns x.
Proof.
  intros Hcfg. unfold stale_node. destruct (ns !! x); [|done].
  by apply stale_at_config.
Qed.

Lemma stale_disposals_config t c c' es :
  config c' = config c → stale_disposals t c' es = stale_disposals t c es.
Proof.
  intros Hcfg. unfold stale_disposals. rewrite (config_DISPOSE _ _ Hcfg).
  destruct (DISPOSE c); [|done]. f_equal.
  apply list_filter_iff. intros h. by rewrite (stale_at_config _ _ _ _ Hcfg).
Qed.

Lemma stale_disposals_cons t c hit es :
  stale_disposals t c (hit :: es)
  = (if DISPOSE c && stale_at t c hit then [pair_of hit] else [])
    ++ stale_disposals t c es.
Proof.
  unfold stale_disposals. destruct (DISPOSE c); [|done]. simpl.
  destruct (stale_at t c hit) eqn:Hs.
  - by rewrite (filter_cons_True (λ h, stale_at t c h = true)) by done.
  - rewrite (filter_cons_False (λ h, stale_at t c h = true)); [done|].
    by rewrite Hs.
Qed.

Lemma filter_all {X} (P : X → Prop) `{∀ x, Decision (P x)} (l : list X) :
  (∀ x, x ∈ l → P x) → filter P l = l.
Proof.
  induction l as [|a l IH]; intros Hall; [done|].
  rewrite filter_cons_True by (apply Hall; by left).
  f_equal. apply IH. intros x Hx. apply Hall. by right.
Qed.

Lemma filter_filter_iff {X} (P Q R : X → Prop)
    `{∀ x, Decision (P x), ∀ x, Decision (Q x), ∀ x, Decision (R x)}
    (l : list X) :
  (∀ x, R x ↔ P x ∧ Q x) → filter P (filter Q l) = filter R l.
Proof.
  intros Hiff. induction l as [|a l IH]; [done|].
  destruct (decide (Q a)) as [HQ|HQ].
  - rewrite (filter_cons_True Q) by done.
    destruct (decide (P a)) as [HP|HP].
    + rewrite (filter_cons_True P), (filter_cons_True R), IH;
        [done|by apply Hiff|done].
    + rewrite (filter_cons_False P), (filter_cons_False R), IH;
        [done|rewrite Hiff; tauto|done].
  - rewrite (filter_cons_False Q), (filter_cons_False R), IH;
      [done|rewrite Hiff; tauto|done].
Qed.

Lemma clock_stands_del_world w t n hit :
  clock_stands w t → clock_stands (del_world n hit w) t.
Proof. done. Qed.

(** ** Loops that evict the stale entries they meet

    [forEach], [rforEach] and [prune] walk over the cache and call, on each
    element, a function that evicts the entry of the element when it is
    stale.  [node_of] gives the node of an element; [static] is what the
    function needs of an element and of the nodes. *)
Section Loop.
Context {A B : Type}.
Variable f : A → M (K := K) (V := V) B.
Variable node_of : A → Node.
Variable r : Z → Cache K V → LEntry.t K V → B.
Variable static : A → list (LEntry.t K V) → Prop.

Hypothesis r_config : ∀ t c c' hit, config c' = config c → r t c' hit = r t c hit.

Hypothesis f_step : ∀ a w hit,
  Inv w → static a (nodes w) → node_of a ∈ LRU_LIST (self w) →
  nodes w !! node_of a = Some hit →
  let w1 := tick_if (JS.truthy_num (ttl (self w) hit)) w in
  f a w
  = (Ok (r (clock w (ticks w)) (self w) hit),
     if stale_at (clock w (ticks w)) (self w) hit
     then del_world (node_of a) hit w1 else w1).

Lemma sweep (t : Z) (xs : list A) : ∀ w,
  Inv w → clock_stands w t → NoDup (node_of <$> xs) →
  (∀ a, a ∈ xs → node_of a ∈ LRU_LIST (self w) ∧ static a (nodes w)) →
  ∃ w',
    mapM f xs w
    = (Ok (r t (self w) <$> omap (λ a, nodes w !! node_of a) xs), w') ∧
    Inv w' ∧ clock_stands w' t ∧
    nodes w' = nodes w ∧ config (self w') = config (self w) ∧
    LRU_LIST (self w')
    = filter (λ x, ¬ (x ∈ node_of <$> xs
                      ∧ stale_node t (self w) (nodes w) x = true))
        (LRU_LIST (self w)) ∧
    disposed w'
    = disposed w
      ++ stale_disposals t (self w) (omap (λ a, nodes w !! node_of a) xs).
Proof.
  induction xs as [|a xs IH]; intros w HI Hck Hnd Hxs.
  - exists w. split_and!; try done.
    + symmetry. apply filter_all.
      intros x _ [Hx _]. by apply elem_of_nil in Hx.
    + unfold stale_disposals. simpl. destruct (DISPOSE (self w));
        by rewrite app_nil_r.
  - rewrite fmap_cons in Hnd. apply NoDup_cons in Hnd as [Ha Hnd].
    destruct (Hxs a) as [Hin Hst]; [by left|].
    destruct (inv_alloc _ _ _ _ HI _ Hin) as [hit Hhit].
    pose proof (f_step a w hit HI Hst Hin Hhit) as Hf. cbv zeta in Hf.
    rewrite (clock_stands_now _ _ Hck) in Hf.
    set (w1 := tick_if (JS.truthy_num (ttl (self w) hit)) w) in *.
    set (w2 := if stale_at t (self w) hit
               then del_world (node_of a) hit w1 else w1) in *.
    assert (Hn1 : nodes w1 !! node_of a = Some hit)
      by (unfold w1; by rewrite tick_if_nodes).
    assert (Hin1 : node_of a ∈ LRU_LIST (self w1))
      by (unfold w1; by rewrite tick_if_self).
    assert (HI2 : Inv w2).
    { unfold w2. destruct (stale_at t (self w) hit).
      - apply del_world_Inv; [by apply tick_if_Inv|done..].
      - by apply tick_if_Inv. }
    assert (Hck2 : clock_stands w2 t).
    { unfold w2. destruct (stale_at t (self w) hit).
      - by apply clock_stands_del_world, clock_stands_tick.
      - by apply clock_stands_tick. }
    assert (Hns2 : nodes w2 = nodes w).
    { unfold w2, w1. destruct (stale_at t (self w) hit); simpl;
        by rewrite tick_if_nodes. }
    assert (Hcfg2 : config (self w2) = config (self w)).
    { unfold w2, w1. destruct (stale_at t (self w) hit).
      - by rewrite del_world_config, tick_if_config.
      - by rewrite tick_if_config. }
    assert (Hl2 : LRU_LIST (self w2)
                  = if stale_at t (self w) hit
                    then filter (λ x, x ≠ node_of a) (LRU_LIST (self w))
                    else LRU_LIST (self w)).
    { unfold w2, w1. destruct (stale_at t (self w) hit).
      - by rewrite del_world_list, tick_if_self.
      - by rewrite tick_if_self. }
    assert (Hd2 : disposed w2
                  = disposed w
                    ++ (if DISPOSE (self w) && stale_at t (self w) hit
                        then [pair_of hit] else [])).
    { unfold w2, w1. destruct (stale_at t (self w) hit).
      - unfold del_world, dispose_log. simpl.
        rewrite tick_if_self, tick_if_disposed.
        destruct (DISPOSE (self w)); simpl; [done|by rewrite app_nil_r].
      - rewrite tick_if_disposed, andb_false_r. by rewrite app_nil_r. }
    destruct (IH w2 HI2 Hck2 Hnd)
      as (w' & Hr & HI' & Hck' & Hns' & Hcfg' & Hl' & Hd').
    { intros a' Ha'. destruct (Hxs a') as [Hin' Hst']; [by right|].
      rewrite Hns2. split; [|done]. rewrite Hl2.
      destruct (stale_at t (self w) hit); [|done].
      apply list_elem_of_filter. split; [|done].
      intros Heq. apply Ha. rewrite <- Heq. apply list_elem_of_fmap.
      by exists a'. }
    exists w'. split_and!; try done.
    + cbn [mapM omap list_omap]. rewrite Hhit. cbn.
      rewrite (bind_Ok _ _ _ _ _ Hf), (bind_Ok _ _ _ _ _ Hr). unfold ret.
      rewrite Hns2. do 3 f_equal. apply list_fmap_ext. intros _ h _.
      by apply r_config.
    + by rewrite Hns'.
    + by rewrite Hcfg'.
    + rewrite Hl', Hns2, Hl2.
      assert (Hsa : stale_node t (self w) (nodes w) (node_of a)
                    = stale_at t (self w) hit)
        by (unfold stale_node; by rewrite Hhit).
      destruct (stale_at t (self w) hit) eqn:Hs; cbv iota.
      * apply filter_filter_iff. intros x.
        rewrite fmap_cons, elem_of_cons.
        rewrite (stale_node_config _ _ _ _ _ Hcfg2).
        split.
        -- intros Hn. split.
           ++ intros [Hx Hsx]. apply Hn. split; [by right|done].
           ++ intros ->. apply Hn. split; [by left|done].
        -- intros [Hn Hne] [[->|Hx] Hsx]; [done|]. by apply Hn.
      * apply list_filter_iff. intros x.
        rewrite fmap_cons, elem_of_cons.
        rewrite (stale_node_config _ _ _ _ _ Hcfg2).
        split.
        -- intros Hn [[->|Hx] Hsx]; [congruence|]. by apply Hn.
        -- intros Hn [Hx Hsx]. apply Hn. split; [by right|done].
    + rewrite Hd', Hd2, Hns2, <- app_assoc. f_equal.
      cbn [omap list_omap]. rewrite Hhit. cbn.
      rewrite stale_disposals_cons. f_equal.
      by apply stale_disposals_config.
Qed.

End Loop.

Lemma omap_filter {X Y} (g : X → option Y) (P : X → Prop) (Q : Y → Prop)
    `{∀ x, Decision (P x), ∀ y, Decision (Q y)} (l : list X) :
  (∀ x, x ∈ l → ∃ y, g x = Some y ∧ (P x ↔ Q y)) →
  omap g (filter P l) = filter Q (omap g l).
Proof.
  induction l as [|a l IH]; intros Hrel; [done|].
  destruct (Hrel a) as (y & Hy & Hiff); [by left|].
  assert (IH' : omap g (filter P l) = filter Q (omap g l)).
  { apply IH. intros x Hx. apply Hrel. by right. }
  cbn [omap list_omap]. rewrite Hy.
  destruct (decide (P a)) as [HP|HP].
  - rewrite (filter_cons_True P), (filter_cons_True Q) by tauto.
    cbn [omap list_omap]. by rewrite Hy, IH'.
  - by rewrite (filter_cons_False P), (filter_cons_False Q) by tauto.
Qed.

Lemma omap_fmap_inner {X Y Z} (g : X → option Y) (h : Y → Z) (l : list X) :
  omap (λ x, h <$> g x) l = h <$> omap g l.
Proof.
  induction l as [|a l IH]; [done|]. cbn [omap list_omap].
  destruct (g a); cbn; by rewrite IH.
Qed.

Lemma omap_rev {X Y} (g : X → option Y) (l : list X) :
  omap g (rev l) = rev (omap g l).
Proof.
  induction l as [|a l IH]; [done|]. cbn [rev omap list_omap].
  rewrite omap_app, IH. cbn [omap list_omap].
  destruct (g a); cbn; [done|by rewrite app_nil_r].
Qed.

Lemma mapM_fmap {X Y Z} (g : X → Y) (f : Y → M (K := K) (V := V) Z)
    (l : list X) w :
  mapM f (g <$> l) w = mapM (λ x, f (g x)) l w.
Proof.
  revert w. induction l as [|a l IH]; intros w; [done|].
  rewrite fmap_cons. cbn [mapM]. unfold bind.
  destruct (f (g a) w) as [[b|e] w1]; [|done].
  by rewrite IH.
Qed.

(** The calls of the visitor: one per entry that is shown. *)
Lemma omap_step_result t c (es : list (LEntry.t K V)) :
  omap id (step_result t c <$> es)
  = visit <$> filter (λ h, shown t c h = true) es.
Proof.
  induction es as [|hit es IH]; [done|].
  rewrite fmap_cons. cbn [omap list_omap]. unfold id at 1.
  unfold step_result at 1.
  destruct (stale_at t c hit) eqn:Hs; [destruct (ALLOW_STALE c) eqn:Ha|].
  - rewrite (filter_cons_True (λ h, shown t c h = true))
      by (unfold shown; by rewrite Ha).
    cbn. by rewrite IH.
  - rewrite (filter_cons_False (λ h, shown t c h = true))
      by (unfold shown; by rewrite Ha, Hs).
    exact IH.
  - rewrite (filter_cons_True (λ h, shown t c h = true))
      by (unfold shown; rewrite Hs; apply orb_true_r).
    cbn. by rewrite IH.
Qed.

Lemma forEachStep_step n w hit :
  Inv w → True → n ∈ LRU_LIST (self w) → nodes w !! n = Some hit →
  let w1 := tick_if (JS.truthy_num (ttl (self w) hit)) w in
  forEachStep n w
  = (Ok (step_result (clock w (ticks w)) (self w) hit),
     if stale_at (clock w (ticks w)) (self w) hit
     then del_world n hit w1 else w1).
Proof.
  intros _ _ Hin Hn w1. rewrite (forEachStep_eq w n hit) by done.
  unfold step_result. fold w1. by destruct (stale_at _ _ _).
Qed.

Lemma step_result_config t c c' hit :
  config c' = config c → step_result t c' hit = step_result t c hit.
Proof.
  intros Hcfg. unfold step_result.
  by rewrite (stale_at_config _ _ _ _ Hcfg), (config_ALLOW_STALE _ _ Hcfg).
Qed.

Lemma get_result_config t c c' hit :
  config c' = config c → get_result t c' hit = get_result t c hit.
Proof.
  intros Hcfg. unfold get_result.
  by rewrite (stale_at_config _ _ _ _ Hcfg), (config_ALLOW_STALE _ _ Hcfg).
Qed.

(** The entries that are left when the stale nodes of a walk over all the
    nodes of the list are gone. *)
Lemma entries_swept w w' t (ws : list Node) :
  Inv w → nodes w' = nodes w → (∀ x, x ∈ LRU_LIST (self w) → x ∈ ws) →
  LRU_LIST (self w')
  = filter (λ x, ¬ (x ∈ ws ∧ stale_node t (self w) (nodes w) x = true))
      (LRU_LIST (self w)) →
  entries w' = filter (λ h, stale_at t (self w) h = false) (entries w).
Proof.
  intros HI Hns Hall Hl. unfold entries. rewrite Hl, Hns.
  apply omap_filter. intros x Hx.
  destruct (inv_alloc _ _ _ _ HI x Hx) as [h Hh]. exists h. split; [done|].
  unfold stale_node. rewrite Hh.
  destruct (stale_at t (self w) h); split; try done.
  - intros Hn. exfalso. apply Hn. split; [by apply Hall|done].
  - by intros _ [_ ?].
Qed.

(** X8. [forEach] at a time [t] calls the visitor once for each entry that
    is not stale at [t] (for every entry, when stale entries are allowed),
    from the most to the least recently used, and evicts the stale entries:
    afterwards the cache holds the entries that are not stale, in their
    order, and the dispose callback, if there is one, was called once for
    each stale entry. *)
Theorem forEach_visits_fresh_and_evicts_stale w (t : Z) :
  Inv w → clock_stands w t →
  ∃ w',
    LRUCache.forEach w
    = (Ok (visit <$> filter (λ h, shown t (self w) h = true) (entries w)), w') ∧
    Inv w' ∧
    entries w' = filter (λ h, stale_at t (self w) h = false) (entries w) ∧
    nodes w' = nodes w ∧ config (self w') = config (self w) ∧
    disposed w' = disposed w ++ stale_disposals t (self w) (entries w).
Proof.
  intros HI Hck. unfold LRUCache.forEach. unfold bind at 1, this.
  destruct (sweep forEachStep id step_result (λ _ _, True)
              step_result_config forEachStep_step t (LRU_LIST (self w)) w)
    as (w' & Hr & HI' & _ & Hns & Hcfg & Hl & Hd); try done.
  - rewrite list_fmap_id. apply HI.
  - rewrite list_fmap_id in Hl.
    rewrite (bind_Ok _ _ _ _ _ Hr). exists w'. split_and!; try done.
    + unfold ret. do 2 f_equal. apply omap_step_result.
    + by apply (entries_swept w w' t (LRU_LIST (self w))).
Qed.

(** X9. [rforEach] does the same from the least to the most recently used:
    the visitor and the dispose callback are called in the reverse order,
    and the cache is left with the entries that are not stale, in their
    order. *)
Theorem rforEach_visits_in_reverse w (t : Z) :
  Inv w → clock_stands w t →
  ∃ w',
    LRUCache.rforEach w
    = (Ok (visit <$> filter (λ h, shown t (self w) h = true)
                       (rev (entries w))), w') ∧
    Inv w' ∧
    entries w' = filter (λ h, stale_at t (self w) h = false) (entries w) ∧
    nodes w' = nodes w ∧ config (self w') = config (self w) ∧
    disposed w' = disposed w ++ stale_disposals t (self w) (rev (entries w)).
Proof.
  intros HI Hck. unfold LRUCache.rforEach. unfold bind at 1, this.
  destruct (sweep forEachStep id step_result (λ _ _, True)
              step_result_config forEachStep_step t (rev (LRU_LIST (self w))) w)
    as (w' & Hr & HI' & _ & Hns & Hcfg & Hl & Hd); try done.
  - rewrite list_fmap_id. apply NoDup_rev_2, HI.
  - intros a Ha. split; [|done]. by apply elem_of_rev_1.
  - rewrite list_fmap_id in Hl. rewrite omap_rev in Hr, Hd.
    rewrite (bind_Ok _ _ _ _ _ Hr). exists w'. split_and!; try done.
    + unfold ret. do 2 f_equal. apply omap_step_result.
    + apply (entries_swept w w' t (rev (LRU_LIST (self w)))); try done.
      intros x Hx. rewrite rev_is_reverse. by apply elem_of_reverse.
Qed.

Lemma get_false_step (p : K * Node) w hit :
  Inv w → key_of (nodes w) p.2 = Some p.1 → p.2 ∈ LRU_LIST (self w) →
  nodes w !! p.2 = Some hit →
  let w1 := tick_if (JS.truthy_num (ttl (self w) hit)) w in
  get p.1 false w
  = (Ok (get_result (clock w (ticks w)) (self w) hit),
     if stale_at (clock w (ticks w)) (self w) hit
     then del_world p.2 hit w1 else w1).
Proof.
  intros HI Hk Hin Hn w1.
  assert (Hg : Map.get p.1 (CACHE (self w)) = Some p.2).
  { apply Map_elem_get; [apply HI|]. by apply (inv_index _ _ _ _ HI). }
  rewrite (get_present w p.1 false p.2 hit) by done.
  unfold get_result. fold w1. by destruct (stale_at _ _ _).
Qed.

(** X10. [prune()] at a time [t] evicts exactly the entries that are stale
    at [t], whatever [allowStale] says: the entries that are not stale stay,
    in their order, and the dispose callback, if there is one, is called once
    for each stale entry, in the order in which the keys entered the
    index. *)
Theorem prune_evicts_stale_entries w (t : Z) :
  Inv w → clock_stands w t →
  ∃ w',
    LRUCache.prune w = (Ok tt, w') ∧ Inv w' ∧
    entries w' = filter (λ h, stale_at t (self w) h = false) (entries w) ∧
    nodes w' = nodes w ∧ config (self w') = config (self w) ∧
    disposed w' = disposed w ++ stale_disposals t (self w) (indexed_entries w).
Proof.
  intros HI Hck. unfold LRUCache.prune. unfold bind at 1, this.
  unfold Map.keys. unfold bind at 1. rewrite mapM_fmap.
  destruct (sweep (λ p : K * Node, get p.1 false) snd get_result
              (λ p ns, key_of ns p.2 = Some p.1)
              get_result_config get_false_step t (CACHE (self w)) w)
    as (w' & Hr & HI' & _ & Hns & Hcfg & Hl & Hd); try done.
  - apply NoDup_fmap_2_strong.
    + intros [k1 n1] [k2 n2] H1 H2 Heq. simpl in Heq. subst n2.
      apply (inv_index _ _ _ _ HI) in H1 as [_ H1].
      apply (inv_index _ _ _ _ HI) in H2 as [_ H2]. congruence.
    + eapply NoDup_fmap_1. apply (inv_keys _ _ _ _ HI).
  - intros [k n] Hp. by apply (inv_index _ _ _ _ HI).
  - rewrite Hr. exists w'. split_and!; try done.
    apply (entries_swept w w' t (CACHE (self w)).*2); try done.
    intros x Hx. destruct (key_of_alloc w x HI Hx) as [k Hk].
    apply list_elem_of_fmap. exists (k, x). split; [done|].
    by apply (inv_index _ _ _ _ HI).
Qed.

End Sweep.

Lemma aged_Inv : Inv aged.
Proof.
  apply perform_all_Inv.
  by apply (new_Inv (LRUCache.ArgOptions demo_options) late_clock).
Qed.

Lemma aged_clock : clock_stands aged 1200.
Proof.
  intros i Hi. vm_compute in Hi. change (late_clock i = 1200).
  unfold late_clock. destruct (Nat.ltb_spec i 2); [lia|done].
Qed.

Lemma forEach_visits_fresh_and_evicts_stale_witness :
  ∃ w',
    LRUCache.forEach aged
    = (Ok (visit <$> filter (λ h, shown 1200 (self aged) h = true)
                       (entries aged)), w') ∧
    Inv w' ∧
    entries w' = filter (λ h, stale_at 1200 (self aged) h = false) (entries aged) ∧
    nodes w' = nodes aged ∧ config (self w') = config (self aged) ∧
    disposed w' = disposed aged ++ stale_disposals 1200 (self aged) (entries aged).
Proof.
  apply (forEach_visits_fresh_and_evicts_stale aged 1200).
  - apply aged_Inv.
  - apply aged_clock.
Defined.

Lemma rforEach_visits_in_reverse_witness :
  ∃ w',
    LRUCache.rforEach aged
    = (Ok (visit <$> filter (λ h, shown 1200 (self aged) h = true)
                       (rev (entries aged))), w') ∧
    Inv w' ∧
    entries w' = filter (λ h, stale_at 1200 (self aged) h = false) (entries aged) ∧
    nodes w' = nodes aged ∧ config (self w') = config (self aged) ∧
    disposed w'
    = disposed aged ++ stale_disposals 1200 (self aged) (rev (entries aged)).
Proof.
  apply (rforEach_visits_in_reverse aged 1200).
  - apply aged_Inv.
  - apply aged_clock.
Defined.

Lemma prune_evicts_stale_entries_witness :
  ∃ w',
    LRUCache.prune aged = (Ok tt, w') ∧ Inv w' ∧
    entries w' = filter (λ h, stale_at 1200 (self aged) h = false) (entries aged) ∧
    nodes w' = nodes aged ∧ config (self w') = config (self aged) ∧
    disposed w'
    = disposed aged ++ stale_disposals 1200 (self aged) (indexed_entries aged).
Proof.
  apply (prune_evicts_stale_entries aged 1200).
  - apply aged_Inv.
  - apply aged_clock.
Defined.

(** What the three walks do on [aged]. *)
Lemma aged_walks :
  entries aged
  = [LEntry.mk "c" 2 2 1000 (Fin 100); LEntry.mk "b" 2 2 1000 (Fin 500);
     LEntry.mk "a" 1 1 0 (Fin 0)]
  ∧ (LRUCache.forEach aged).1 = Ok [(2, "b"); (1, "a")]
  ∧ (LRUCache.rforEach aged).1 = Ok [(1, "a"); (2, "b")]
  ∧ entries (LRUCache.prune aged).2
    = [LEntry.mk "b" 2 2 1000 (Fin 500); LEntry.mk "a" 1 1 0 (Fin 0)]
  ∧ disposed (LRUCache.prune aged).2 = [("c", 2)].
Proof. by split_and!. Qed.
Section SetSpec.
Context {K V : Type} `{EqDecision K}.
Implicit Types (w : World K V) (c : Cache K V) (n : Node) (hit : LEntry.t K V).
Implicit Types (key : K) (value : V).

Lemma disposals_entries c (ns : list (LEntry.t K V)) (l : list Node) :
  disposals c ns (rev l) = evict_disposals c (omap (λ x, ns !! x) l).
Proof.
  unfold disposals, evict_disposals, pairs_of. destruct (DISPOSE c); [|done].
  rewrite <- omap_rev.
  apply (omap_fmap_inner (λ x, ns !! x) pair_of).
Qed.

Lemma omap_app_inv {X Y} (g : X → option Y) (l : list X) (e1 e2 : list Y) :
  omap g l = e1 ++ e2 →
  ∃ l1 l2, l = l1 ++ l2 ∧ omap g l1 = e1 ∧ omap g l2 = e2.
Proof.
  revert e1. induction l as [|a l IH]; intros e1 He.
  - exists [], []. cbn in He. symmetry in He.
    apply app_eq_nil in He as [-> ->]. done.
  - cbn [omap list_omap] in He. destruct (g a) as [y|] eqn:Hy.
    + destruct e1 as [|y' e1].
      * exists [], (a :: l). split_and!; [done|done|].
        cbn [omap list_omap]. by rewrite Hy.
      * cbn in He. injection He as <- He.
        destruct (IH e1 He) as (l1 & l2 & -> & H1 & H2).
        exists (a :: l1), l2. split_and!; [done| |done].
        cbn [omap list_omap]. by rewrite Hy, H1.
    + destruct (IH e1 He) as (l1 & l2 & -> & H1 & H2).
      exists (a :: l1), l2. split_and!; [done| |done].
      cbn [omap list_omap]. by rewrite Hy.
Qed.

Lemma total_omap (ns : list (LEntry.t K V)) (l : list Node) :
  total ns l = entries_weight (omap (λ x, ns !! x) l).
Proof.
  unfold total, entries_weight, weight.
  induction l as [|a l IH]; [done|]. cbn [omap list_omap foldr].
  destruct (ns !! a); cbn; rewrite IH; lia.
Qed.

(** [trim] on a list whose head fits into the capacity keeps the head. *)
Lemma trim_after_head wp n hit rest :
  Inv wp → LRU_LIST (self wp) = n :: rest → nodes wp !! n = Some hit →
  JS.gt (LEntry.length hit) (MAX (self wp)) = false →
  ∃ kept evicted w',
    trim wp = (Ok tt, w') ∧ Inv w' ∧ same_frame wp w' ∧
    Map.get (LEntry.key hit) (CACHE (self w')) = Some n ∧
    entries w' = hit :: kept ∧
    omap (λ x, nodes wp !! x) rest = kept ++ evicted ∧
    JS.gt (LENGTH (self w')) (MAX (self w')) = false ∧
    disposed w' = disposed wp ++ evict_disposals (self wp) evicted ∧
    (∀ e1 x e2, evicted = e1 ++ x :: e2 →
       JS.gt (LENGTH (self w') + entries_weight (e1 ++ [x])) (MAX (self w'))
       = true).
Proof.
  intros HI Hl Hn Hfit.
  destruct (trim_spec wp HI)
    as (kept & evicted & w' & Hsplit & Hr & HI' & Hfr & Hl' & Hd & Hlen & Hfin & Hmin).
  rewrite Hl in Hsplit.
  destruct kept as [|x kept].
  { exfalso. simpl in Hsplit. specialize (Hmin [] _ _ (eq_sym Hsplit)).
    rewrite (inv_total _ _ _ _ HI), Hl in Hmin. simpl in Hmin.
    unfold weight at 1 in Hmin. rewrite Hn in Hmin. simpl in Hmin.
    replace (LEntry.length hit + total (nodes wp) rest - total (nodes wp) rest)
      with (LEntry.length hit) in Hmin by lia.
    congruence. }
  simpl in Hsplit. injection Hsplit as <- Hrest.
  destruct Hfr as (Hcfg & Hns & Hclk & Ht).
  exists (omap (λ x, nodes wp !! x) kept), (omap (λ x, nodes wp !! x) evicted), w'.
  split_and!; try done.
  - apply (Consistent_indexed _ _ _ _ _ _ HI'); [rewrite Hl'; left|].
    by rewrite Hns.
  - unfold entries. rewrite Hl', Hns. cbn [omap list_omap]. by rewrite Hn.
  - by rewrite Hrest, omap_app.
  - destruct Hfin as [Hfin|?]; [|done].
    by rewrite (config_MAX _ _ Hcfg).
  - by rewrite Hd, disposals_entries.
  - intros e1 x e2 He.
    replace (e1 ++ x :: e2) with ((e1 ++ [x]) ++ e2) in He
      by (by rewrite <- app_assoc).
    apply omap_app_inv in He as (l1 & l2 & -> & H1 & H2).
    destruct l1 as [|a l1 _] using rev_ind.
    { by destruct e1. }
    specialize (Hmin l1 a l2). rewrite <- app_assoc in Hmin.
    specialize (Hmin eq_refl).
    rewrite (config_MAX _ _ Hcfg), <- H1, <- total_omap, Hlen.
    rewrite !total_app in *.
    replace (LENGTH (self wp) -
             (total (nodes wp) l1 + total (nodes wp) [a] + total (nodes wp) l2) +
             (total (nodes wp) l1 + total (nodes wp) [a]))
      with (LENGTH (self wp) - total (nodes wp) l2) by lia.
    done.
Qed.

Lemma set_maxAge_of_ttl c maxAge :
  valid_maxAge maxAge = true →
  JS.or_num (set_maxAge_of c maxAge) (MAX_AGE c) = set_maxAge_of c maxAge.
Proof.
  unfold valid_maxAge, set_maxAge_of, JS.or, JS.or_num. intros Hv.
  destruct (JS.truthy maxAge) eqn:Ht; simpl in Hv.
  - destruct maxAge; try done. simpl in Ht. by rewrite Ht.
  - by destruct (JS.truthy_num (MAX_AGE c)).
Qed.

(** An entry that carries the TTL of a [set] is not stale at a time at which
    that TTL, counted from its stamp, has not run out. *)
Lemma stamped_fresh w c maxAge hit (t : Z) :
  valid_maxAge maxAge = true → config c = config (self w) →
  LEntry.maxAge hit = set_maxAge_of (self w) maxAge →
  (JS.truthy_num (set_maxAge_of (self w) maxAge) = true →
     JS.gt (t - LEntry.now hit) (set_maxAge_of (self w) maxAge) = false) →
  stale_at t c hit = false.
Proof.
  intros Hv Hcfg Hma Hnow.
  unfold stale_at, ttl.
  rewrite Hma, (config_MAX_AGE _ _ Hcfg), (set_maxAge_of_ttl _ _ Hv).
  destruct (JS.truthy_num (set_maxAge_of (self w) maxAge)) eqn:Ht; [|done].
  simpl. by apply Hnow.
Qed.

Lemma absent_filter w key :
  Inv w → absent key w →
  filter (λ h, LEntry.key h ≠ key) (entries w) = entries w.
Proof.
  intros HI Ha. apply filter_all. intros h Hh Heq.
  assert (Hk : key ∈ list_keys w).
  { rewrite list_keys_entries. apply list_elem_of_fmap. by exists h. }
  apply (list_keys_elem w key HI) in Hk.
  by apply Map_get_None_keys in Ha.
Qed.

Lemma set_maxAge_of_config c c' maxAge :
  config c' = config c → set_maxAge_of c' maxAge = set_maxAge_of c maxAge.
Proof. intros Hcfg. unfold set_maxAge_of. by rewrite (config_MAX_AGE _ _ Hcfg). Qed.

Lemma omap_lookup_ext (ns ns' : list (LEntry.t K V)) (l : list Node) :
  (∀ x, x ∈ l → ns' !! x = ns !! x) →
  omap (λ x, ns' !! x) l = omap (λ x, ns !! x) l.
Proof.
  induction l as [|a l IH]; intros Hext; [done|]. cbn [omap list_omap].
  rewrite (Hext a) by (by left).
  rewrite IH; [done|]. intros x Hx. apply Hext. by right.
Qed.

(** [set] of a value that fits, on a key that is not in the cache. *)
Lemma set_fits_absent w key value maxAge :
  Inv w → valid_maxAge maxAge = true → absent key w →
  JS.gt (LENGTH_CALCULATOR (self w) value key) (MAX (self w)) = false →
  ∃ w' n hit kept evicted,
    LRUCache.set key value maxAge w = (Ok true, w') ∧ Inv w' ∧
    config (self w') = config (self w) ∧ clock w' = clock w ∧
    (ticks w ≤ ticks w')%nat ∧
    Map.get key (CACHE (self w')) = Some n ∧ nodes w' !! n = Some hit ∧
    LEntry.key hit = key ∧ LEntry.value hit = value ∧
    LEntry.length hit = LENGTH_CALCULATOR (self w) value key ∧
    LEntry.maxAge hit = set_maxAge_of (self w) maxAge ∧
    (JS.truthy_num (set_maxAge_of (self w) maxAge) = true →
       ∃ i, (ticks w ≤ i < ticks w')%nat ∧ LEntry.now hit = clock w i) ∧
    entries w' = hit :: kept ∧
    filter (λ h, LEntry.key h ≠ key) (entries w) = kept ++ evicted ∧
    JS.gt (LENGTH (self w')) (MAX (self w')) = false ∧
    disposed w'
    = disposed w ++ overwrite_disposal w key ++ evict_disposals (self w) evicted ∧
    (∀ e1 x e2, evicted = e1 ++ x :: e2 →
       JS.gt (LENGTH (self w') + entries_weight (e1 ++ [x])) (MAX (self w'))
       = true).
Proof.
  intros HI Hv Ha Hfit. rewrite set_absent_fits by done.
  set (hit := set_entry w key value maxAge).
  set (wp := inserted hit (set_start w maxAge)).
  assert (HIp : Inv wp).
  { apply inserted_Inv; [by apply set_start_Inv|].
    unfold hit, set_entry. cbn [LEntry.key]. by rewrite set_start_self. }
  assert (Hnp : nodes wp !! length (nodes w) = Some hit).
  { unfold wp. rewrite inserted_nodes, set_start_nodes.
    by rewrite lookup_app_r, Nat.sub_diag by lia. }
  assert (Hcfgp : config (self wp) = config (self w)).
  { unfold wp. by rewrite inserted_config, set_start_config. }
  destruct (trim_after_head wp (length (nodes w)) hit (LRU_LIST (self w)))
    as (kept & evicted & w' & Hr & HI' & Hfr & Hg & Hent & Hrest & Hcap & Hd
        & Hleast);
    try done.
  { unfold wp. by rewrite inserted_list, set_start_nodes, set_start_self. }
  { by rewrite (config_MAX _ _ Hcfgp). }
  destruct Hfr as (Hcfg & Hns & Hclk & Ht).
  exists w', (length (nodes w)), hit, kept, evicted.
  rewrite (bind_Ok _ _ _ _ _ Hr). split_and!; try done.
  - by rewrite Hcfg.
  - rewrite Hclk. unfold wp, inserted, set_start. simpl. apply tick_if_clock.
  - rewrite Ht. unfold wp, inserted, set_start, tick_if. simpl.
    destruct (JS.truthy_num _); simpl; lia.
  - by rewrite Hns.
  - intros Htr. exists (ticks w). split.
    + rewrite Ht. unfold wp, inserted, set_start, tick_if. simpl.
      rewrite Htr. simpl. lia.
    + unfold hit, set_entry, set_now_of. simpl. by rewrite Htr.
  - rewrite (absent_filter w key HI Ha), <- Hrest. unfold entries.
    symmetry. apply omap_lookup_ext. intros x Hx.
    unfold wp. rewrite inserted_nodes, set_start_nodes.
    apply lookup_app_l.
    destruct (inv_alloc _ _ _ _ HI x Hx) as [h Hh]. by eapply lookup_lt_Some.
  - rewrite Hd. unfold overwrite_disposal. unfold absent in Ha. rewrite Ha.
    unfold wp. simpl. rewrite set_start_disposed. f_equal.
    unfold evict_disposals. simpl. by rewrite set_start_self.
Qed.

Lemma promoted_list n hit w :
  LRU_LIST (self (promoted n hit w))
  = n :: filter (λ x, x ≠ n) (LRU_LIST (self w)).
Proof. done. Qed.

Lemma promoted_index n hit w : CACHE (self (promoted n hit w)) = CACHE (self w).
Proof. done. Qed.

Lemma promoted_disposed n hit w : disposed (promoted n hit w) = disposed w.
Proof. unfold promoted. by destruct (UPDATE_AGE_ON_GET (self w)). Qed.

Lemma promoted_clock n hit w : clock (promoted n hit w) = clock w.
Proof. unfold promoted. by destruct (UPDATE_AGE_ON_GET (self w)). Qed.

Lemma promoted_ticks n hit w :
  ticks (promoted n hit w)
  = if UPDATE_AGE_ON_GET (self w) then S (ticks w) else ticks w.
Proof. unfold promoted. by destruct (UPDATE_AGE_ON_GET (self w)). Qed.

Lemma promoted_nodes n hit w :
  nodes (promoted n hit w)
  = if UPDATE_AGE_ON_GET (self w)
    then <[n := LEntry.mk (LEntry.key hit) (LEntry.value hit)
                  (LEntry.length hit) (clock w (ticks w)) (LEntry.maxAge hit)]>
           (nodes w)
    else nodes w.
Proof. unfold promoted. by destruct (UPDATE_AGE_ON_GET (self w)). Qed.

Lemma tick_if_ticks b w : (ticks w ≤ ticks (tick_if b w))%nat.
Proof. destruct b; simpl; lia. Qed.

(** [set] of a value that fits, on a key that is in the cache, while the TTL
    of the new entry lasts. *)
Lemma set_fits_present w key value maxAge n item :
  Inv w → valid_maxAge maxAge = true →
  Map.get key (CACHE (self w)) = Some n → nodes w !! n = Some item →
  JS.gt (LENGTH_CALCULATOR (self w) value key) (MAX (self w)) = false →
  outlives_set w key maxAge →
  ∃ w' hit kept evicted,
    LRUCache.set key value maxAge w = (Ok true, w') ∧ Inv w' ∧
    config (self w') = config (self w) ∧ clock w' = clock w ∧
    (ticks w ≤ ticks w')%nat ∧
    Map.get key (CACHE (self w')) = Some n ∧ nodes w' !! n = Some hit ∧
    LEntry.key hit = key ∧ LEntry.value hit = value ∧
    LEntry.length hit = LENGTH_CALCULATOR (self w) value key ∧
    LEntry.maxAge hit = set_maxAge_of (self w) maxAge ∧
    (JS.truthy_num (set_maxAge_of (self w) maxAge) = true →
       ∃ i, (ticks w ≤ i < ticks w')%nat ∧ LEntry.now hit = clock w i) ∧
    entries w' = hit :: kept ∧
    filter (λ h, LEntry.key h ≠ key) (entries w) = kept ++ evicted ∧
    JS.gt (LENGTH (self w')) (MAX (self w')) = false ∧
    disposed w'
    = disposed w ++ overwrite_disposal w key ++ evict_disposals (self w) evicted ∧
    (UPDATE_AGE_ON_GET (self w) = false →
       LEntry.now hit = set_now_of w maxAge) ∧
    (∀ e1 x e2, evicted = e1 ++ x :: e2 →
       JS.gt (LENGTH (self w') + entries_weight (e1 ++ [x])) (MAX (self w'))
       = true).
Proof.
  intros HI Hv Hg Hn Hfit Hlast.
  assert (Hhas : Map.has key (CACHE (self w)) = true)
    by (unfold Map.has; by rewrite Hg).
  specialize (Hlast Hhas).
  destruct (Consistent_get _ _ _ _ _ _ HI Hg) as (Hin & item' & Hn' & Hk).
  assert (item' = item) as -> by congruence.
  rewrite (set_present_fits w key value maxAge n item) by done.
  set (ma := set_maxAge_of (self w) maxAge).
  set (new := LEntry.mk (LEntry.key item) value
                (LENGTH_CALCULATOR (self w) value key) (set_now_of w maxAge) ma).
  set (w0 := set_start w maxAge).
  set (wo := overwritten key n item new w0).
  assert (HIo : Inv wo).
  { apply overwritten_Inv; unfold w0.
    - by apply set_start_Inv.
    - by rewrite set_start_self.
    - by rewrite set_start_nodes.
    - done. }
  assert (Hcfgo : config (self wo) = config (self w)).
  { unfold wo, w0. by rewrite overwritten_config, set_start_config. }
  assert (Hgo : Map.get key (CACHE (self wo)) = Some n).
  { unfold wo, w0. by rewrite overwritten_index, set_start_self. }
  assert (Hno : nodes wo !! n = Some new).
  { unfold wo, w0. rewrite overwritten_nodes, set_start_nodes.
    apply list_lookup_insert_eq. by eapply lookup_lt_Some. }
  assert (Hino : n ∈ LRU_LIST (self wo)).
  { unfold wo, w0. by rewrite overwritten_list, set_start_self. }
  assert (Hclko : clock wo = clock w).
  { unfold wo, w0, overwritten, set_start. simpl. apply tick_if_clock. }
  assert (Hto : (ticks w ≤ ticks wo)%nat
                ∧ (JS.truthy_num ma = true → (S (ticks w) ≤ ticks wo)%nat)).
  { unfold wo, w0, overwritten, set_start, tick_if. simpl. fold ma.
    destruct (JS.truthy_num ma); simpl; split; try lia; done. }
  destruct Hto as [Hto Hto'].
  assert (Hfresh : stale_at (clock wo (ticks wo)) (self wo) new = false).
  { rewrite Hclko. apply (stamped_fresh w (self wo) maxAge new); try done.
    intros Htr.
    assert (Htk : ticks wo = S (ticks w)).
    { unfold wo, w0, overwritten, set_start, tick_if. simpl.
      by rewrite Htr. }
    rewrite Htk. unfold new, set_now_of. simpl. rewrite Htr.
    by apply Hlast. }
  unfold LRUCache.get.
  pose proof (get_present wo key true n new Hgo Hno Hino) as Hget.
  cbv zeta in Hget. rewrite Hfresh in Hget.
  rewrite (bind_Ok _ _ _ _ _ Hget). clear Hget.
  set (w1 := tick_if (JS.truthy_num (ttl (self wo) new)) wo).
  set (wp := promoted n new w1).
  assert (HI1 : Inv w1) by (by apply tick_if_Inv).
  assert (Hn1 : nodes w1 !! n = Some new)
    by (unfold w1; by rewrite tick_if_nodes).
  assert (Hin1 : n ∈ LRU_LIST (self w1))
    by (unfold w1; by rewrite tick_if_self).
  assert (HIp : Inv wp) by (by apply promoted_Inv).
  assert (Hcfgp : config (self wp) = config (self w)).
  { unfold wp, w1. by rewrite promoted_config, tick_if_config. }
  set (hit := if UPDATE_AGE_ON_GET (self w1)
              then LEntry.mk (LEntry.key item) value
                     (LENGTH_CALCULATOR (self w) value key)
                     (clock w1 (ticks w1)) ma
              else new).
  assert (Hnp : nodes wp !! n = Some hit).
  { unfold wp, hit. rewrite promoted_nodes.
    destruct (UPDATE_AGE_ON_GET (self w1)); [|done].
    apply list_lookup_insert_eq. by eapply lookup_lt_Some. }
  assert (Hlp : LRU_LIST (self wp)
                = n :: filter (λ x, x ≠ n) (LRU_LIST (self w))).
  { unfold wp. rewrite promoted_list. unfold w1. rewrite tick_if_self.
    unfold wo, w0. by rewrite overwritten_list, set_start_self. }
  assert (Hlen : LEntry.length hit = LENGTH_CALCULATOR (self w) value key).
  { unfold hit. by destruct (UPDATE_AGE_ON_GET (self w1)). }
  destruct (trim_after_head wp n hit (filter (λ x, x ≠ n) (LRU_LIST (self w))))
    as (kept & evicted & w' & Hr & HI' & Hfr & Hg' & Hent & Hrest & Hcap & Hd
        & Hleast);
    try done.
  { by rewrite Hlen, (config_MAX _ _ Hcfgp). }
  destruct Hfr as (Hcfg & Hns & Hclk & Ht).
  assert (Hkey : LEntry.key hit = key).
  { unfold hit. by destruct (UPDATE_AGE_ON_GET (self w1)). }
  exists w', hit, kept, evicted.
  rewrite (bind_Ok _ _ _ _ _ Hr). split_and!; try done.
  - by rewrite Hcfg.
  - rewrite Hclk. unfold wp. rewrite promoted_clock. unfold w1.
    by rewrite tick_if_clock.
  - rewrite Ht. unfold wp. rewrite promoted_ticks.
    pose proof (tick_if_ticks (JS.truthy_num (ttl (self wo) new)) wo).
    fold w1 in H. destruct (UPDATE_AGE_ON_GET (self w1)); lia.
  - by rewrite <- Hkey.
  - by rewrite Hns.
  - unfold hit. by destruct (UPDATE_AGE_ON_GET (self w1)).
  - unfold hit. by destruct (UPDATE_AGE_ON_GET (self w1)).
  - intros Htr. specialize (Hto' Htr).
    pose proof (tick_if_ticks (JS.truthy_num (ttl (self wo) new)) wo) as Ht1.
    fold w1 in Ht1.
    rewrite Ht. unfold wp. rewrite promoted_ticks. unfold hit.
    destruct (UPDATE_AGE_ON_GET (self w1)).
    + exists (ticks w1). split; [lia|]. simpl. unfold w1.
      by rewrite tick_if_clock, Hclko.
    + exists (ticks w). split; [lia|].
      unfold new, set_now_of. simpl. fold ma. by rewrite Htr.
  - rewrite <- Hrest. symmetry. unfold entries.
    apply omap_filter_ne; [|by apply Inv_node_key].
    intros x _ Hne. unfold wp. rewrite promoted_nodes.
    assert (Hx : nodes w1 !! x = nodes w !! x).
    { unfold w1. rewrite tick_if_nodes. unfold wo, w0.
      rewrite overwritten_nodes, set_start_nodes.
      by apply list_lookup_insert_ne. }
    destruct (UPDATE_AGE_ON_GET (self w1)); [|done].
    rewrite list_lookup_insert_ne by done. done.
  - rewrite Hd. unfold evict_disposals. rewrite (config_DISPOSE _ _ Hcfgp).
    unfold wp. rewrite promoted_disposed. unfold w1.
    rewrite tick_if_disposed.
    rewrite app_assoc. f_equal.
    unfold overwrite_disposal. rewrite Hg, Hn.
    unfold wo, overwritten, w0. simpl.
    rewrite set_start_self, set_start_disposed.
    destruct (DISPOSE (self w) && negb (NO_DISPOSE_ON_SET (self w)));
      [done|by rewrite app_nil_r].
  - intros Hu. unfold hit, w1. rewrite tick_if_self. unfold wo, w0.
    rewrite (config_UPDATE_AGE_ON_GET _ _
               (overwritten_config key n item new (set_start w maxAge))).
    by rewrite set_start_self, Hu.
Qed.

(** [set] of a value that fits. *)
Lemma set_fits_spec w key value maxAge :
  Inv w → valid_maxAge maxAge = true →
  JS.gt (LENGTH_CALCULATOR (self w) value key) (MAX (self w)) = false →
  outlives_set w key maxAge →
  ∃ w' n hit kept evicted,
    LRUCache.set key value maxAge w = (Ok true, w') ∧ Inv w' ∧
    config (self w') = config (self w) ∧ clock w' = clock w ∧
    (ticks w ≤ ticks w')%nat ∧
    Map.get key (CACHE (self w')) = Some n ∧ nodes w' !! n = Some hit ∧
    LEntry.key hit = key ∧ LEntry.value hit = value ∧
    LEntry.length hit = LENGTH_CALCULATOR (self w) value key ∧
    LEntry.maxAge hit = set_maxAge_of (self w) maxAge ∧
    (JS.truthy_num (set_maxAge_of (self w) maxAge) = true →
       ∃ i, (ticks w ≤ i < ticks w')%nat ∧ LEntry.now hit = clock w i) ∧
    entries w' = hit :: kept ∧
    filter (λ h, LEntry.key h ≠ key) (entries w) = kept ++ evicted ∧
    JS.gt (LENGTH (self w')) (MAX (self w')) = false ∧
    disposed w'
    = disposed w ++ overwrite_disposal w key ++ evict_disposals (self w) evicted ∧
    (∀ e1 x e2, evicted = e1 ++ x :: e2 →
       JS.gt (LENGTH (self w') + entries_weight (e1 ++ [x])) (MAX (self w'))
       = true).
Proof.
  intros HI Hv Hfit Hlast.
  destruct (Map.get key (CACHE (self w))) as [n|] eqn:Hg.
  - destruct (Consistent_get _ _ _ _ _ _ HI Hg) as (_ & item & Hn & _).
    destruct (set_fits_present w key value maxAge n item)
      as (w' & hit & kept & evicted & H1 & H2 & H3 & H4 & H5 & H6 & H7
          & H8 & H9 & H10 & H11 & H12 & H13 & H14 & H15 & H16 & _ & H17);
      try done.
    exists w', n, hit, kept, evicted. by split_and!.
  - destruct (set_fits_absent w key value maxAge HI Hv Hg Hfit)
      as (w' & n & hit & kept & evicted & H).
    by exists w', n, hit, kept, evicted.
Qed.




End SetSpec.





(** That [set] on [demo_a], whose clock is 150 milliseconds further at each
    reading: the entry is stamped 1000, it is there at the readings 1150,
    1300 and 1450, and stale at the reading 1600. *)
Lemma demo_a_set_then_read :
  let w' := (LRUCache.set "a" 3 (JNumber (Fin 500)) demo_a).2 in
  entries w' = [LEntry.mk "a" 3 3 1000 (Fin 500)]
  ∧ ticks w' = 2%nat
  ∧ (LRUCache.get "a" w').1 = Ok (Some 3)
  ∧ (LRUCache.has "a" (with_ticks 3 w')).1 = Ok true
  ∧ (LRUCache.has "a" (with_ticks 4 w')).1 = Ok false.
Proof. by split_and!. Qed.

(** That [set] on [aged]: the old value of "b" is disposed of, then the
    least recently used entry, the one of "a", is evicted to make room. *)
Lemma aged_set :
  entries (LRUCache.set "b" 3 (JNumber (Fin 500)) aged).2
  = [LEntry.mk "b" 3 3 1200 (Fin 500); LEntry.mk "c" 2 2 1000 (Fin 100)]
  ∧ disposed (LRUCache.set "b" 3 (JNumber (Fin 500)) aged).2
    = [("b", 2); ("a", 1)].
Proof. by split_and!. Qed.
(** ** A capacity of 0 *)

Section ClaimsUnbounded.
Context {K V : Type} `{EqDecision K}.
Implicit Types (w : World K V) (c : Cache K V) (n : Node) (hit : LEntry.t K V).
Implicit Types (key : K) (value : V).

Lemma filter_twice {X} (P : X → Prop) `{∀ x, Decision (P x)} (l : list X) :
  filter P (filter P l) = filter P l.
Proof. apply filter_filter_iff. tauto. Qed.

(** Writing the entry of a key changes no entry of another key. *)
Lemma others_overwritten w key n item new :
  Inv w → Map.get key (CACHE (self w)) = Some n → nodes w !! n = Some item →
  LEntry.key new = LEntry.key item →
  filter (λ h, LEntry.key h ≠ key) (entries (overwritten key n item new w))
  = filter (λ h, LEntry.key h ≠ key) (entries w).
Proof.
  intros HI Hg Hn Hk.
  destruct (Consistent_get _ _ _ _ _ _ HI Hg) as (Hin & _).
  assert (HIo : Inv (overwritten key n item new w))
    by (by apply overwritten_Inv).
  unfold entries. rewrite overwritten_list, overwritten_nodes.
  transitivity (omap (λ x, <[n:=new]> (nodes w) !! x)
                  (filter (λ x, x ≠ n) (LRU_LIST (self w)))).
  - symmetry. apply omap_filter_ne; [done|].
    apply (Inv_node_key (overwritten key n item new w) key n HIo).
    by rewrite overwritten_index.
  - apply omap_filter_ne; [|by apply Inv_node_key].
    intros x _ Hne. by apply list_lookup_insert_ne.
Qed.

(** In a cache without capacity bound every [set] whose [maxAge] raises no
    [TypeError] returns [true] and leaves the entries of the other keys as
    they are, in their order. *)
Lemma set_unbounded_keeps_others w key value maxAge :
  Inv w → MAX (self w) = Infinity → valid_maxAge maxAge = true →
  ∃ w',
    LRUCache.set key value maxAge w = (Ok true, w') ∧ Inv w' ∧
    MAX (self w') = Infinity ∧
    filter (λ h, LEntry.key h ≠ key) (entries w')
    = filter (λ h, LEntry.key h ≠ key) (entries w).
Proof.
  intros HI HM Hv.
  assert (Hgt : JS.gt (LENGTH_CALCULATOR (self w) value key) (MAX (self w))
                = false) by (by rewrite HM).
  destruct (Map.get key (CACHE (self w))) as [n|] eqn:Hg.
  - destruct (Consistent_get _ _ _ _ _ _ HI Hg) as (Hin & item & Hn & Hk).
    rewrite (set_present_fits w key value maxAge n item) by done.
    set (new := LEntry.mk _ _ _ _ _).
    set (w0 := set_start w maxAge).
    set (wo := overwritten key n item new w0).
    assert (HI0 : Inv w0) by (by apply set_start_Inv).
    assert (Hg0 : Map.get key (CACHE (self w0)) = Some n)
      by (unfold w0; by rewrite set_start_self).
    assert (Hn0 : nodes w0 !! n = Some item)
      by (unfold w0; by rewrite set_start_nodes).
    assert (Hin0 : n ∈ LRU_LIST (self w0))
      by (unfold w0; by rewrite set_start_self).
    assert (HIo : Inv wo) by (by apply overwritten_Inv).
    assert (Hgo : Map.get key (CACHE (self wo)) = Some n) by done.
    assert (Hno : nodes wo !! n = Some new).
    { unfold wo. rewrite overwritten_nodes.
      apply list_lookup_insert_eq. by eapply lookup_lt_Some. }
    assert (Heo : filter (λ h, LEntry.key h ≠ key) (entries wo)
                  = filter (λ h, LEntry.key h ≠ key) (entries w)).
    { unfold wo. rewrite (others_overwritten w0 key n item new) by done.
      unfold w0. by rewrite entries_set_start. }
    assert (HMo : MAX (self wo) = Infinity).
    { unfold wo, w0.
      rewrite (config_MAX _ _ (overwritten_config _ _ _ _ _)).
      by rewrite set_start_self. }
    pose proof (get_Inv wo key true HIo) as HIg.
    pose proof (get_present wo key true n new Hgo Hno Hin0) as Hget.
    cbv zeta in Hget. unfold LRUCache.get.
    set (w1 := tick_if (JS.truthy_num (ttl (self wo) new)) wo) in *.
    assert (HI1 : Inv w1) by (by apply tick_if_Inv).
    destruct (stale_at _ _ _).
    + rewrite Hget in HIg. rewrite (bind_Ok _ _ _ _ _ Hget).
      assert (HM2 : MAX (self (del_world n new w1)) = Infinity).
      { rewrite (config_MAX _ _ (del_world_config n new w1)).
        unfold w1. by rewrite tick_if_self. }
      unfold bind. rewrite (trim_unbounded _ HM2).
      eexists. split_and!; try done. cbn [snd] in HIg.
      rewrite (entries_del_world w1 key n new); try done.
      * unfold w1. rewrite entries_tick_if. by rewrite filter_twice.
      * unfold w1. by rewrite tick_if_self.
      * unfold w1. by rewrite tick_if_nodes.
    + rewrite Hget in HIg. rewrite (bind_Ok _ _ _ _ _ Hget).
      assert (HM2 : MAX (self (promoted n new w1)) = Infinity).
      { rewrite (config_MAX _ _ (promoted_config n new w1)).
        unfold w1. by rewrite tick_if_self. }
      unfold bind. rewrite (trim_unbounded _ HM2).
      eexists. split_and!; try done. unfold w1.
      rewrite (entries_promoted wo key n new) by done.
      rewrite filter_cons_False.
      * by rewrite filter_twice.
      * intros Hne. apply Hne. unfold touched.
        destruct (UPDATE_AGE_ON_GET (self wo)); exact Hk.
  - rewrite set_absent_fits by done.
    set (w1 := inserted _ _).
    assert (HM1 : MAX (self w1) = Infinity).
    { unfold w1.
      by rewrite (config_MAX _ _ (inserted_config _ _)), set_start_self. }
    assert (HI1 : Inv w1).
    { apply inserted_Inv; [by apply set_start_Inv|].
      unfold set_entry. cbn [LEntry.key]. by rewrite set_start_self. }
    unfold bind. rewrite (trim_unbounded w1 HM1).
    eexists. split_and!; try done. unfold w1.
    rewrite entries_inserted by (by apply set_start_Inv).
    rewrite entries_set_start. by rewrite filter_cons_False by (intros Hne; done).
Qed.

(** C10. A capacity of 0 is an unbounded cache.  The constructor returns a
    cache of capacity [Infinity] for [max = 0], and the [max] setter stores
    [Infinity] for 0.  With that capacity [trim] evicts nothing; every [set]
    whose [maxAge] raises no [TypeError] returns [true] and leaves the
    entries of the other keys as they are; and the [set] stores the entry:
    it is the head of the list with the key and the value, followed by all
    the other entries, and nothing but an overwritten value is disposed of.
    (On a key that is in the cache the stored entry is there after the call
    when its TTL, if it has one, has not run out inside the call.) *)
Theorem zero_capacity_is_unbounded :
  (∃ c, LRUCache.constructor (K := K) (V := V) (LRUCache.ArgMax (Fin 0)) = Ok c
        ∧ MAX c = Infinity)
  ∧ (∀ o, Options.max o = JNumber (Fin 0) →
        JS.truthy (Options.maxAge o) && negb (JS.is_number (Options.maxAge o))
        = false →
        ∃ c, LRUCache.constructor (K := K) (V := V) (LRUCache.ArgOptions o)
             = Ok c
             ∧ MAX c = Infinity)
  ∧ (∀ w, LRUCache.set_max (JNumber (Fin 0)) w
          = (Ok tt, with_self (with_MAX Infinity (self w)) w))
  ∧ (∀ w, MAX (self w) = Infinity → trim w = (Ok tt, w))
  ∧ (∀ w key value maxAge,
       Inv w → MAX (self w) = Infinity → valid_maxAge maxAge = true →
       ∃ w',
         LRUCache.set key value maxAge w = (Ok true, w') ∧ Inv w' ∧
         MAX (self w') = Infinity ∧
         filter (λ h, LEntry.key h ≠ key) (entries w')
         = filter (λ h, LEntry.key h ≠ key) (entries w))
  ∧ (∀ w key value maxAge,
       Inv w → MAX (self w) = Infinity → valid_maxAge maxAge = true →
       outlives_set w key maxAge →
       ∃ w' hit,
         LRUCache.set key value maxAge w = (Ok true, w') ∧
         entries w'
         = hit :: filter (λ h, LEntry.key h ≠ key) (entries w) ∧
         LEntry.key hit = key ∧ LEntry.value hit = value ∧
         Map.has key (CACHE (self w')) = true ∧
         disposed w' = disposed w ++ overwrite_disposal w key).
Proof.
  split_and!.
  - eexists. split; reflexivity.
  - intros o Hmax Hage. unfold LRUCache.constructor. rewrite Hmax, Hage.
    simpl. eexists. split; reflexivity.
  - intros w. unfold LRUCache.set_max. simpl.
    unfold bind, modify. by rewrite trim_unbounded.
  - apply trim_unbounded.
  - apply set_unbounded_keeps_others.
  - intros w key value maxAge HI HM Hv Hlast.
    assert (Hgt : JS.gt (LENGTH_CALCULATOR (self w) value key) (MAX (self w))
                  = false) by (by rewrite HM).
    destruct (set_fits_spec w key value maxAge HI Hv Hgt Hlast)
      as (w' & n & hit & kept & evicted & Hr & HI' & Hcfg & _ & _ & Hg & _
          & Hk & Hval & _ & _ & _ & Hent & Hrest & _ & Hd & Hleast).
    assert (He : evicted = []).
    { destruct evicted as [|x e2]; [done|].
      specialize (Hleast [] x e2 eq_refl).
      by rewrite (config_MAX _ _ Hcfg), HM in Hleast. }
    subst evicted. rewrite app_nil_r in Hrest.
    exists w', hit. split_and!; try done.
    + by rewrite Hent, Hrest.
    + unfold Map.has. by rewrite Hg.
    + rewrite Hd. unfold evict_disposals. simpl.
      destruct (DISPOSE (self w)); by rewrite app_nil_r.
Qed.

End ClaimsUnbounded.

Lemma zero_capacity_is_unbounded_witness :
  ∃ w' hit,
    LRUCache.set "d" 4 JUndefined lru_unbounded = (Ok true, w') ∧
    entries w'
    = hit :: filter (λ h, LEntry.key h ≠ "d") (entries lru_unbounded) ∧
    LEntry.key hit = "d" ∧ LEntry.value hit = 4 ∧
    Map.has "d" (CACHE (self w')) = true ∧
    disposed w' = disposed lru_unbounded ++ overwrite_disposal lru_unbounded "d".
Proof.
  apply (proj2 (proj2 (proj2 (proj2 (proj2
           (zero_capacity_is_unbounded (K := string) (V := Z))))))
           lru_unbounded "d" 4 JUndefined).
  - apply lru_world_Inv.
  - reflexivity.
  - reflexivity.
  - intros Hhas. discriminate Hhas.
Defined.

(** The cache of [lru_run], of capacity 2, after [max = 0] and three more
    [set], two of new keys and one that overwrites: four entries, none
    evicted. *)
Lemma lru_unbounded_grows :
  let w := perform_all
             [CallSet "d" 4 JUndefined; CallSet "e" 5 JUndefined;
              CallSet "a" 6 JUndefined]
             lru_unbounded in
  MAX (self w) = Infinity
  ∧ (LEntry.key <$> entries w) = ["a"; "e"; "d"; "c"]
  ∧ LENGTH (self w) = 4.
Proof. by split_and!. Qed.


(** ** Entries without a stamp, and a TTL set later *)

Section ClaimsUnstamped.
Context {K V : Type} `{EqDecision K}.
Implicit Types (w : World K V) (c : Cache K V) (n : Node) (hit : LEntry.t K V).
Implicit Types (key : K) (value : V).













End ClaimsUnstamped.



Section Setters.
Context {K V : Type} `{EqDecision K}.
Implicit Types (w : World K V) (c : Cache K V) (n : Node) (hit : LEntry.t K V).
Implicit Types (key : K) (value : V).






End Setters.



(** On [lru_run], whose entries c and a hold the values 3 and 1, with the
    capacity 2: weighed by their values the entries total 4, and [trim]
    evicts both, a first. *)
Lemma lru_run_reweighed :
  entries (LRUCache.set_lengthCalculator (Some by_value) lru_run).2 = []
  ∧ disposed (LRUCache.set_lengthCalculator (Some by_value) lru_run).2
    = [("b", 2); ("a", 1); ("c", 3)].
Proof. by split_and!. Qed.
Section Serialized.
Context {K V : Type} `{EqDecision K}.
Implicit Types (w : World K V) (c : Cache K V) (n : Node) (hit : LEntry.t K V).
Implicit Types (key : K) (value : V) (r : Entry.t K V).






End Serialized.




(** The dump of [mixed], whose entry of "b" expires at 1500, loaded into a
    cache whose clock is one millisecond further at each reading: [load]
    reads 1000 and computes a TTL of 500, the [set] of "b" reads 1001, and
    the copy of "b" expires at 1501. *)
Lemma load_while_time_passes :
  (LRUCache.dump mixed).1
  = Ok [Entry.mk "b" 2 (Fin 1500); Entry.mk "a" 1 (Fin 0)]
  ∧ entries (LRUCache.load
               [Entry.mk "b" 2 (Fin 1500); Entry.mk "a" 1 (Fin 0)]
               (refresh_world 1000)).2
    = [LEntry.mk "b" 2 1 1001 (Fin 500); LEntry.mk "a" 1 1 0 (Fin 0)].
Proof. by split. Qed.

(** What the three calls give on these caches: the dump of [aged] skips the
    stale entry of "c"; the load drops the record of "z"; the copy of
    [travellers] holds "b" with the 300 milliseconds it has left. *)
Lemma serialization_examples :
  (LRUCache.dump aged).1
  = Ok [Entry.mk "b" 2 (Fin 1500); Entry.mk "a" 1 (Fin 0)]
  ∧ entries (LRUCache.load some_records aged).2
    = [LEntry.mk "x" 2 2 1200 (Fin 300); LEntry.mk "y" 1 1 0 (Fin 0)]
  ∧ entries (LRUCache.load [Entry.mk "b" 2 (Fin 1500); Entry.mk "a" 1 (Fin 0)]
               (still_world 1200)).2
    = [LEntry.mk "b" 2 1 1200 (Fin 300); LEntry.mk "a" 1 1 0 (Fin 0)].
Proof. by split_and!. Qed.
(** ** What the methods leave alone *)

Section Frame.
Context {K V : Type} `{EqDecision K} {T : Type}.
Variable π : Cache K V → T.
Hypothesis π_LENGTH : ∀ x c, π (with_LENGTH x c) = π c.
Hypothesis π_CACHE : ∀ x c, π (with_CACHE x c) = π c.
Hypothesis π_LRU_LIST : ∀ x c, π (with_LRU_LIST x c) = π c.
Hypothesis π_LENGTH_CALCULATOR : ∀ x c, π (with_LENGTH_CALCULATOR x c) = π c.
Hypothesis π_MAX_AGE : ∀ x c, π (with_MAX_AGE x c) = π c.
Hypothesis π_ALLOW_STALE : ∀ x c, π (with_ALLOW_STALE x c) = π c.

#[local] Abbreviation keeps_π := (preserves (K := K) (V := V) π).

Lemma preserves_ret {A} (a : A) : keeps_π (ret a).
Proof. by intros w. Qed.

Lemma preserves_throw {A} e : keeps_π (throw (A := A) e).
Proof. by intros w. Qed.

Lemma preserves_this : keeps_π this.
Proof. by intros w. Qed.

Lemma preserves_bind {A B} (m : M A) (f : A → M B) :
  keeps_π m → (∀ a, keeps_π (f a)) → keeps_π (bind m f).
Proof.
  intros Hm Hf w. unfold bind. specialize (Hm w).
  destruct (m w) as [[a|e] w1]; simpl in *; [|done].
  by rewrite (Hf a w1).
Qed.

Lemma preserves_modify (f : Cache K V → Cache K V) :
  (∀ c, π (f c) = π c) → keeps_π (modify f).
Proof. intros Hf w. apply Hf. Qed.

Lemma preserves_Date_now : keeps_π Date_now.
Proof. by intros w. Qed.

Lemma preserves_node_value n : keeps_π (node_value n).
Proof. intros w. unfold node_value. by destruct (nodes w !! n). Qed.

Lemma preserves_node_assign n hit : keeps_π (node_assign n hit).
Proof. by intros w. Qed.

Lemma preserves_call_dispose (k : K) (v : V) : keeps_π (call_dispose k v).
Proof. by intros w. Qed.

Lemma preserves_removeNode n : keeps_π (LRU_LIST_removeNode n).
Proof.
  intros w. unfold LRU_LIST_removeNode.
  destruct (Yallist.removeNode n (LRU_LIST (self w))); [apply π_LRU_LIST|done].
Qed.

Lemma preserves_unshiftNode n : keeps_π (LRU_LIST_unshiftNode n).
Proof. intros w. apply π_LRU_LIST. Qed.

Lemma preserves_unshift hit : keeps_π (LRU_LIST_unshift hit).
Proof. intros w. apply π_LRU_LIST. Qed.

Lemma preserves_mapM {A B} (f : A → M B) (l : list A) :
  (∀ a, keeps_π (f a)) → keeps_π (mapM f l).
Proof.
  intros Hf. induction l as [|a l IH]; [apply preserves_ret|].
  cbn [mapM]. apply preserves_bind; [apply Hf|intros b].
  apply preserves_bind; [apply IH|intros bs]. apply preserves_ret.
Qed.

Ltac frame_with known :=
  repeat first
    [ known
    | apply preserves_ret | apply preserves_throw | apply preserves_this
    | apply preserves_Date_now | apply preserves_node_value
    | apply preserves_node_assign | apply preserves_call_dispose
    | apply preserves_removeNode | apply preserves_unshiftNode
    | apply preserves_unshift
    | apply preserves_modify; intros ?;
      rewrite ?π_LENGTH, ?π_CACHE, ?π_LRU_LIST, ?π_LENGTH_CALCULATOR,
        ?π_MAX_AGE, ?π_ALLOW_STALE; reflexivity
    | apply preserves_bind; [|intros ?]
    | apply preserves_mapM; intros ?
    | match goal with
      | |- preserves _ (if ?b then _ else _) => destruct b
      | |- preserves _ (match ?x with _ => _ end) => destruct x
      end ].

Lemma preserves_del node : keeps_π (del node).
Proof. unfold del. frame_with fail. Qed.

Lemma preserves_isStale hit : keeps_π (isStale hit).
Proof. unfold isStale. frame_with fail. Qed.

Lemma preserves_get key doUse : keeps_π (get key doUse).
Proof.
  unfold get.
  frame_with ltac:(first [apply preserves_isStale | apply preserves_del]).
Qed.

Lemma preserves_trim_loop walkers : keeps_π (trim_loop walkers).
Proof.
  induction walkers as [|x l IH]; [apply preserves_ret|].
  cbn [trim_loop]. frame_with ltac:(first [apply preserves_del | apply IH]).
Qed.

Lemma preserves_trim : keeps_π trim.
Proof. unfold trim. frame_with ltac:(apply preserves_trim_loop). Qed.

Lemma preserves_forEachStep n : keeps_π (forEachStep n).
Proof.
  unfold forEachStep.
  frame_with ltac:(first [apply preserves_isStale | apply preserves_del]).
Qed.

Ltac frame :=
  frame_with ltac:(first
    [ apply preserves_isStale | apply preserves_del | apply preserves_get
    | apply preserves_trim | apply preserves_forEachStep ]).

Lemma preserves_set key value maxAge : keeps_π (LRUCache.set key value maxAge).
Proof. unfold LRUCache.set, LRUCache.get. frame. Qed.

Lemma preserves_reset : keeps_π LRUCache.reset.
Proof. unfold LRUCache.reset. frame. Qed.

Lemma preserves_load arr : keeps_π (LRUCache.load arr).
Proof.
  unfold LRUCache.load.
  frame_with ltac:(first [apply preserves_reset | apply preserves_set]).
Qed.

(** A method that is not a setter. *)
Lemma preserves_perform (op : call) w :
  is_setter op = false → π (self (perform op w)) = π (self w).
Proof.
  intros Hop. destruct op; try discriminate Hop; cbn [perform]; revert w;
    match goal with
    | |- ∀ w, π (self (?m w).2) = _ => change (preserves π m)
    end.
  - apply preserves_set.
  - apply preserves_get.
  - apply preserves_get.
  - unfold LRUCache.has. frame.
  - unfold LRUCache.del. frame.
  - unfold LRUCache.pop. frame.
  - apply preserves_reset.
  - unfold LRUCache.prune. frame.
  - unfold LRUCache.forEach. frame.
  - unfold LRUCache.rforEach. frame.
  - unfold LRUCache.keys. frame.
  - unfold LRUCache.values. frame.
  - unfold LRUCache.dump. frame.
  - unfold LRUCache.dumpLru. frame.
  - apply preserves_load.
  - unfold LRUCache.max. frame.
  - unfold LRUCache.maxAge. frame.
  - unfold LRUCache.allowStale. frame.
  - unfold LRUCache.lengthCalculator. frame.
  - unfold LRUCache.length. frame.
  - unfold LRUCache.itemCount. frame.
Qed.

(** The setters other than the one of [max]. *)
Lemma preserves_set_maxAge mA : keeps_π (LRUCache.set_maxAge mA).
Proof. unfold LRUCache.set_maxAge. frame. Qed.

Lemma preserves_set_allowStale v : keeps_π (LRUCache.set_allowStale v).
Proof. unfold LRUCache.set_allowStale. frame. Qed.

Lemma preserves_set_lengthCalculator lC :
  keeps_π (LRUCache.set_lengthCalculator lC).
Proof. unfold LRUCache.set_lengthCalculator. frame. Qed.

End Frame.

Section Configuration.
Context {K V : Type} `{EqDecision K}.
Implicit Types (w : World K V) (c : Cache K V).

Lemma perform_config (op : call) w :
  is_setter op = false → config (self (perform op w)) = config (self w).
Proof. by apply preserves_perform. Qed.

(** X19. No method but the four setters changes the configuration: after
    any sequence of calls that holds no setter, returned or thrown, the
    capacity, the TTL, the length function, [allowStale], the dispose
    callback, [noDisposeOnSet] and [updateAgeOnGet] are what they were. *)
Theorem methods_keep_configuration (ops : list call) w :
  forallb (λ op, negb (is_setter op)) ops = true →
  config (self (perform_all ops w)) = config (self w).
Proof.
  revert w. induction ops as [|op ops IH]; intros w Hops; [done|].
  simpl in Hops. apply andb_true_iff in Hops as [Hop Hops].
  apply negb_true_iff in Hop.
  cbn [perform_all foldl]. change (foldl _ ?x ops) with (perform_all ops x).
  rewrite (IH _ Hops). by apply perform_config.
Qed.

Lemma constructor_positive options (c : Cache K V) :
  LRUCache.constructor options = Ok c → JS.positive (MAX c) = true.
Proof.
  unfold LRUCache.constructor.
  set (o := match options with
            | LRUCache.ArgNone => _ | LRUCache.ArgMax _ => _
            | LRUCache.ArgOptions _ => _ end).
  destruct (JS.truthy (Options.max o) && _) eqn:Hbad; [done|].
  destruct (JS.truthy (Options.maxAge o) && _); [done|].
  intros [= <-]. cbn [MAX].
  unfold JS.or. destruct (JS.truthy (Options.max o)) eqn:Ht; [|done].
  simpl in Hbad. destruct (Options.max o) as [| |b|x|s|]; try done.
  simpl in *. destruct x as [z|]; [|done]. simpl in *.
  apply Z.ltb_ge in Hbad. apply negb_true_iff, Z.eqb_neq in Ht.
  apply Z.ltb_lt. lia.
Qed.

Lemma or_num_positive x :
  JS.negative x = false → JS.positive (JS.or_num x Infinity) = true.
Proof.
  unfold JS.or_num. destruct x as [z|]; simpl; [|done].
  intros Hz. apply Z.ltb_ge in Hz.
  destruct (z =? 0) eqn:H0; simpl; [done|].
  apply Z.eqb_neq in H0. apply Z.ltb_lt. lia.
Qed.

Lemma perform_positive (op : call) w :
  JS.positive (MAX (self w)) = true →
  JS.positive (MAX (self (perform op w))) = true.
Proof.
  intros Hpos. destruct (is_setter op) eqn:Hop.
  - destruct op; try discriminate Hop; cbn [perform].
    + unfold LRUCache.set_max. destruct mL as [| |b|x|s|]; try done.
      destruct (JS.negative x) eqn:Hx; [done|].
      unfold bind at 1, modify.
      rewrite (preserves_trim MAX); [|done..]. simpl.
      by apply or_num_positive.
    + by rewrite (preserves_set_maxAge MAX).
    + by rewrite (preserves_set_allowStale MAX).
    + by rewrite (preserves_set_lengthCalculator MAX).
  - by rewrite (preserves_perform MAX).
Qed.

(** X20. The capacity of a cache is positive (a number above 0, or
    [Infinity]) from its construction on, whatever is called on it: the
    constructor and the [max] setter refuse a negative number and store 0 as
    [Infinity], and nothing else writes the capacity. *)
Theorem capacity_stays_positive options clk (w0 : World K V) (ops : list call) :
  LRUCache.new options clk = Ok w0 →
  JS.positive (MAX (self (perform_all ops w0))) = true.
Proof.
  intros Hnew.
  assert (H0 : JS.positive (MAX (self w0)) = true).
  { unfold LRUCache.new in Hnew.
    destruct (LRUCache.constructor options) as [c|e] eqn:Hc; [|done].
    injection Hnew as <-. by apply (constructor_positive options). }
  clear Hnew. revert w0 H0.
  induction ops as [|op ops IH]; intros w0 H0; [done|].
  cbn [perform_all foldl]. change (foldl _ ?x ops) with (perform_all ops x).
  by apply IH, perform_positive.
Qed.

End Configuration.

Lemma methods_keep_configuration_witness :
  config (self (perform_all
                  [CallSet "d" 4 (JNumber (Fin 50)); CallGet "a"; CallPeek "c";
                   CallDel "c"; CallPrune; CallPop; CallLoad some_records;
                   CallReset]
                  lru_run))
  = config (self lru_run).
Proof.
  apply (methods_keep_configuration
           [CallSet "d" 4 (JNumber (Fin 50)); CallGet "a"; CallPeek "c";
            CallDel "c"; CallPrune; CallPop; CallLoad some_records; CallReset]
           lru_run).
  reflexivity.
Defined.

Lemma capacity_stays_positive_witness :
  JS.positive
    (MAX (self (perform_all
                  [CallSet "a" 1 JUndefined; CallSetMax (JNumber (Fin 0));
                   CallSetMax (JNumber (Fin (-3))); CallSetMax (JString "7");
                   CallSetMaxAge (JNumber (Fin (-1)));
                   CallSetLengthCalculator None; CallSetMax (JNumber (Fin 1))]
                  demo_world)))
  = true.
Proof.
  apply (capacity_stays_positive (LRUCache.ArgOptions demo_options) demo_clock).
  apply demo_world_new.
Defined.

Section SetEdges.
Context {K V : Type} `{EqDecision K}.
Implicit Types (w : World K V) (c : Cache K V) (n : Node) (hit : LEntry.t K V).
Implicit Types (key : K) (value : V).

(** X21. The third argument of [set]: a value that is truthy and not a
    number makes [set] throw a [TypeError] before it touches the cache; a
    falsy value of any type ([undefined], [null], [false], the empty string,
    0) is the same as no third argument, and the TTL of the cache
    applies. *)
Theorem set_checks_its_maxAge w key value maxAge :
  (JS.truthy maxAge = true → JS.is_number maxAge = false →
   LRUCache.set key value maxAge w
   = (Throw (TypeError "maxAge must be a number"), w))
  ∧ (JS.truthy maxAge = false →
     LRUCache.set key value maxAge w = LRUCache.set key value JUndefined w).
Proof.
  split.
  - intros Ht Hn. apply set_invalid. unfold valid_maxAge. by rewrite Ht, Hn.
  - intros Ht. unfold LRUCache.set, bind at 1 3, this.
    unfold JS.or. by rewrite Ht.
Qed.



End SetEdges.

Lemma set_checks_its_maxAge_witness :
  LRUCache.set "a" 2 (JString "soon") demo_a
  = (Throw (TypeError "maxAge must be a number"), demo_a)
  ∧ LRUCache.set "a" 2 JNull demo_a = LRUCache.set "a" 2 JUndefined demo_a.
Proof.
  split.
  - apply (proj1 (set_checks_its_maxAge demo_a "a" 2 (JString "soon")));
      reflexivity.
  - apply (proj2 (set_checks_its_maxAge demo_a "a" 2 JNull)). reflexivity.
Defined.

Section FullCache.
Context {K V : Type} `{EqDecision K}.
Implicit Types (w : World K V) (c : Cache K V) (n : Node) (hit : LEntry.t K V).
Implicit Types (key : K) (value : V).

Lemma entries_weight_unit (es : list (LEntry.t K V)) :
  (∀ h, h ∈ es → LEntry.length h = 1) →
  entries_weight es = Z.of_nat (length es).
Proof.
  induction es as [|h es IH]; intros Hu; [done|].
  cbn [entries_weight foldr length]. fold (entries_weight es).
  rewrite (Hu h) by (by left). rewrite IH; [lia|].
  intros x Hx. apply Hu. by right.
Qed.

Lemma Inv_weight w : Inv w → LENGTH (self w) = entries_weight (entries w).
Proof. intros HI. rewrite (inv_total _ _ _ _ HI). apply total_omap. Qed.

(** X23. The least recently used entry goes first.  In a cache whose
    entries all weigh 1 and that is full (the capacity is the number of its
    entries), a [set] of a new key that weighs 1 evicts exactly one entry, the
    one at the tail of the list, with one call of the dispose callback if
    there is one; the new entry becomes the head and the others keep their
    order. *)
Theorem set_on_full_cache_evicts_least_recently_used w key value maxAge :
  Inv w → valid_maxAge maxAge = true → absent key w →
  (∀ hit, hit ∈ entries w → LEntry.length hit = 1) →
  LENGTH_CALCULATOR (self w) value key = 1 →
  MAX (self w) = Fin (LENGTH (self w)) → entries w ≠ [] →
  ∃ w' hit rest oldest,
    entries w = rest ++ [oldest] ∧
    LRUCache.set key value maxAge w = (Ok true, w') ∧ Inv w' ∧
    entries w' = hit :: rest ∧
    LEntry.key hit = key ∧ LEntry.value hit = value ∧
    absent (LEntry.key oldest) w' ∧
    disposed w'
    = dispose_log (self w) (LEntry.key oldest) (LEntry.value oldest)
        (disposed w).
Proof.
  intros HI Hv Ha Hunit Hlc Hfull Hne.
  pose proof (Inv_weight w HI) as HN.
  rewrite (entries_weight_unit _ Hunit) in HN.
  assert (Hpos : 1 ≤ LENGTH (self w)).
  { rewrite HN. destruct (entries w); [done|]. simpl. lia. }
  assert (Hfit : JS.gt (LENGTH_CALCULATOR (self w) value key) (MAX (self w))
                 = false).
  { rewrite Hlc, Hfull. simpl. apply Z.ltb_ge. lia. }
  destruct (set_fits_absent w key value maxAge HI Hv Ha Hfit)
    as (w' & n & hit & kept & evicted & Hr & HI' & Hcfg & _ & _ & _ & _
        & Hk & Hval & Hlen & _ & _ & Hent & Hrest & Hcap & Hd & Hleast).
  rewrite (absent_filter w key HI Ha) in Hrest.
  assert (Hkept : ∀ h, h ∈ kept → LEntry.length h = 1).
  { intros h Hh. apply Hunit. rewrite Hrest. apply elem_of_app. by left. }
  assert (HN' : LENGTH (self w') = 1 + Z.of_nat (length kept)).
  { rewrite (Inv_weight w' HI'), Hent. cbn [entries_weight foldr].
    fold (entries_weight kept). rewrite (entries_weight_unit _ Hkept). lia. }
  rewrite (config_MAX _ _ Hcfg), Hfull in Hcap, Hleast.
  simpl in Hcap. apply Z.ltb_ge in Hcap.
  rewrite Hrest, length_app in HN.
  destruct evicted as [|x e2]; [simpl in HN; lia|].
  specialize (Hleast [] x e2 eq_refl). simpl in Hleast.
  apply Z.ltb_lt in Hleast.
  rewrite (Hunit x) in Hleast
    by (rewrite Hrest; apply elem_of_app; right; left).
  destruct e2 as [|y e2]; [|simpl in HN; lia].
  assert (Hnd : NoDup (LEntry.key <$> (kept ++ [x]))).
  { rewrite <- Hrest, <- list_keys_entries. by apply list_keys_NoDup. }
  rewrite fmap_app in Hnd. apply NoDup_app in Hnd as (_ & Hdis & _).
  exists w', hit, kept, x. split_and!; try done.
  - unfold absent. apply Map_get_None_keys.
    rewrite <- (list_keys_elem w' _ HI'), list_keys_entries, Hent, fmap_cons.
    intros [Heq|Hin]%elem_of_cons.
    + assert (Hx : LEntry.key x ∈ list_keys w).
      { rewrite list_keys_entries, Hrest. apply list_elem_of_fmap.
        exists x. split; [done|]. apply elem_of_app. right. left. }
      apply (list_keys_elem w _ HI) in Hx.
      rewrite Heq, Hk in Hx. by apply Map_get_None_keys in Ha.
    + apply (Hdis _ Hin). simpl. left.
  - rewrite Hd. unfold overwrite_disposal, absent in *. rewrite Ha.
    unfold evict_disposals, dispose_log, pair_of. simpl.
    destruct (DISPOSE (self w)); [done|by rewrite app_nil_r].
Qed.

End FullCache.

Lemma set_on_full_cache_evicts_least_recently_used_witness :
  ∃ w' hit rest oldest,
    entries lru_run = rest ++ [oldest] ∧
    LRUCache.set "d" 4 JUndefined lru_run = (Ok true, w') ∧ Inv w' ∧
    entries w' = hit :: rest ∧
    LEntry.key hit = "d" ∧ LEntry.value hit = 4 ∧
    absent (LEntry.key oldest) w' ∧
    disposed w'
    = dispose_log (self lru_run) (LEntry.key oldest) (LEntry.value oldest)
        (disposed lru_run).
Proof.
  apply (set_on_full_cache_evicts_least_recently_used lru_run "d" 4 JUndefined).
  - apply lru_world_Inv.
  - reflexivity.
  - reflexivity.
  - intros hit Hhit. vm_compute in Hhit.
    repeat (apply elem_of_cons in Hhit as [->|Hhit]; [reflexivity|]).
    by apply elem_of_nil in Hhit.
  - reflexivity.
  - reflexivity.
  - discriminate.
Defined.
Section Getters.
Context {K V : Type} `{EqDecision K}.
Implicit Types (w : World K V) (c : Cache K V).

(** X24. The getters return what the setters stored, whether or not the
    trim that ends a setter evicted something: [max] the number given, with
    [Infinity] for 0; [maxAge] the number given, negative or not;
    [allowStale] the truth value of what was given; [lengthCalculator] the
    function given, or the default for what is not a function. *)
Theorem getters_return_what_setters_stored w :
  (∀ x, JS.negative x = false →
        (LRUCache.max (LRUCache.set_max (JNumber x) w).2).1
        = Ok (JS.or_num x Infinity))
  ∧ (∀ x, (LRUCache.maxAge (LRUCache.set_maxAge (JNumber x) w).2).1 = Ok x)
  ∧ (∀ v, (LRUCache.allowStale (LRUCache.set_allowStale v w).2).1
          = Ok (JS.truthy v))
  ∧ (∀ lC, fn_id <$> match (LRUCache.lengthCalculator
                              (LRUCache.set_lengthCalculator lC w).2).1 with
                     | Ok f => Some f
                     | Throw _ => None
                     end
           = Some (fn_id (default naiveLength lC))).
Proof.
  split_and!.
  - intros x Hx. unfold LRUCache.set_max. rewrite Hx.
    unfold LRUCache.max, bind at 1, this, ret. cbn [fst]. f_equal.
    unfold bind, modify. by rewrite (preserves_trim MAX).
  - intros x. unfold LRUCache.set_maxAge.
    unfold LRUCache.maxAge, bind at 1, this, ret. cbn [fst]. f_equal.
    unfold bind, modify. by rewrite (preserves_trim MAX_AGE).
  - done.
  - intros lC. unfold LRUCache.lengthCalculator, bind at 1, this, ret.
    cbn [fst fmap option_fmap option_map]. f_equal.
    unfold LRUCache.set_lengthCalculator. unfold bind at 1, this.
    set (f := default naiveLength lC).
    destruct (decide (fn_id f ≠ fn_id (LENGTH_CALCULATOR (self w))))
      as [Hne|Heq].
    + f_equal.
      match goal with
      | |- context [bind (bind (modify ?g) ?R) ?k w] =>
          change (bind (bind (modify g) R) k w)
            with (bind (R tt) k (with_self (g (self w)) w));
          assert (Hp : preserves LENGTH_CALCULATOR (bind (R tt) k))
      end.
      { apply (preserves_bind LENGTH_CALCULATOR);
          [|intros _; by apply preserves_trim].
        apply (preserves_bind LENGTH_CALCULATOR);
          [by apply preserves_modify|intros _].
        apply (preserves_bind LENGTH_CALCULATOR);
          [|intros _; apply preserves_ret].
        apply preserves_mapM. intros n.
        apply (preserves_bind LENGTH_CALCULATOR);
          [apply preserves_node_value|intros hit].
        apply (preserves_bind LENGTH_CALCULATOR);
          [apply preserves_node_assign|intros _].
        by apply preserves_modify. }
      by rewrite Hp.
    + apply dec_stable in Heq. rewrite Heq. f_equal.
      unfold bind, ret. by rewrite (preserves_trim LENGTH_CALCULATOR).
Qed.

End Getters.

(** ** When an entry expires *)

Section Expiry.
Context {K V : Type} `{EqDecision K}.
Implicit Types (w : World K V) (c : Cache K V) (n : Node) (hit : LEntry.t K V).
Implicit Types (key : K) (value : V).


(** X26. With [updateAgeOnGet], a [get] restarts the TTL of the entry: after
    a [get] of an entry that is not stale and has a TTL in effect, a [has]
    at any later reading [j] of the clock measures the age of the entry from
    the time the [get] read after its staleness test, not from the time the
    entry was set. *)
Theorem get_with_updateAgeOnGet_restarts_ttl w key n hit :
  Inv w → Map.get key (CACHE (self w)) = Some n → nodes w !! n = Some hit →
  UPDATE_AGE_ON_GET (self w) = true →
  JS.truthy_num (ttl (self w) hit) = true →
  stale_at (clock w (ticks w)) (self w) hit = false →
  ∃ w',
    LRUCache.get key w = (Ok (Some (LEntry.value hit)), w') ∧
    clock w' = clock w ∧ ticks w' = S (S (ticks w)) ∧
    ∀ j, (LRUCache.has key (with_ticks j w')).1
         = Ok (negb (JS.gt (clock w j - clock w (S (ticks w)))
                       (ttl (self w) hit))).
Proof.
  intros HI Hg Hn Hup Httl Hfresh.
  destruct (Consistent_get _ _ _ _ _ _ HI Hg) as (Hin & _).
  unfold LRUCache.get. rewrite (get_present w key true n hit) by done.
  cbv zeta. rewrite Hfresh, Httl.
  set (w1 := tick_if true w).
  set (hit' := LEntry.mk (LEntry.key hit) (LEntry.value hit)
                 (LEntry.length hit) (clock w (S (ticks w)))
                 (LEntry.maxAge hit)).
  assert (Hn' : nodes (promoted n hit w1) !! n = Some hit').
  { rewrite promoted_nodes. unfold w1. simpl. rewrite Hup.
    apply list_lookup_insert_eq. by eapply lookup_lt_Some. }
  exists (promoted n hit w1). split_and!; [done|..].
  - by rewrite promoted_clock.
  - rewrite promoted_ticks. unfold w1. simpl. by rewrite Hup.
  - intros j.
    rewrite (has_present (with_ticks j (promoted n hit w1)) key n hit');
      [|by rewrite <- Hg|done].
    cbn [fst]. f_equal.
    assert (Httl' : ttl (self (with_ticks j (promoted n hit w1))) hit'
                    = ttl (self w) hit).
    { unfold ttl. cbn [LEntry.maxAge with_ticks self].
      by rewrite (config_MAX_AGE _ _ (promoted_config n hit w1)). }
    unfold stale_at. rewrite Httl', Httl. cbn [andb].
    cbn [with_ticks clock ticks LEntry.now]. by rewrite promoted_clock.
Qed.


End Expiry.




(** In that cache the clock is 150 milliseconds further at each reading: the
    entry set with a TTL of 150 is there at the next reading and stale at the
    one after. *)
Lemma entry_expires_strictly_after_maxAge_example :
  (LRUCache.has "b" (LRUCache.set "b" 2 (JNumber (Fin 150)) demo_a).2).1
  = Ok true
  ∧ (LRUCache.has "b"
       (LRUCache.has "b" (LRUCache.set "b" 2 (JNumber (Fin 150)) demo_a).2).2).1
    = Ok false.
Proof. by split. Qed.

Lemma get_with_updateAgeOnGet_restarts_ttl_witness :
  ∃ w',
    LRUCache.get "b" mixed = (Ok (Some 2), w') ∧
    clock w' = clock mixed ∧ ticks w' = S (S (ticks mixed)) ∧
    ∀ j, (LRUCache.has "b" (with_ticks j w')).1
         = Ok (negb (JS.gt (clock mixed j - clock mixed (S (ticks mixed)))
                       (ttl (self mixed) (LEntry.mk "b" 2 1 1000 (Fin 500))))).
Proof.
  apply (get_with_updateAgeOnGet_restarts_ttl mixed "b" 1%nat
           (LEntry.mk "b" 2 1 1000 (Fin 500))).
  - apply perform_all_Inv, (new_Inv _ _ _ (refresh_world_new 1000)).
  - reflexivity.
  - reflexivity.
  - reflexivity.
  - reflexivity.
  - reflexivity.
Defined.

(** ** The capacity bound *)

Section Capacity.
Context {K V : Type} `{EqDecision K}.
Implicit Types (w : World K V) (c : Cache K V) (n : Node) (hit : LEntry.t K V).
Implicit Types (key : K) (value : V) (b : number).






































End Capacity.


(** Without the proviso the bound fails: with the weight of an entry its
    value, [set("a", -3); set("b", 5); set("c", 3); del("a")] leaves a total
    of 8 in a cache of capacity 5. *)
Lemma negative_weight_exceeds_capacity :
  let w := perform_all
             [CallSet "a" (-3) JUndefined; CallSet "b" 5 JUndefined;
              CallSet "c" 3 JUndefined; CallDel "a"]
             demo_world in
  LENGTH (self w) = 8 ∧ MAX (self w) = Fin 5
  ∧ (LEntry.key <$> entries w) = ["c"; "b"].
Proof. by vm_compute. Qed.

(** ** [has] and [peek] *)

Section Agreement.
Context {K V : Type} `{EqDecision K}.
Implicit Types (w : World K V) (key : K).

(** X29. [has] and [peek] agree on what is in the cache.  Called on the
    same cache, both return; when [has(key)] is true [peek(key)] returns a
    value, and in a cache without [allowStale] a value from [peek(key)]
    means that [has(key)] is true.  With [allowStale], [peek] returns the
    value of a stale entry although [has] is false. *)
Theorem has_agrees_with_peek w key :
  Inv w →
  ∃ (b : bool) (v : option V),
    (LRUCache.has key w).1 = Ok b ∧ (LRUCache.peek key w).1 = Ok v ∧
    (b = true → is_Some v) ∧
    (is_Some v → ALLOW_STALE (self w) = false → b = true) ∧
    (b = false → ALLOW_STALE (self w) = true →
     Map.has key (CACHE (self w)) = true → is_Some v).
Proof.
  intros HI. unfold LRUCache.peek.
  destruct (Map.get key (CACHE (self w))) as [n|] eqn:Hg.
  - destruct (Consistent_get _ _ _ _ _ _ HI Hg) as (Hin & hit & Hn & Hk).
    rewrite (has_present w key n hit), (get_present w key false n hit) by done.
    destruct (stale_at _ _ _); cbn [fst negb].
    + destruct (ALLOW_STALE (self w)) eqn:Ha; eexists _, _;
        split_and!; try done;
        first [by intros; eexists | by intros [? ?]].
    + eexists _, _. split_and!; try done; by intros; eexists.
  - rewrite has_absent, get_absent by done. exists false, None.
    split_and!; try done.
    intros _ _. unfold Map.has. by rewrite Hg.
Qed.

End Agreement.

Lemma has_agrees_with_peek_witness :
  ∃ (b : bool) (v : option Z),
    (LRUCache.has "b" aged).1 = Ok b ∧ (LRUCache.peek "b" aged).1 = Ok v ∧
    (b = true → is_Some v) ∧
    (is_Some v → ALLOW_STALE (self aged) = false → b = true) ∧
    (b = false → ALLOW_STALE (self aged) = true →
     Map.has "b" (CACHE (self aged)) = true → is_Some v).
Proof. apply (has_agrees_with_peek aged "b"), aged_Inv. Defined.
